(** * The CFG finalisation passes of [cfg/builder/builder_finalize.cc]

    A shallow embedding of [CFGBuilder::simplify], [sanityCheck],
    [maybeDealias], [dealias], [markLoopHeaders], [removeDeadAssigns],
    [computeMinMaxLoops], [fillInBlockArguments], [topoSortFwd] and
    [topoSortBwd], followed by the properties established about them.

    Conventions of the embedding.
    - A [BasicBlock*] is modelled by the [id] of the block it points to
      ([BlockRef]); dereferencing looks the id up in [cfg.basicBlocks] and
      fails ([None]) when no live block carries it, so [bb->id] is the
      reference itself.
    - Code whose behaviour is undefined in C++ (dereferencing a freed block,
      indexing a vector outside its bounds) yields [None].
    - [while (changed)] loops take a fuel argument. *)

From Stdlib Require Import ZArith Lia.
From stdpp Require Import base option list sorting gmap sets fin_maps fin_sets.

Open Scope Z_scope.
Open Scope nat_scope.

#[local] Set Warnings "-clear-no-such-hyp".

(** ** Data model *)

(** [core::NameRef]: the integer [_id] of an interned name. *)
Definition NameRef := nat.

(** Modelled from the spec: [core::LocalVariable] is declared in a header
    that is not among the sources; it is a value type with a [name] whose
    integer id orders the block arguments.  The second component stands for
    whatever else the class carries, so that nothing below relies on a
    variable being determined by its name. *)
Record LocalVariable := mkLocal { name : NameRef; unique : nat }.

#[global] Instance LocalVariable_eq_dec : EqDecision LocalVariable.
Proof. solve_decision. Defined.

#[global] Instance LocalVariable_countable : Countable LocalVariable.
Proof.
  refine (inj_countable' (λ v, (name v, unique v)) (λ p, mkLocal p.1 p.2) _).
  by intros [].
Defined.

(** Modelled from the spec: [core::Context] is the read-only handle to the
    symbol table that the predicates of [LocalVariable] consult.  The two
    predicates and the reserved name [core::Names::blockCall()] are declared
    outside the sources and are taken as fields of the handle. *)
Record Context := mkContext {
  ctx_isSyntheticTemporary : LocalVariable → bool;
  ctx_isAliasForGlobal : LocalVariable → bool;
  blockCall : NameRef }.

Definition isSyntheticTemporary (what : LocalVariable) (ctx : Context) : bool :=
  ctx_isSyntheticTemporary ctx what.

Definition isAliasForGlobal (what : LocalVariable) (ctx : Context) : bool :=
  ctx_isAliasForGlobal ctx what.

(** Modelled from the spec: [LocalVariable::exists()] is missing from the
    sources; the exit condition "may be a sentinel does-not-exist marker",
    which is the variable whose name has id 0. *)
Definition exists_ (what : LocalVariable) : bool := negb (name what =? 0).

(** Modelled from the spec: [Instruction] and its subclasses are declared in
    a header that is not among the sources; the variants are those the passes
    test for with [cast_instruction] and [isa_instruction], as a closed sum.
    [Moved] is the null [unique_ptr<Instruction>] that a moved-from [Binding]
    is left with (line 59). *)
Inductive Instruction :=
| Ident (what : LocalVariable)
| Send (recv : LocalVariable) (fun_ : NameRef) (args : list LocalVariable)
| Return (what : LocalVariable)
| BoolLit (b : bool)
| StringLit (s : NameRef)
| SymbolLit (s : NameRef)
| IntLit (z : Z)
| FloatLit (bits : Z)
| Self (klass : nat)
| LoadArg (arg : nat)
| ArraySplat (arg : LocalVariable)
| HashSplat (arg : LocalVariable)
| Moved.

#[global] Instance Instruction_eq_dec : EqDecision Instruction.
Proof. solve_decision. Defined.

(** Modelled from the spec: a [Binding] assigns one variable the result of
    one instruction. *)
Record Binding := mkBinding { bind : LocalVariable; value : Instruction }.

#[global] Instance Binding_eq_dec : EqDecision Binding.
Proof. solve_decision. Defined.

(** A [BasicBlock*]: the id of the block pointed to. *)
Definition BlockRef := nat.

(** Modelled from the spec: [BlockExit], the two-way terminator of a block;
    the exit is unconditional when [thenb] and [elseb] coincide. *)
Record BlockExit := mkExit {
  cond : LocalVariable; thenb : BlockRef; elseb : BlockRef }.

#[global] Instance BlockExit_eq_dec : EqDecision BlockExit.
Proof. solve_decision. Defined.

(** Modelled from the spec: [BasicBlock], with the fields the passes read
    and write.  [outerLoops] and [flags] are C++ [int]s. *)
Record BasicBlock := mkBlock {
  id : nat;
  exprs : list Binding;
  bexit : BlockExit;
  backEdges : list BlockRef;
  outerLoops : Z;
  args : list LocalVariable;
  flags : Z }.

#[global] Instance BasicBlock_eq_dec : EqDecision BasicBlock.
Proof. solve_decision. Defined.

(** Modelled from the spec: [CFG::ReadsAndWrites], for each variable the
    blocks that read it and the blocks that write it. *)
Record ReadsAndWrites := mkRnW {
  reads : gmap LocalVariable (gset BlockRef);
  writes : gmap LocalVariable (gset BlockRef) }.

(** Modelled from the spec: [CFG].  [basicBlocks] owns the blocks, in the
    order of the vector; every other reference to a block is a [BlockRef]. *)
Record CFG := mkCFG {
  basicBlocks : list BasicBlock;
  entry : BlockRef;
  deadBlock : BlockRef;
  forwardsTopoSort : list BlockRef;
  backwardsTopoSort : list BlockRef;
  minLoops : gmap LocalVariable Z;
  maxLoopWrite : gmap LocalVariable Z }.

(** Modelled from the spec: the flag bits of [CFG].  The header that fixes
    their values is not among the sources; any three distinct bits serve. *)
Definition FORWARD_TOPO_SORT_VISITED : Z := 1.
Definition BACKWARD_TOPO_SORT_VISITED : Z := 2.
Definition LOOP_HEADER : Z := 4.

Definition INT_MAX : Z := 2147483647.

(** Field assignments. *)
Definition set_exprs (e : list Binding) (b : BasicBlock) : BasicBlock :=
  mkBlock (id b) e (bexit b) (backEdges b) (outerLoops b) (args b) (flags b).
Definition set_bexit (x : BlockExit) (b : BasicBlock) : BasicBlock :=
  mkBlock (id b) (exprs b) x (backEdges b) (outerLoops b) (args b) (flags b).
Definition set_backEdges (l : list BlockRef) (b : BasicBlock) : BasicBlock :=
  mkBlock (id b) (exprs b) (bexit b) l (outerLoops b) (args b) (flags b).
Definition set_args (a : list LocalVariable) (b : BasicBlock) : BasicBlock :=
  mkBlock (id b) (exprs b) (bexit b) (backEdges b) (outerLoops b) a (flags b).
Definition set_flags (f : Z) (b : BasicBlock) : BasicBlock :=
  mkBlock (id b) (exprs b) (bexit b) (backEdges b) (outerLoops b) (args b) f.
Definition set_thenb (t : BlockRef) (x : BlockExit) : BlockExit :=
  mkExit (cond x) t (elseb x).
Definition set_elseb (e : BlockRef) (x : BlockExit) : BlockExit :=
  mkExit (cond x) (thenb x) e.
Definition set_cond (c : LocalVariable) (x : BlockExit) : BlockExit :=
  mkExit c (thenb x) (elseb x).
Definition set_basicBlocks (bs : list BasicBlock) (cfg : CFG) : CFG :=
  mkCFG bs (entry cfg) (deadBlock cfg) (forwardsTopoSort cfg)
        (backwardsTopoSort cfg) (minLoops cfg) (maxLoopWrite cfg).

(** ** The block store *)

(** [*p]: the live block that [p] points to. *)
Definition deref (bs : list BasicBlock) (p : BlockRef) : option BasicBlock :=
  List.find (λ b, id b =? p) bs.

(** The effect of an assignment through [p] on the store: the block that
    [deref] finds is replaced. *)
Fixpoint update (p : BlockRef) (f : BasicBlock → BasicBlock)
    (bs : list BasicBlock) : list BasicBlock :=
  match bs with
  | [] => []
  | b :: rest => if id b =? p then f b :: rest else b :: update p f rest
  end.

(** An assignment through [p]; undefined when [p] dangles. *)
Definition modify (p : BlockRef) (f : BasicBlock → BasicBlock)
    (bs : list BasicBlock) : option (list BasicBlock) :=
  _ ← deref bs p; Some (update p f bs).

(** [p->id] *)
Definition id_of (bs : list BasicBlock) (p : BlockRef) : option nat :=
  b ← deref bs p; Some (id b).

(** [v.erase(std::remove(v.begin(), v.end(), bb), v.end())] *)
Definition remove (bb : BlockRef) (v : list BlockRef) : list BlockRef :=
  List.filter (λ x, negb (x =? bb)) v.

Definition push_back {A} (x : A) (v : list A) : list A := v ++ [x].

(** [std::unique]: drops every element equal to its predecessor. *)
Fixpoint unique_ (v : list BlockRef) : list BlockRef :=
  match v with
  | x :: t =>
      match t with
      | y :: _ => if x =? y then unique_ t else x :: unique_ t
      | [] => v
      end
  | [] => []
  end.

(** [sort] of block pointers by [id]; pointers with equal ids are equal
    here, so the order the unstable [std::sort] leaves is determined. *)
Definition sort_by_id (v : list BlockRef) : list BlockRef :=
  merge_sort Nat.le v.

(** ** [CFGBuilder::simplify] *)

Inductive Rule := R1 | R2 | R3a | R3b | R4 | R5.

#[global] Instance Rule_eq_dec : EqDecision Rule.
Proof. solve_decision. Defined.

(** The outcome of code that may loop: a result, undefined behaviour, or
    fuel exhausted. *)
Inductive Res (A : Type) := Ret (a : A) | Undefined | Timeout.
Arguments Ret {A} a.
Arguments Undefined {A}.
Arguments Timeout {A}.

(** [bb->bexit = x; bb->bexit.thenb->backEdges.push_back(bb);
     if (bb->bexit.thenb != bb->bexit.elseb)
         bb->bexit.elseb->backEdges.push_back(bb);]
    (the three statements common to both branches of the squash). *)
Definition reparent (bb : BlockRef) (bs : list BasicBlock)
    : option (list BasicBlock) :=
  b ← deref bs bb;
  bs1 ← modify (thenb (bexit b)) (λ t, set_backEdges (push_back bb (backEdges t)) t) bs;
  if thenb (bexit b) =? elseb (bexit b) then Some bs1
  else modify (elseb (bexit b)) (λ e, set_backEdges (push_back bb (backEdges e)) e) bs1.

(** Lines 23-39: the prune of an unreachable block, at position [it]. *)
Definition prune (cfg : CFG) (it : nat) (bb thenb_ elseb_ : BlockRef)
    : option CFG :=
  bs1 ← modify thenb_ (λ t, set_backEdges (remove bb (backEdges t)) t) (basicBlocks cfg);
  bs2 ← (if elseb_ =? thenb_ then Some bs1
         else modify elseb_ (λ e, set_backEdges (remove bb (backEdges e)) e) bs1);
  Some (mkCFG (delete it bs2) (entry cfg) (deadBlock cfg)
              (remove bb (forwardsTopoSort cfg))
              (remove bb (backwardsTopoSort cfg))
              (minLoops cfg) (maxLoopWrite cfg)).

(** Lines 47-58: squash [bb] with its only successor, which has no other
    predecessor.  The bindings are moved: they stay in [thenb->exprs], each
    with a null instruction. *)
Definition squash_single (bb thenb_ : BlockRef) (bs : list BasicBlock)
    : option (list BasicBlock) :=
  t ← deref bs thenb_;
  bs1 ← modify bb (λ b, set_exprs (exprs b ++ exprs t) b) bs;
  bs2 ← modify thenb_ (λ s, set_exprs (map (λ e, mkBinding (bind e) Moved) (exprs s)) s) bs1;
  bs3 ← modify thenb_ (set_backEdges []) bs2;
  t3 ← deref bs3 thenb_;
  bs4 ← modify bb (set_bexit (bexit t3)) bs3;
  reparent bb bs4.

(** Lines 59-70: jump over an empty successor that is no block header. *)
Definition squash_empty (bb thenb_ : BlockRef) (bs : list BasicBlock)
    : option (list BasicBlock) :=
  t ← deref bs thenb_;
  bs1 ← modify bb (set_bexit (bexit t)) bs;
  bs2 ← modify thenb_ (λ s, set_backEdges (remove bb (backEdges s)) s) bs1;
  reparent bb bs2.

(** Lines 73-74 and 84-85: the tests of the two shortcuts.  [&&] evaluates
    left to right and stops at the first false operand. *)
Definition can_shortcut_then (cfg : CFG) (bb thenb_ : BlockRef) : option bool :=
  if thenb_ =? deadBlock cfg then Some false
  else
    t ← deref (basicBlocks cfg) thenb_;
    if negb (bool_decide (exprs t = [])) then Some false
    else if negb (thenb (bexit t) =? elseb (bexit t)) then Some false
    else
      b ← deref (basicBlocks cfg) bb;
      Some (negb (thenb (bexit b) =? thenb (bexit t))).

Definition can_shortcut_else (cfg : CFG) (bb elseb_ : BlockRef) : option bool :=
  if elseb_ =? deadBlock cfg then Some false
  else
    e ← deref (basicBlocks cfg) elseb_;
    if negb (bool_decide (exprs e = [])) then Some false
    else if negb (thenb (bexit e) =? elseb (bexit e)) then Some false
    else
      b ← deref (basicBlocks cfg) bb;
      Some (negb (elseb (bexit b) =? elseb (bexit e))).

(** Lines 76-79. *)
Definition shortcut_then (bb thenb_ : BlockRef) (bs : list BasicBlock)
    : option (list BasicBlock) :=
  t ← deref bs thenb_;
  bs1 ← modify bb (λ b, set_bexit (set_thenb (thenb (bexit t)) (bexit b)) b) bs;
  t1 ← deref bs1 thenb_;
  bs2 ← modify (thenb (bexit t1)) (λ x, set_backEdges (push_back bb (backEdges x)) x) bs1;
  modify thenb_ (λ s, set_backEdges (remove bb (backEdges s)) s) bs2.

(** Lines 88-91. *)
Definition shortcut_else (bb elseb_ : BlockRef) (bs : list BasicBlock)
    : option (list BasicBlock) :=
  e ← deref bs elseb_;
  bs1 ← modify bb (λ b, set_bexit (set_elseb (elseb (bexit e)) (bexit b)) b) bs;
  b1 ← deref bs1 bb;
  bs2 ← modify (elseb (bexit b1)) (λ x, set_backEdges (push_back bb (backEdges x)) x) bs1;
  modify elseb_ (λ s, set_backEdges (remove bb (backEdges s)) s) bs2.

(** What one run of the body of the [for] loop leaves: the graph, the
    iterator, whether [changed] was set, and the rules applied to [bb]. *)
Definition Iteration : Type := CFG * nat * bool * list (Rule * BlockRef).

(** Lines 46-96: the body from the squash test on.  [pre] holds the rules
    already applied in this run of the body. *)
Definition simplify_tail (ctx : Context) (cfg : CFG) (it : nat)
    (bb thenb_ elseb_ : BlockRef) (pre : list (Rule * BlockRef))
    : option Iteration :=
  let shortcuts :=
    c4 ← can_shortcut_then cfg bb thenb_;
    if c4 : bool then
      bs ← shortcut_then bb thenb_ (basicBlocks cfg);
      Some (set_basicBlocks bs cfg, it, true, pre ++ [(R4, bb)])
    else
      c5 ← can_shortcut_else cfg bb elseb_;
      if c5 : bool then
        bs ← shortcut_else bb elseb_ (basicBlocks cfg);
        Some (set_basicBlocks bs cfg, it, true, pre ++ [(R5, bb)])
      else Some (cfg, S it, false, pre) in
  if (thenb_ =? elseb_) && negb (thenb_ =? deadBlock cfg) && negb (thenb_ =? bb)
  then
    t ← deref (basicBlocks cfg) thenb_;
    if length (backEdges t) =? 1 then
      bs ← squash_single bb thenb_ (basicBlocks cfg);
      Some (set_basicBlocks bs cfg, it, true, pre ++ [(R3a, bb)])
    else if negb (name (cond (bexit t)) =? blockCall ctx)
            && bool_decide (exprs t = []) then
      bs ← squash_empty bb thenb_ (basicBlocks cfg);
      Some (set_basicBlocks bs cfg, it, true, pre ++ [(R3b, bb)])
    else shortcuts
  else shortcuts.

(** Lines 19-96: one run of the body of the [for] loop with the iterator at
    position [it]. *)
Definition simplify_iteration (ctx : Context) (cfg : CFG) (it : nat)
    : option Iteration :=
  b ← basicBlocks cfg !! it;
  let bb := id b in
  let thenb_ := thenb (bexit b) in
  let elseb_ := elseb (bexit b) in
  if negb (bb =? deadBlock cfg) && negb (bb =? entry cfg) then
    if bool_decide (backEdges b = []) then
      cfg' ← prune cfg it bb thenb_ elseb_;
      Some (cfg', it, true, [(R1, bb)])
    else
      bs ← modify bb (λ x, set_backEdges (unique_ (sort_by_id (backEdges x))) x)
             (basicBlocks cfg);
      simplify_tail ctx (set_basicBlocks bs cfg) it bb thenb_ elseb_ [(R2, bb)]
  else simplify_tail ctx cfg it bb thenb_ elseb_ [].

(** Lines 15-98: the [for] loop from position [it] on, inside the [while]
    loop.  The result carries the rules applied, in order. *)
Fixpoint simplify_loop (fuel : nat) (ctx : Context) (cfg : CFG) (it : nat)
    (changed : bool) (trace : list (Rule * BlockRef))
    : Res (CFG * list (Rule * BlockRef)) :=
  match fuel with
  | O => Timeout
  | S fuel' =>
      if it <? length (basicBlocks cfg) then
        match simplify_iteration ctx cfg it with
        | None => Undefined
        | Some (cfg', it', ch, evs) =>
            simplify_loop fuel' ctx cfg' it' (changed || ch) (trace ++ evs)
        end
      else if changed then simplify_loop fuel' ctx cfg 0 false trace
      else Ret (cfg, trace)
  end.

Definition simplify (fuel : nat) (ctx : Context) (cfg : CFG)
    : Res (CFG * list (Rule * BlockRef)) :=
  simplify_loop fuel ctx cfg 0 false [].

(** ** [CFGBuilder::sanityCheck] *)

(** [true] when every [ENFORCE] of the check holds. *)
Definition sanityCheck (cfg : CFG) : bool :=
  forallb (λ bb,
    forallb (λ parent,
      match deref (basicBlocks cfg) parent with
      | Some p => (thenb (bexit p) =? id bb) || (elseb (bexit p) =? id bb)
      | None => false
      end) (backEdges bb)
    && ((id bb =? deadBlock cfg)
        || match deref (basicBlocks cfg) (thenb (bexit bb)),
                 deref (basicBlocks cfg) (elseb (bexit bb)) with
           | Some t, Some e =>
               existsb (λ x, x =? id bb) (backEdges t)
               && existsb (λ x, x =? id bb) (backEdges e)
           | _, _ => false
           end))
    (basicBlocks cfg).

(** ** [maybeDealias] and [CFGBuilder::dealias] *)

Abbreviation Aliases := (gmap LocalVariable LocalVariable).

Definition maybeDealias (ctx : Context) (what : LocalVariable)
    (aliases : Aliases) : LocalVariable :=
  if isSyntheticTemporary what ctx then
    match aliases !! what with
    | Some v => v
    | None => what
    end
  else what.

(** A loop body that may be undefined, run over a sequence. *)
Fixpoint foldM {A B} (f : A → B → option A) (a : A) (l : list B) : option A :=
  match l with
  | [] => Some a
  | x :: t => a' ← f a x; foldM f a' t
  end.

(** Lines 153-165: drop from [current] what [other] does not confirm. *)
Definition meet (current other : Aliases) : Aliases :=
  filter (λ kv, other !! kv.1 = Some kv.2) current.

(** Lines 173-179: drop the aliases of the variable being bound. *)
Definition invalidate (b : LocalVariable) (current : Aliases) : Aliases :=
  filter (λ kv, kv.2 ≠ b) current.

(** Lines 146-166: [current] is a reference to [outAliases[bb->id]], so every
    change of it is a change of the vector. *)
Definition dealias_seed (bs : list BasicBlock) (outAliases : list Aliases)
    (bb : nat) (parents : list BlockRef) : option (list Aliases) :=
  _ ← outAliases !! bb;
  oa1 ← match parents with
        | [] => Some outAliases
        | p :: _ =>
            i ← id_of bs p; a ← outAliases !! i; Some (<[bb := a]> outAliases)
        end;
  foldM (λ oa parent,
           i ← id_of bs parent;
           other ← oa !! i;
           current ← oa !! bb;
           Some (<[bb := meet current other]> oa)) oa1 parents.

(** Lines 169-195: one binding. *)
Definition dealias_binding (ctx : Context) (current : Aliases) (bnd : Binding)
    : Binding * Aliases :=
  let v1 := match value bnd with
            | Ident w => Ident (maybeDealias ctx w current)
            | i => i
            end in
  let cur1 := invalidate (bind bnd) current in
  let v2 := match v1 with
            | Ident w => Ident (maybeDealias ctx w cur1)
            | Send r f a =>
                Send (maybeDealias ctx r cur1) f
                     (map (λ arg, maybeDealias ctx arg cur1) a)
            | Return w => Return (maybeDealias ctx w cur1)
            | i => i
            end in
  let cur2 := match v2 with
              | Ident w => <[bind bnd := w]> cur1
              | _ => cur1
              end in
  (mkBinding (bind bnd) v2, cur2).

(** Lines 168-196. *)
Fixpoint dealias_exprs (ctx : Context) (current : Aliases) (es : list Binding)
    : list Binding * Aliases :=
  match es with
  | [] => ([], current)
  | e :: t =>
      let '(e', c1) := dealias_binding ctx current e in
      let '(t', c2) := dealias_exprs ctx c1 t in
      (e' :: t', c2)
  end.

(** Lines 197-199. *)
Definition dealias_cond (ctx : Context) (current : Aliases) (x : BlockExit)
    : BlockExit :=
  if exists_ (cond x) then set_cond (maybeDealias ctx (cond x) current) x
  else x.

(** Lines 143-199: the body of the loop over [backwardsTopoSort]. *)
Definition dealias_block (ctx : Context) (dead : BlockRef)
    (st : list BasicBlock * list Aliases) (bb : BlockRef)
    : option (list BasicBlock * list Aliases) :=
  if bb =? dead then Some st
  else
    b ← deref st.1 bb;
    oa ← dealias_seed st.1 st.2 (id b) (backEdges b);
    current ← oa !! id b;
    let '(es, cur') := dealias_exprs ctx current (exprs b) in
    Some (update bb (λ x, set_bexit (dealias_cond ctx cur' (bexit x))
                            (set_exprs es x)) st.1,
          <[id b := cur']> oa).

(** The pass together with the [outAliases] it leaves. *)
Definition dealias_run (ctx : Context) (cfg : CFG)
    : option (list BasicBlock * list Aliases) :=
  foldM (dealias_block ctx (deadBlock cfg))
        (basicBlocks cfg, replicate (length (basicBlocks cfg)) ∅)
        (backwardsTopoSort cfg).

Definition dealias (ctx : Context) (cfg : CFG) : option CFG :=
  st ← dealias_run ctx cfg; Some (set_basicBlocks st.1 cfg).

(** ** [CFGBuilder::markLoopHeaders] *)

Definition markLoopHeaders (cfg : CFG) : option CFG :=
  bs ← mapM (λ bb,
         foldM (λ b parent,
                  p ← deref (basicBlocks cfg) parent;
                  Some (if bool_decide (outerLoops p < outerLoops b)%Z
                        then set_flags (Z.lor (flags b) LOOP_HEADER) b
                        else b)) bb (backEdges bb))
       (basicBlocks cfg);
  Some (set_basicBlocks bs cfg).

(** ** [CFGBuilder::removeDeadAssigns] *)

(** Lines 227-231: the instructions that may go when their result is not
    read. *)
Definition is_pure (i : Instruction) : bool :=
  match i with
  | Ident _ | ArraySplat _ | HashSplat _ | BoolLit _ | StringLit _
  | SymbolLit _ | IntLit _ | FloatLit _ | Self _ | LoadArg _ => true
  | Send _ _ _ | Return _ | Moved => false
  end.

(** Lines 217-238: [true] when the iterator steps over the binding. *)
Definition survives (ctx : Context) (RnW : ReadsAndWrites) (bnd : Binding)
    : bool :=
  if isAliasForGlobal (bind bnd) ctx then true
  else
    match reads RnW !! bind bnd with
    | None => negb (is_pure (value bnd))
    | Some _ => true
    end.

Definition removeDeadAssigns (ctx : Context) (RnW : ReadsAndWrites)
    (cfg : CFG) : CFG :=
  set_basicBlocks
    (map (λ b, set_exprs (List.filter (survives ctx RnW) (exprs b)) b)
         (basicBlocks cfg))
    cfg.

(** ** [CFGBuilder::computeMinMaxLoops] *)

(** Lines 249-253 and 263-266. *)
Definition lower_to (bs : list BasicBlock) (min : Z) (bb : BlockRef)
    : option Z :=
  b ← deref bs bb;
  Some (if bool_decide (min > outerLoops b)%Z then outerLoops b else min).

(** Lines 267-269. *)
Definition raise_to (bs : list BasicBlock) (max : Z) (bb : BlockRef)
    : option Z :=
  b ← deref bs bb;
  Some (if bool_decide (max < outerLoops b)%Z then outerLoops b else max).

(** Lines 244-254.  [insert] keeps an entry that is already there; [min]
    refers to the entry, so the loop leaves its last value in the map. *)
Definition minmax_read (bs : list BasicBlock) (mins : gmap LocalVariable Z)
    (pair : LocalVariable * gset BlockRef) : option (gmap LocalVariable Z) :=
  let what := pair.1 in
  let min0 := default INT_MAX (mins !! what) in
  min ← foldM (lower_to bs) min0 (elements pair.2);
  Some (<[what := min]> mins).

(** Lines 256-271. *)
Definition minmax_write (bs : list BasicBlock)
    (st : gmap LocalVariable Z * gmap LocalVariable Z)
    (pair : LocalVariable * gset BlockRef)
    : option (gmap LocalVariable Z * gmap LocalVariable Z) :=
  let what := pair.1 in
  let min0 := default INT_MAX (st.1 !! what) in
  let max0 := default 0%Z (st.2 !! what) in
  min ← foldM (lower_to bs) min0 (elements pair.2);
  max ← foldM (raise_to bs) max0 (elements pair.2);
  Some (<[what := min]> st.1, <[what := max]> st.2).

Definition computeMinMaxLoops (RnW : ReadsAndWrites) (cfg : CFG) : option CFG :=
  mins ← foldM (minmax_read (basicBlocks cfg)) (minLoops cfg)
               (map_to_list (reads RnW));
  st ← foldM (minmax_write (basicBlocks cfg)) (mins, maxLoopWrite cfg)
             (map_to_list (writes RnW));
  Some (mkCFG (basicBlocks cfg) (entry cfg) (deadBlock cfg)
              (forwardsTopoSort cfg) (backwardsTopoSort cfg) st.1 st.2).

(** ** [CFGBuilder::fillInBlockArguments] *)

Abbreviation VarSet := (gset LocalVariable).

(** [vec[i].insert(s.begin(), s.end())]; undefined outside the vector. *)
Definition insert_all (i : nat) (s : VarSet) (vec : list VarSet)
    : option (list VarSet) :=
  old ← vec !! i; Some (<[i := old ∪ s]> vec).

(** Lines 290-299: the body of the loop over [RnW.reads].  [RnW.writes[x]]
    creates an empty entry when there is none. *)
Definition preprocess_read (RnW : ReadsAndWrites)
    (pair : LocalVariable * gset BlockRef) : ReadsAndWrites :=
  let what := pair.1 in
  let rds := default ∅ (reads RnW !! what) in
  let wts := default ∅ (writes RnW !! what) in
  let same_block :=
    match elements rds, elements wts with
    | [r], [w] => r =? w
    | _, _ => false
    end in
  if same_block then
    mkRnW (<[what := ∅]> (reads RnW)) (<[what := ∅]> (writes RnW))
  else if bool_decide (wts = ∅) then
    mkRnW (<[what := ∅]> (reads RnW)) (<[what := wts]> (writes RnW))
  else mkRnW (reads RnW) (<[what := wts]> (writes RnW)).

(** Lines 301-313: the body of the loop over [RnW.writes]. *)
Definition preprocess_write (bs : list BasicBlock)
    (st : ReadsAndWrites * list VarSet * list VarSet)
    (pair : LocalVariable * gset BlockRef)
    : option (ReadsAndWrites * list VarSet * list VarSet) :=
  let '(RnW, reads_by_block, writes_by_block) := st in
  let what := pair.1 in
  let rds := default ∅ (reads RnW !! what) in
  let wts := default ∅ (writes RnW !! what) in
  let wts' := if bool_decide (rds = ∅) then ∅ else wts in
  rbb ← foldM (λ v bb, i ← id_of bs bb; insert_all i {[what]} v)
              reads_by_block (elements rds);
  wbb ← foldM (λ v bb, i ← id_of bs bb; insert_all i {[what]} v)
              writes_by_block (elements wts');
  Some (mkRnW (<[what := rds]> (reads RnW)) (<[what := wts']> (writes RnW)),
        rbb, wbb).

(** Lines 287-313. *)
Definition preprocess (bs : list BasicBlock) (RnW : ReadsAndWrites)
    : option (ReadsAndWrites * list VarSet * list VarSet) :=
  let RnW1 := foldl preprocess_read RnW (map_to_list (reads RnW)) in
  foldM (preprocess_write bs)
        (RnW1, replicate (length bs) ∅, replicate (length bs) ∅)
        (map_to_list (writes RnW1)).

(** Lines 322-332: the body of the first fixpoint loop. *)
Definition upper_bounds1_step (cfg : CFG) (reads_by_block : list VarSet)
    (st : list VarSet * bool) (bb : BlockRef) : option (list VarSet * bool) :=
  b ← deref (basicBlocks cfg) bb;
  old ← st.1 !! id b;
  let sz := size old in
  r ← reads_by_block !! id b;
  ub1 ← insert_all (id b) r st.1;
  ub2 ← (if thenb (bexit b) =? deadBlock cfg then Some ub1
         else i ← id_of (basicBlocks cfg) (thenb (bexit b));
              t ← ub1 !! i; insert_all (id b) t ub1);
  ub3 ← (if elseb (bexit b) =? deadBlock cfg then Some ub2
         else i ← id_of (basicBlocks cfg) (elseb (bexit b));
              e ← ub2 !! i; insert_all (id b) e ub2);
  new ← ub3 !! id b;
  Some (ub3, st.2 || negb (size new =? sz)).

(** Lines 343-350: the body of the second fixpoint loop. *)
Definition upper_bounds2_step (cfg : CFG) (writes_by_block : list VarSet)
    (st : list VarSet * bool) (bb : BlockRef) : option (list VarSet * bool) :=
  b ← deref (basicBlocks cfg) bb;
  old ← st.1 !! id b;
  let sz := size old in
  w ← writes_by_block !! id b;
  ub1 ← insert_all (id b) w st.1;
  ub2 ← foldM (λ ub edge,
                 if edge =? deadBlock cfg then Some ub
                 else i ← id_of (basicBlocks cfg) edge;
                      e ← ub !! i; insert_all (id b) e ub) ub1 (backEdges b);
  new ← ub2 !! id b;
  Some (ub2, st.2 || negb (size new =? sz)).

(** [while (changed) { changed = false; for (...) step }] *)
Fixpoint fixpoint_loop (fuel : nat)
    (step : list VarSet * bool → BlockRef → option (list VarSet * bool))
    (order : list BlockRef) (ub : list VarSet) : option (list VarSet) :=
  match fuel with
  | O => None
  | S fuel' =>
      st ← foldM step (ub, false) order;
      if st.2 : bool then fixpoint_loop fuel' step order st.1 else Some st.1
  end.

(** The comparison of the final [sort]: [a.name._id < b.name._id].  A
    sequence sorted with it has no element smaller than an earlier one. *)
Definition name_le (a b : LocalVariable) : Prop := name a ≤ name b.

#[global] Instance name_le_dec : RelDecision name_le.
Proof. intros a b. unfold name_le. apply _. Defined.

(** Lines 355-369: the body of the last loop. *)
Definition combine (upper_bounds1 upper_bounds2 : list VarSet)
    (it : BasicBlock) : option BasicBlock :=
  set2 ← upper_bounds2 !! id it;
  set1 ← upper_bounds1 !! id it;
  Some (set_args
          (merge_sort name_le
             (args it ++ List.filter (λ el, bool_decide (el ∈ (set2 : VarSet)))
                                     (elements (set1 : VarSet))))
          it).

Definition fillInBlockArguments (fuel : nat) (RnW : ReadsAndWrites)
    (cfg : CFG) : option (ReadsAndWrites * CFG) :=
  let size := length (basicBlocks cfg) in
  '(RnW', reads_by_block, writes_by_block) ← preprocess (basicBlocks cfg) RnW;
  upper_bounds1 ← fixpoint_loop fuel (upper_bounds1_step cfg reads_by_block)
                    (forwardsTopoSort cfg) (replicate size ∅);
  upper_bounds2 ← fixpoint_loop fuel (upper_bounds2_step cfg writes_by_block)
                    (backwardsTopoSort cfg) (replicate size ∅);
  bs ← mapM (combine upper_bounds1 upper_bounds2) (basicBlocks cfg);
  Some (RnW', set_basicBlocks bs cfg).

(** ** [CFGBuilder::topoSortFwd] and [CFGBuilder::topoSortBwd] *)

(** The blocks with their flags, the [target] vector and [nextFree]. *)
Definition TopoState : Type := list BasicBlock * list BlockRef * nat.

(** [target[nextFree] = currentBB; nextFree = nextFree + 1;] *)
Definition emit (currentBB : BlockRef) (st : TopoState) : option TopoState :=
  let '(bs, target, nextFree) := st in
  if nextFree <? length target
  then Some (bs, <[nextFree := currentBB]> target, S nextFree)
  else None.

Definition visited (mask : Z) (b : BasicBlock) : bool :=
  negb (Z.land (flags b) mask =? 0)%Z.

Definition mark (mask : Z) (currentBB : BlockRef) (st : TopoState) : TopoState :=
  let '(bs, target, nextFree) := st in
  (update currentBB (λ b, set_flags (Z.lor (flags b) mask) b) bs,
   target, nextFree).

Fixpoint topoSortFwd (fuel : nat) (st : TopoState) (currentBB : BlockRef)
    : option TopoState :=
  match fuel with
  | O => None
  | S fuel' =>
      b ← deref st.1.1 currentBB;
      if visited FORWARD_TOPO_SORT_VISITED b then Some st
      else
        st1 ← topoSortFwd fuel' (mark FORWARD_TOPO_SORT_VISITED currentBB st)
                          (thenb (bexit b));
        st2 ← topoSortFwd fuel' st1 (elseb (bexit b));
        emit currentBB st2
  end.

(** Lines 402-405: the first [while] of [topoSortBwd], over the predecessors
    not yet passed; returns those it leaves for the later loop. *)
Fixpoint visit_outer (visit : TopoState → BlockRef → option TopoState)
    (depth : Z) (edges : list BlockRef) (st : TopoState)
    : option (TopoState * list BlockRef) :=
  match edges with
  | [] => Some (st, [])
  | p :: rest =>
      pb ← deref st.1.1 p;
      if bool_decide (depth > outerLoops pb)%Z
      then st' ← visit st p; visit_outer visit depth rest st'
      else Some (st, edges)
  end.

Fixpoint topoSortBwd (fuel : nat) (st : TopoState) (currentBB : BlockRef)
    : option TopoState :=
  match fuel with
  | O => None
  | S fuel' =>
      b ← deref st.1.1 currentBB;
      if visited BACKWARD_TOPO_SORT_VISITED b then Some st
      else
        '(st1, rest) ← visit_outer (topoSortBwd fuel') (outerLoops b)
                         (backEdges b)
                         (mark BACKWARD_TOPO_SORT_VISITED currentBB st);
        if length rest <? length (backEdges b) then
          st2 ← emit currentBB st1;
          foldM (topoSortBwd fuel') st2 rest
        else
          st2 ← foldM (topoSortBwd fuel') st1 rest;
          emit currentBB st2
  end.

(** ** Sample graphs *)

(** A context in which the names from 100 on are synthetic temporaries and
    [blockCall] is name 7. *)
Definition sample_ctx : Context :=
  mkContext (λ x, 100 <=? name x) (λ _, false) 7.

Definition var (n : NameRef) : LocalVariable := mkLocal n 0.

(** A block at loop depth 0 with no arguments and no flags. *)
Definition block (i : nat) (es : list Binding) (c : LocalVariable)
    (t e : BlockRef) (preds : list BlockRef) : BasicBlock :=
  mkBlock i es (mkExit c t e) preds 0%Z [] 0%Z.

(** [entry] jumps into block 2, which is empty and jumps to itself. *)
Definition spin_cfg : CFG :=
  mkCFG [ block 0 [] (var 0) 2 2 [];
          block 1 [] (var 0) 1 1 [];
          block 2 [] (var 0) 2 2 [2; 0] ]
        0 1 [] [] ∅ ∅.

(** A diamond whose join, block 4, is an empty block header (its exit
    condition is [blockCall]) that jumps on to block 5. *)
Definition header_cfg : CFG :=
  mkCFG [ block 0 [mkBinding (var 9) (BoolLit true)] (var 9) 2 3 [];
          block 1 [] (var 0) 1 1 [5];
          block 2 [mkBinding (var 5) (IntLit 1)] (var 0) 4 4 [0];
          block 3 [mkBinding (var 6) (IntLit 2)] (var 0) 4 4 [0];
          block 4 [] (var 7) 5 5 [2; 3];
          block 5 [mkBinding (var 8) (Return (var 5))] (var 0) 1 1 [4] ]
        0 1 [] [] ∅ ∅.

(** [entry] falls through to block 2, its only successor. *)
Definition straight_cfg : CFG :=
  mkCFG [ block 0 [] (var 0) 2 2 [];
          block 1 [] (var 0) 1 1 [2];
          block 2 [mkBinding (var 5) (IntLit 1)] (var 0) 1 1 [0] ]
        0 1 [] [] ∅ ∅.

(** Five blocks with ids 0 to 4; block 2 has no predecessor. *)
Definition orphan_cfg : CFG :=
  mkCFG [ block 0 [mkBinding (var 9) (BoolLit true)] (var 9) 3 4 [];
          block 1 [] (var 0) 1 1 [3; 4];
          block 2 [] (var 0) 3 3 [];
          block 3 [mkBinding (var 5) (IntLit 1)] (var 0) 1 1 [0; 2];
          block 4 [mkBinding (var 6) (IntLit 2)] (var 0) 1 1 [0] ]
        0 1 [3; 4; 2; 0; 1] [0; 2; 3; 4; 1] ∅ ∅.

(** [orphan_cfg] once [simplify] has pruned block 2: four blocks, ids 0, 1,
    3 and 4. *)
Definition pruned_cfg : CFG :=
  mkCFG [ block 0 [mkBinding (var 9) (BoolLit true)] (var 9) 3 4 [];
          block 1 [] (var 0) 1 1 [3; 4];
          block 3 [mkBinding (var 5) (IntLit 1)] (var 0) 1 1 [0];
          block 4 [mkBinding (var 6) (IntLit 2)] (var 0) 1 1 [0] ]
        0 1 [3; 4; 0; 1] [0; 3; 4; 1] ∅ ∅.

Definition orphan_RnW : ReadsAndWrites :=
  mkRnW {[ var 9 := {[ 0 ]} ]}
        {[ var 9 := {[ 0 ]}; var 5 := {[ 3 ]}; var 6 := {[ 4 ]} ]}.

(** ** Predicates used in the statements *)

(** [b], if it is the block [d], has both exits leading back to itself. *)
Definition sink (d : BlockRef) (b : BasicBlock) : Prop :=
  id b = d → thenb (bexit b) = d ∧ elseb (bexit b) = d.

(** [deadBlock] is a sink. *)
Definition dead_is_sink (cfg : CFG) : Prop :=
  Forall (sink (deadBlock cfg)) (basicBlocks cfg).

(** The loop depths of the live blocks among [where_]. *)
Definition depths (bs : list BasicBlock) (where_ : gset BlockRef) : list Z :=
  omap (λ bb, outerLoops <$> deref bs bb) (elements where_).

(** The least of [top] and the members of [l]. *)
Definition minimum (l : list Z) (top : Z) : Z := foldr Z.min top l.

(** Block 2 is a loop body at depth 2 that reads the variable [var 5], which
    block 0 writes at depth 0. *)
Definition depth_cfg : CFG :=
  mkCFG [ block 0 [mkBinding (var 5) (IntLit 1)] (var 0) 2 2 [];
          block 1 [] (var 0) 1 1 [2];
          mkBlock 2 [mkBinding (var 6) (Ident (var 5))]
                  (mkExit (var 6) 2 1) [0; 2] 2%Z [] 0%Z ]
        0 1 [] [] ∅ ∅.

Definition depth_RnW : ReadsAndWrites :=
  mkRnW {[ var 5 := {[ 2 ]}; var 6 := {[ 2 ]} ]}
        {[ var 5 := {[ 0 ]}; var 6 := {[ 2 ]} ]}.

(** [v'] is what a chain of [maybeDealias] lookups makes of [v]. *)
Inductive dealiased (ctx : Context) : LocalVariable → LocalVariable → Prop :=
| dealiased_refl v : dealiased ctx v v
| dealiased_lookup v v' m :
    dealiased ctx v v' → dealiased ctx v (maybeDealias ctx v' m).

(** [i'] is [i] up to lookups in the operands that [dealias] rewrites. *)
Definition instr_frame (ctx : Context) (i i' : Instruction) : Prop :=
  match i with
  | Ident w => ∃ w', i' = Ident w' ∧ dealiased ctx w w'
  | Send r f a =>
      ∃ r' a', i' = Send r' f a' ∧ dealiased ctx r r'
               ∧ Forall2 (dealiased ctx) a a'
  | Return w => ∃ w', i' = Return w' ∧ dealiased ctx w w'
  | _ => i' = i
  end.

Definition binding_frame (ctx : Context) (e e' : Binding) : Prop :=
  bind e' = bind e ∧ instr_frame ctx (value e) (value e').

Definition block_frame (ctx : Context) (b b' : BasicBlock) : Prop :=
  id b' = id b ∧ backEdges b' = backEdges b ∧ outerLoops b' = outerLoops b ∧
  args b' = args b ∧ flags b' = flags b ∧
  thenb (bexit b') = thenb (bexit b) ∧ elseb (bexit b') = elseb (bexit b) ∧
  dealiased ctx (cond (bexit b)) (cond (bexit b')) ∧
  Forall2 (binding_frame ctx) (exprs b) (exprs b').

Definition cfg_frame (ctx : Context) (cfg cfg' : CFG) : Prop :=
  Forall2 (block_frame ctx) (basicBlocks cfg) (basicBlocks cfg') ∧
  entry cfg' = entry cfg ∧ deadBlock cfg' = deadBlock cfg ∧
  forwardsTopoSort cfg' = forwardsTopoSort cfg ∧
  backwardsTopoSort cfg' = backwardsTopoSort cfg ∧
  minLoops cfg' = minLoops cfg ∧ maxLoopWrite cfg' = maxLoopWrite cfg.

(** Every variable that [m] maps to is left as it is by a lookup in [m]. *)
Definition resolved (ctx : Context) (m : Aliases) : Prop :=
  ∀ k v, m !! k = Some v → maybeDealias ctx v m = v.

(** A copy chain through three synthetic temporaries, ending in a call. *)
Definition chain_cfg : CFG :=
  mkCFG [ block 0 [ mkBinding (var 100) (Ident (var 5));
                    mkBinding (var 101) (Ident (var 100));
                    mkBinding (var 102) (Ident (var 101));
                    mkBinding (var 103) (Send (var 102) 9 [var 101; var 6]) ]
                  (var 103) 2 1 [];
          block 1 [] (var 0) 1 1 [0; 2];
          block 2 [ mkBinding (var 104) (Return (var 102)) ] (var 0) 1 1 [0] ]
        0 1 [2; 1; 0] [0; 2; 1] ∅ ∅.

(** The set in slot [i] of a scratch vector (empty outside the vector). *)
Definition slot (v : list VarSet) (i : nat) : VarSet := default ∅ (v !! i).

(** The number of elements a scratch vector holds. *)
Definition total (v : list VarSet) : nat := sum_list_with size v.

(** What the first fixpoint loop adds to the slot of [b]: the reads in [b]
    and the bounds of both successors, the dead block left out. *)
Definition reads_rhs (cfg : CFG) (reads_by_block v : list VarSet)
    (b : BasicBlock) : VarSet :=
  slot reads_by_block (id b)
  ∪ (if thenb (bexit b) =? deadBlock cfg then ∅ else slot v (thenb (bexit b)))
  ∪ (if elseb (bexit b) =? deadBlock cfg then ∅ else slot v (elseb (bexit b))).

(** What the second fixpoint loop adds to the slot of [b]: the writes in [b]
    and the bounds of all predecessors, the dead block left out. *)
Definition writes_rhs (cfg : CFG) (writes_by_block v : list VarSet)
    (b : BasicBlock) : VarSet :=
  slot writes_by_block (id b)
  ∪ ⋃ ((λ e, if e =? deadBlock cfg then ∅ else slot v e) <$> backEdges b).

(** [v] contains, for every block of [order], what [F] asks for. *)
Definition closed_under (bs : list BasicBlock) (order : list BlockRef)
    (F : list VarSet → BasicBlock → VarSet) (v : list VarSet) : Prop :=
  ∀ bb b, bb ∈ order → deref bs bb = Some b → F v b ⊆ slot v (id b).

(** [v] is the least solution of [slot v (id b) = F v b] over the blocks of
    [order]. *)
Definition least_fixpoint (bs : list BasicBlock) (order : list BlockRef)
    (F : list VarSet → BasicBlock → VarSet) (v : list VarSet) : Prop :=
  (∀ bb b, bb ∈ order → deref bs bb = Some b → slot v (id b) = F v b) ∧
  ∀ T, closed_under bs order F T → ∀ i, slot v i ⊆ slot T i.

(** Every block id is an index into a vector with one slot per block. *)
Definition dense_ids (bs : list BasicBlock) : Prop :=
  Forall (λ b, id b < length bs) bs.

(** No reference of the graph dangles. *)
Definition no_dangling (cfg : CFG) : Prop :=
  let live p := is_Some (deref (basicBlocks cfg) p) in
  Forall live (forwardsTopoSort cfg) ∧ Forall live (backwardsTopoSort cfg) ∧
  Forall (λ b, live (thenb (bexit b)) ∧ live (elseb (bexit b))
               ∧ Forall live (backEdges b)) (basicBlocks cfg).

Definition RnW_live (bs : list BasicBlock) (RnW : ReadsAndWrites) : Prop :=
  ∀ x s p, reads RnW !! x = Some s ∨ writes RnW !! x = Some s →
           p ∈ s → is_Some (deref bs p).

(** A diamond: [entry] writes [var 5] and [var 6] and branches to blocks 2
    and 3; block 2 writes [var 7]; block 4 joins and reads [var 5] and
    [var 7]. *)
Definition diamond_cfg : CFG :=
  mkCFG [ block 0 [ mkBinding (var 5) (IntLit 1);
                    mkBinding (var 6) (BoolLit true) ] (var 6) 2 3 [];
          block 1 [] (var 0) 1 1 [4];
          block 2 [ mkBinding (var 7) (IntLit 2) ] (var 0) 4 4 [0];
          block 3 [] (var 0) 4 4 [0];
          block 4 [ mkBinding (var 8) (Send (var 5) 9 [var 7]) ]
                  (var 0) 1 1 [2; 3] ]
        0 1 [1; 4; 2; 3; 0] [0; 2; 3; 4; 1] ∅ ∅.

Definition diamond_RnW : ReadsAndWrites :=
  mkRnW {[ var 5 := {[ 4 ]}; var 6 := {[ 0 ]}; var 7 := {[ 4 ]} ]}
        {[ var 5 := {[ 0 ]}; var 6 := {[ 0 ]}; var 7 := {[ 2 ]};
           var 8 := {[ 4 ]} ]}.



(** [q] stands in [target] at an index from [lo] up to, but not including,
    [hi]. *)
Definition written (target : list BlockRef) (lo hi : nat) (q : BlockRef) : Prop :=
  ∃ j, lo ≤ j < hi ∧ target !! j = Some q.


(** Two loops, one after the other.  Block 3 is the header of the first,
    block 4 its body, which leaves the loop through block 2; block 5 is the
    header of the second, block 6 its body.  When the condition of the first
    loop fails, block 3 jumps straight to block 5. *)
Definition two_loops_cfg : CFG :=
  mkCFG [ block 0 [mkBinding (var 5) (IntLit 0)] (var 0) 3 3 [];
          block 1 [] (var 0) 1 1 [7];
          block 2 [mkBinding (var 6) (IntLit 1)] (var 0) 5 5 [4];
          mkBlock 3 [mkBinding (var 10) (Send (var 5) 9 [])]
                  (mkExit (var 10) 4 5) [0; 4] 1%Z [] 0%Z;
          mkBlock 4 [mkBinding (var 11) (Send (var 5) 9 [])]
                  (mkExit (var 11) 2 3) [3] 1%Z [] 0%Z;
          mkBlock 5 [mkBinding (var 12) (Send (var 6) 9 [])]
                  (mkExit (var 12) 6 7) [2; 3; 6] 1%Z [] 0%Z;
          mkBlock 6 [mkBinding (var 6) (IntLit 2)] (mkExit (var 0) 5 5) [5]
                  1%Z [] 0%Z;
          block 7 [mkBinding (var 13) (Return (var 6))] (var 0) 1 1 [5] ]
        0 1 [] [] ∅ ∅.






(** The number of blocks the backward sort has not visited yet. *)
Definition count_unvisited (bs : list BasicBlock) : nat :=
  length (List.filter (λ b, negb (visited BACKWARD_TOPO_SORT_VISITED b)) bs).

(** [bs'] is [bs] up to the flags of its blocks. *)
Definition same_shape (bs bs' : list BasicBlock) : Prop :=
  Forall2 (λ x y, id y = id x ∧ backEdges y = backEdges x
                  ∧ outerLoops y = outerLoops x) bs bs'.

(** Every back-edge of a live block leads to a live block. *)
Definition closed_edges (bs : list BasicBlock) : Prop :=
  ∀ q b, deref bs q = Some b →
         Forall (λ e, is_Some (deref bs e)) (backEdges b).

(** A visit that returns whenever fewer than [m] blocks are unvisited and
    the vector has room for them; it writes every block it visits once. *)
Definition total_visit (m : nat)
    (visit : TopoState → BlockRef → option TopoState) : Prop :=
  ∀ st p,
    closed_edges st.1.1 → is_Some (deref st.1.1 p) →
    count_unvisited st.1.1 < m →
    st.2 + count_unvisited st.1.1 ≤ length st.1.2 →
    ∃ st', visit st p = Some st' ∧ same_shape st.1.1 st'.1.1 ∧
           st.2 ≤ st'.2 ∧
           st'.2 + count_unvisited st'.1.1 = st.2 + count_unvisited st.1.1 ∧
           length st'.1.2 = length st.1.2.
(** ** Further predicates used in the statements *)

(** [b] has a predecessor at a strictly lower loop depth. *)
Definition has_outer_parent (bs : list BasicBlock) (b : BasicBlock) : bool :=
  existsb (λ p, match deref bs p with
                | Some pb => bool_decide (outerLoops pb < outerLoops b)%Z
                | None => false
                end) (backEdges b).

(** [b] with the loop-header bit set when it has such a predecessor. *)
Definition with_header_flag (bs : list BasicBlock) (b : BasicBlock)
    : BasicBlock :=
  set_flags (if has_outer_parent bs b then Z.lor (flags b) LOOP_HEADER
             else flags b) b.

(** Every back-edge of every block of the vector leads to a live block. *)
Definition live_backEdges (bs : list BasicBlock) : Prop :=
  Forall (λ b, Forall (λ p, is_Some (deref bs p)) (backEdges b)) bs.

(** The greatest of [bot] and the members of [l]. *)
Definition maximum (l : list Z) (bot : Z) : Z := foldr Z.max bot l.

(** The test of line 293: both sets hold one block, the same one. *)
Definition single_block (rds wts : gset BlockRef) : bool :=
  match elements rds, elements wts with
  | [r], [w] => r =? w
  | _, _ => false
  end.

(** The variable [x] is read in some block and written in some block, and
    these are not one and the same single block. *)
Definition escapes (RnW : ReadsAndWrites) (x : LocalVariable) : bool :=
  let rds := default ∅ (reads RnW !! x) in
  let wts := default ∅ (writes RnW !! x) in
  negb (single_block rds wts)
  && negb (bool_decide (rds = ∅)) && negb (bool_decide (wts = ∅)).

(** The operands that [dealias] looks up (lines 181-189). *)
Definition rewritten_operands (i : Instruction) : list LocalVariable :=
  match i with
  | Ident w => [w]
  | Send r _ a => r :: a
  | Return w => [w]
  | _ => []
  end.

(** In [m] the variable [t] stands for [v], and no variable stands for
    [t]. *)
Definition copy_of (m : Aliases) (t v : LocalVariable) : Prop :=
  m !! t = Some v ∧ ∀ k, m !! k ≠ Some t.

(** [bs'] is [bs] but for the bit [mask], set in the flags of some blocks. *)
Definition marked_with (mask : Z) (bs bs' : list BasicBlock) : Prop :=
  Forall2 (λ x y, y = x ∨ y = set_flags (Z.lor (flags x) mask) x) bs bs'.

(** [p] is a live block in whose flags the bit [mask] is not set. *)
Definition unvisited_by (mask : Z) (bs : list BasicBlock) (p : BlockRef)
    : Prop :=
  ∃ b, deref bs p = Some b ∧ visited mask b = false.

(** [p] is a live block in whose flags the bit [mask] is set. *)
Definition visited_by (mask : Z) (bs : list BasicBlock) (p : BlockRef)
    : Prop :=
  ∃ b, deref bs p = Some b ∧ visited mask b = true.

(** The blocks the forward sort goes on to from [b]: both exits. *)
Definition successors (b : BasicBlock) : list BlockRef :=
  [thenb (bexit b); elseb (bexit b)].

(** What a call of a sort that marks with [mask] and goes on along [next]
    does to the state: [nextFree] does not go back, the vector keeps its
    length and what stands below [nextFree], the blocks change in the bit
    [mask] only, the blocks written are those newly visited, each once, and
    from a block newly visited [next] leads to visited blocks only. *)
Definition sorted_run (mask : Z) (next : BasicBlock → list BlockRef)
    (st st' : TopoState) : Prop :=
  st.2 ≤ st'.2 ∧ length st'.1.2 = length st.1.2 ∧
  (∀ j, j < st.2 → st'.1.2 !! j = st.1.2 !! j) ∧
  marked_with mask st.1.1 st'.1.1 ∧
  (∀ q, unvisited_by mask st.1.1 q → visited_by mask st'.1.1 q →
        written st'.1.2 st.2 st'.2 q) ∧
  (∀ j q, st.2 ≤ j < st'.2 → st'.1.2 !! j = Some q →
          unvisited_by mask st.1.1 q ∧ visited_by mask st'.1.1 q) ∧
  (∀ i j q, st.2 ≤ i < st'.2 → st.2 ≤ j < st'.2 →
            st'.1.2 !! i = Some q → st'.1.2 !! j = Some q → i = j) ∧
  (∀ q b', unvisited_by mask st.1.1 q → deref st'.1.1 q = Some b' →
           visited mask b' = true →
           Forall (visited_by mask st'.1.1) (next b')).

(** [q] can be reached from [p] by going from block to block along
    [next]. *)
Inductive reaches (next : BasicBlock → list BlockRef) (bs : list BasicBlock)
    : BlockRef → BlockRef → Prop :=
| reaches_here p : reaches next bs p p
| reaches_step p b e q :
    deref bs p = Some b → e ∈ next b → reaches next bs e q →
    reaches next bs p q.

(** The number of blocks in whose flags the bit [mask] is not set. *)
Definition count_unvisited_by (mask : Z) (bs : list BasicBlock) : nat :=
  length (List.filter (λ b, negb (visited mask b)) bs).

(** From every live block [next] leads to live blocks. *)
Definition closed_under_next (next : BasicBlock → list BlockRef)
    (bs : list BasicBlock) : Prop :=
  ∀ q b, deref bs q = Some b → Forall (λ e, is_Some (deref bs e)) (next b).

(** * Properties *)

(** ** Loops *)

Lemma foldM_cons {A B} (f : A → B → option A) a x l :
  foldM f a (x :: l) = a' ← f a x; foldM f a' l.
Proof. done. Qed.

Lemma foldM_app {A B} (f : A → B → option A) a l1 l2 :
  foldM f a (l1 ++ l2) = a' ← foldM f a l1; foldM f a' l2.
Proof.
  revert a. induction l1 as [|x l1 IH]; intros a; simpl; [done|].
  destruct (f a x); simpl; [apply IH | done].
Qed.

(** An invariant of the body is an invariant of the loop. *)
Lemma foldM_invariant {A B} (P : A → Prop) (f : A → B → option A) l :
  ∀ a a', foldM f a l = Some a' → P a →
          (∀ a x a', x ∈ l → P a → f a x = Some a' → P a') → P a'.
Proof.
  induction l as [|x l IH]; intros a a' H Ha Hf; simplify_eq/=; [done|].
  destruct (f a x) as [a1|] eqn:E; simplify_eq/=.
  eapply IH; [done| |].
  - eapply Hf; [|done..]. apply elem_of_cons; auto.
  - intros ?????. eapply Hf; [|done..]. apply elem_of_cons; auto.
Qed.

(** What the body establishes for [x] and no later run of it destroys holds
    after the loop. *)
Lemma foldM_establishes {A B} (Q : A → Prop) (f : A → B → option A) l x :
  ∀ a a', foldM f a l = Some a' → x ∈ l →
          (∀ a a', f a x = Some a' → Q a') →
          (∀ a y a', Q a → f a y = Some a' → Q a') → Q a'.
Proof.
  induction l as [|y l IH]; intros a a' H Hx Hest Hkeep; simplify_eq/=.
  { by apply elem_of_nil in Hx. }
  destruct (f a y) as [a1|] eqn:E; simplify_eq/=.
  apply elem_of_cons in Hx as [->|Hx].
  - eapply (foldM_invariant Q); [done|by eapply Hest|].
    intros ?????. by eapply Hkeep.
  - by eapply IH.
Qed.

Lemma foldl_invariant {A B} (P : A → Prop) (f : A → B → A) l :
  ∀ a, P a → (∀ a x, x ∈ l → P a → P (f a x)) → P (foldl f a l).
Proof.
  induction l as [|x l IH]; intros a Ha Hf; simpl; [done|].
  apply IH.
  - apply Hf; [|done]. apply elem_of_cons; auto.
  - intros ????. apply Hf; [|done]. apply elem_of_cons; auto.
Qed.

Lemma foldl_establishes {A B} (Q : A → Prop) (f : A → B → A) l x :
  ∀ a, x ∈ l → (∀ a, Q (f a x)) → (∀ a y, Q a → Q (f a y)) → Q (foldl f a l).
Proof.
  induction l as [|y l IH]; intros a Hx Hest Hkeep; simpl.
  { by apply elem_of_nil in Hx. }
  apply elem_of_cons in Hx as [->|Hx].
  - apply (foldl_invariant Q); [apply Hest|]. intros ????. by apply Hkeep.
  - by apply IH.
Qed.

Lemma is_Some_bind {A B} (mx : option A) (f : A → option B) x :
  mx = Some x → is_Some (f x) → is_Some (mx ≫= f).
Proof. by intros ->. Qed.



(** ** The block store *)

Lemma deref_Some bs p b : deref bs p = Some b → b ∈ bs ∧ id b = p.
Proof.
  unfold deref. intros H. apply find_some in H as [Hin Heq].
  split; [by apply list_elem_of_In | by apply Nat.eqb_eq].
Qed.

Lemma deref_id bs p b : deref bs p = Some b → id b = p.
Proof. intros H. by apply deref_Some in H as [_ ?]. Qed.

Lemma id_of_Some bs p i : id_of bs p = Some i → i = p ∧ is_Some (deref bs p).
Proof.
  unfold id_of. intros H. destruct (deref bs p) as [b|] eqn:E; simplify_eq/=.
  split; [by apply deref_id in E | eauto].
Qed.

Lemma update_Forall (P : BasicBlock → Prop) p f bs :
  Forall P bs → (∀ b, id b = p → P b → P (f b)) → Forall P (update p f bs).
Proof.
  intros HP Hf. induction HP as [|b bs Hb HP IH]; simpl; [constructor|].
  destruct (Nat.eqb_spec (id b) p); constructor; auto.
Qed.

Lemma update_Forall2 (R : BasicBlock → BasicBlock → Prop) p f bs :
  (∀ b, R b b) → (∀ b, deref bs p = Some b → R b (f b)) →
  Forall2 R bs (update p f bs).
Proof.
  intros Hrefl. unfold deref.
  induction bs as [|b bs IH]; intros Hf; simpl in *; [constructor|].
  destruct (Nat.eqb_spec (id b) p).
  - constructor; [by apply Hf|].
    apply Forall_Forall2_diag, Forall_forall. auto.
  - constructor; auto.
Qed.

Lemma update_length p f bs : length (update p f bs) = length bs.
Proof.
  induction bs as [|b bs IH]; simpl; [done|].
  destruct (id b =? p); simpl; congruence.
Qed.

Lemma deref_update p f bs q :
  (∀ b, id (f b) = id b) →
  deref (update p f bs) q
  = if decide (q = p) then f <$> deref bs p else deref bs q.
Proof.
  intros Hid. unfold deref.
  induction bs as [|b bs IH]; simpl; [by case_decide|].
  destruct (Nat.eqb_spec (id b) p) as [Hp|Hp]; simpl.
  - rewrite Hid. destruct (decide (q = p)) as [->|Hq].
    + by rewrite Hp, Nat.eqb_refl.
    + destruct (Nat.eqb_spec (id b) q); [congruence|done].
  - destruct (Nat.eqb_spec (id b) q) as [Hq|Hq]; [|apply IH].
    destruct (decide (q = p)); [congruence|done].
Qed.

Lemma modify_Forall (P : BasicBlock → Prop) p f bs bs' :
  modify p f bs = Some bs' →
  Forall P bs → (∀ b, id b = p → P b → P (f b)) → Forall P bs'.
Proof.
  unfold modify. intros H HP Hf. destruct (deref bs p); simplify_eq/=.
  by apply update_Forall.
Qed.

(** ** [simplify]: which blocks the rules are applied to *)

Section simplify_subjects.
Variable d : BlockRef.

Lemma sink_set_backEdges p g bs bs' :
  modify p (λ t, set_backEdges (g t) t) bs = Some bs' →
  Forall (sink d) bs → Forall (sink d) bs'.
Proof. intros H HP. eapply modify_Forall; [done..|]. by intros b _. Qed.

Lemma sink_set_other p f bs bs' :
  modify p f bs = Some bs' → (∀ b, id (f b) = id b) → p ≠ d →
  Forall (sink d) bs → Forall (sink d) bs'.
Proof.
  intros H Hid Hp HP. eapply modify_Forall; [done..|].
  intros b Hb _ Hd. rewrite Hid in Hd. congruence.
Qed.

Lemma sink_reparent bb bs bs' :
  reparent bb bs = Some bs' → Forall (sink d) bs → Forall (sink d) bs'.
Proof.
  unfold reparent. intros H HP.
  destruct (deref bs bb) as [b|]; simplify_eq/=.
  destruct (modify (thenb (bexit b)) _ bs) as [bs1|] eqn:E1; simplify_eq/=.
  apply (sink_set_backEdges _ (λ t, push_back bb (backEdges t))) in E1; [|done].
  destruct (thenb (bexit b) =? elseb (bexit b)); simplify_eq/=; [done|].
  by apply (sink_set_backEdges _ (λ t, push_back bb (backEdges t))) in H.
Qed.

Lemma sink_prune cfg it bb t e cfg' :
  prune cfg it bb t e = Some cfg' →
  Forall (sink d) (basicBlocks cfg) → Forall (sink d) (basicBlocks cfg').
Proof.
  unfold prune. intros H HP.
  destruct (modify t _ (basicBlocks cfg)) as [bs1|] eqn:E1; simplify_eq/=.
  apply (sink_set_backEdges _ (λ t, remove bb (backEdges t))) in E1; [|done].
  destruct (e =? t); simplify_eq/=.
  - by apply Forall_delete.
  - destruct (modify e _ bs1) as [bs2|] eqn:E2; simplify_eq/=.
    apply (sink_set_backEdges _ (λ t, remove bb (backEdges t))) in E2; [|done].
    by apply Forall_delete.
Qed.

Lemma sink_squash_single bb t bs bs' :
  squash_single bb t bs = Some bs' → bb ≠ d →
  Forall (sink d) bs → Forall (sink d) bs'.
Proof.
  unfold squash_single. intros H Hbb HP.
  destruct (deref bs t) as [tb|]; simplify_eq/=.
  destruct (modify bb _ bs) as [bs1|] eqn:E1; simplify_eq/=.
  apply sink_set_other in E1; [|done..].
  destruct (modify t _ bs1) as [bs2|] eqn:E2; simplify_eq/=.
  eapply modify_Forall in E2; [|done|by intros b _].
  destruct (modify t _ bs2) as [bs3|] eqn:E3; simplify_eq/=.
  apply (sink_set_backEdges _ (λ _, [])) in E3; [|done].
  destruct (deref bs3 t) as [t3|]; simplify_eq/=.
  destruct (modify bb _ bs3) as [bs4|] eqn:E4; simplify_eq/=.
  apply sink_set_other in E4; [|done..].
  by eapply sink_reparent.
Qed.

Lemma sink_squash_empty bb t bs bs' :
  squash_empty bb t bs = Some bs' → bb ≠ d →
  Forall (sink d) bs → Forall (sink d) bs'.
Proof.
  unfold squash_empty. intros H Hbb HP.
  destruct (deref bs t) as [tb|]; simplify_eq/=.
  destruct (modify bb _ bs) as [bs1|] eqn:E1; simplify_eq/=.
  apply sink_set_other in E1; [|done..].
  destruct (modify t _ bs1) as [bs2|] eqn:E2; simplify_eq/=.
  apply (sink_set_backEdges _ (λ s, remove bb (backEdges s))) in E2; [|done].
  by eapply sink_reparent.
Qed.

Lemma sink_shortcut_then bb t bs bs' :
  shortcut_then bb t bs = Some bs' → bb ≠ d →
  Forall (sink d) bs → Forall (sink d) bs'.
Proof.
  unfold shortcut_then. intros H Hbb HP.
  destruct (deref bs t) as [tb|]; simplify_eq/=.
  destruct (modify bb _ bs) as [bs1|] eqn:E1; simplify_eq/=.
  apply sink_set_other in E1; [|done..].
  destruct (deref bs1 t) as [t1|]; simplify_eq/=.
  destruct (modify (thenb (bexit t1)) _ bs1) as [bs2|] eqn:E2; simplify_eq/=.
  apply (sink_set_backEdges _ (λ s, push_back bb (backEdges s))) in E2; [|done].
  by apply (sink_set_backEdges _ (λ s, remove bb (backEdges s))) in H.
Qed.

Lemma sink_shortcut_else bb e bs bs' :
  shortcut_else bb e bs = Some bs' → bb ≠ d →
  Forall (sink d) bs → Forall (sink d) bs'.
Proof.
  unfold shortcut_else. intros H Hbb HP.
  destruct (deref bs e) as [eb|]; simplify_eq/=.
  destruct (modify bb _ bs) as [bs1|] eqn:E1; simplify_eq/=.
  apply sink_set_other in E1; [|done..].
  destruct (deref bs1 bb) as [b1|]; simplify_eq/=.
  destruct (modify (elseb (bexit b1)) _ bs1) as [bs2|] eqn:E2; simplify_eq/=.
  apply (sink_set_backEdges _ (λ s, push_back bb (backEdges s))) in E2; [|done].
  by apply (sink_set_backEdges _ (λ s, remove bb (backEdges s))) in H.
Qed.


Lemma simplify_tail_spec ctx cfg it bb t e pre cfg' it' ch evs :
  simplify_tail ctx cfg it bb t e pre = Some (cfg', it', ch, evs) →
  entry cfg' = entry cfg ∧ deadBlock cfg' = deadBlock cfg ∧
  (∃ post, evs = pre ++ post ∧
           ∀ r x, (r, x) ∈ post → x = bb ∧ r ≠ R1 ∧ r ≠ R2) ∧
  (t = deadBlock cfg → e = deadBlock cfg → evs = pre ∧ cfg' = cfg) ∧
  (bb ≠ d → Forall (sink d) (basicBlocks cfg) → Forall (sink d) (basicBlocks cfg')).
Proof.
  assert (Hone : ∀ (r0 : Rule) r x, (r, x) ∈ [(r0, bb)] →
            r0 ≠ R1 → r0 ≠ R2 → x = bb ∧ r ≠ R1 ∧ r ≠ R2).
  { by intros r0 r x [= -> ->]%list_elem_of_singleton. }
  assert (Hshort :
    (c4 ← can_shortcut_then cfg bb t;
     if c4 : bool then
       bs ← shortcut_then bb t (basicBlocks cfg);
       Some (set_basicBlocks bs cfg, it, true, pre ++ [(R4, bb)])
     else
       c5 ← can_shortcut_else cfg bb e;
       if c5 : bool then
         bs ← shortcut_else bb e (basicBlocks cfg);
         Some (set_basicBlocks bs cfg, it, true, pre ++ [(R5, bb)])
       else Some (cfg, S it, false, pre)) = Some (cfg', it', ch, evs) →
    entry cfg' = entry cfg ∧ deadBlock cfg' = deadBlock cfg ∧
    (∃ post, evs = pre ++ post ∧
             ∀ r x, (r, x) ∈ post → x = bb ∧ r ≠ R1 ∧ r ≠ R2) ∧
    (t = deadBlock cfg → e = deadBlock cfg → evs = pre ∧ cfg' = cfg) ∧
    (bb ≠ d → Forall (sink d) (basicBlocks cfg) → Forall (sink d) (basicBlocks cfg'))).
  { intros H.
    destruct (can_shortcut_then cfg bb t) as [c4|] eqn:E4; simplify_eq/=.
    destruct c4.
    - destruct (shortcut_then bb t (basicBlocks cfg)) as [bs|] eqn:Es;
        simplify_eq/=.
      split_and!; [done|done|exists [(R4, bb)]; split; [done|intros r x Hx; by apply (Hone _ _ _ Hx)]| |].
      + intros -> _. unfold can_shortcut_then in E4.
        by rewrite Nat.eqb_refl in E4.
      + intros. by eapply sink_shortcut_then.
    - destruct (can_shortcut_else cfg bb e) as [c5|] eqn:E5; simplify_eq/=.
      destruct c5; simplify_eq/=.
      + destruct (shortcut_else bb e (basicBlocks cfg)) as [bs|] eqn:Es;
          simplify_eq/=.
        split_and!; [done|done|exists [(R5, bb)]; split; [done|intros r x Hx; by apply (Hone _ _ _ Hx)]| |].
        * intros _ ->. unfold can_shortcut_else in E5.
          by rewrite Nat.eqb_refl in E5.
        * intros. by eapply sink_shortcut_else.
      + split_and!; [done|done| |done|done].
        exists []. split; [by rewrite app_nil_r|]. by intros ?? ?%elem_of_nil. }
  unfold simplify_tail.
  destruct ((t =? e) && negb (t =? deadBlock cfg) && negb (t =? bb)) eqn:Eg;
    [|done].
  intros H.
  destruct (deref (basicBlocks cfg) t) as [tb|]; simplify_eq/=.
  assert (t ≠ deadBlock cfg) as Hnd.
  { intros ->. rewrite Nat.eqb_refl in Eg. simpl in Eg.
    by rewrite andb_false_r in Eg. }
  destruct (length (backEdges tb) =? 1).
  { destruct (squash_single bb t (basicBlocks cfg)) as [bs|] eqn:Es;
      simplify_eq/=.
    split_and!; [done|done|exists [(R3a, bb)]; split; [done|intros r x Hx; by apply (Hone _ _ _ Hx)]
                |by intros ?|].
    intros. by eapply sink_squash_single. }
  destruct (negb (name (cond (bexit tb)) =? blockCall ctx)
            && bool_decide (exprs tb = [])); [|by apply Hshort].
  destruct (squash_empty bb t (basicBlocks cfg)) as [bs|] eqn:Es;
    simplify_eq/=.
  split_and!; [done|done|exists [(R3b, bb)]; split; [done|intros r x Hx; by apply (Hone _ _ _ Hx)]
              |by intros ?|].
  intros. by eapply sink_squash_empty.
Qed.

End simplify_subjects.

Lemma simplify_iteration_spec ctx cfg it cfg' it' ch evs :
  simplify_iteration ctx cfg it = Some (cfg', it', ch, evs) →
  entry cfg' = entry cfg ∧ deadBlock cfg' = deadBlock cfg ∧
  (∀ r x, (r, x) ∈ evs →
          (r = R1 ∨ r = R2) → x ≠ entry cfg ∧ x ≠ deadBlock cfg) ∧
  (dead_is_sink cfg →
   dead_is_sink cfg' ∧ ∀ r x, (r, x) ∈ evs → x ≠ deadBlock cfg).
Proof.
  unfold simplify_iteration, dead_is_sink. intros H.
  destruct (basicBlocks cfg !! it) as [b|] eqn:Eb; simplify_eq/=.
  destruct (negb (id b =? deadBlock cfg) && negb (id b =? entry cfg)) eqn:Eg.
  - apply andb_true_iff in Eg as [Hd He].
    apply negb_true_iff, Nat.eqb_neq in Hd, He.
    destruct (bool_decide (backEdges b = [])).
    + destruct (prune cfg it _ _ _) as [c1|] eqn:Ep; simplify_eq/=.
      assert (entry cfg' = entry cfg ∧ deadBlock cfg' = deadBlock cfg) as [E1 E2].
      { unfold prune in Ep. repeat case_match; simplify_option_eq; done. }
      split_and!; [done|done| |].
      * by intros r x [= -> ->]%list_elem_of_singleton.
      * intros Hs. rewrite E2. split; [by eapply sink_prune|].
        by intros r x [= -> ->]%list_elem_of_singleton.
    + destruct (modify (id b) _ (basicBlocks cfg)) as [bs|] eqn:Em;
        simplify_eq/=.
      apply (simplify_tail_spec (deadBlock cfg)) in H
        as (E1 & E2 & (post & -> & Hpost) & _ & Hsink).
      simpl in *. split_and!; [done|done| |].
      * intros r x [Hx|Hx]%elem_of_cons.
        -- by injection Hx as -> ->.
        -- apply Hpost in Hx as (-> & ? & ?). by intros [].
      * intros Hs. rewrite E2. split.
        -- apply Hsink; [done|].
           by eapply (sink_set_backEdges _ _
                        (λ x, unique_ (sort_by_id (backEdges x)))).
        -- intros r x [Hx|Hx]%elem_of_cons.
           ++ by injection Hx as -> ->.
           ++ by apply Hpost in Hx as (-> & ? & ?).
  - apply (simplify_tail_spec (deadBlock cfg)) in H
      as (E1 & E2 & (post & -> & Hpost) & Hdead & Hsink).
    simpl in *. split_and!; [done|done| |].
    + intros r x Hx. apply Hpost in Hx as (-> & ? & ?). by intros [].
    + intros Hs. destruct (decide (id b = deadBlock cfg)) as [Hb|Hb].
      * assert (b ∈ basicBlocks cfg) as Hin by by eapply list_elem_of_lookup_2.
        rewrite Forall_forall in Hs. destruct (Hs b Hin Hb) as [Ht Hels].
        destruct (Hdead Ht Hels) as [-> ->].
        split; [by apply Forall_forall|]. by intros r x ?%elem_of_nil.
      * rewrite E2. split; [by apply Hsink|].
        intros r x Hx. by apply Hpost in Hx as (-> & ? & ?).
Qed.

Lemma simplify_loop_spec fuel ctx : ∀ cfg it changed trace cfg' trace',
  simplify_loop fuel ctx cfg it changed trace = Ret (cfg', trace') →
  entry cfg' = entry cfg ∧ deadBlock cfg' = deadBlock cfg ∧
  ∃ evs, trace' = trace ++ evs ∧
    (∀ r x, (r, x) ∈ evs →
            (r = R1 ∨ r = R2) → x ≠ entry cfg ∧ x ≠ deadBlock cfg) ∧
    (dead_is_sink cfg →
     dead_is_sink cfg' ∧ ∀ r x, (r, x) ∈ evs → x ≠ deadBlock cfg).
Proof.
  induction fuel as [|fuel IH]; intros cfg it changed trace cfg' trace' H;
    [done|].
  simpl in H. destruct (it <? length (basicBlocks cfg)).
  - destruct (simplify_iteration ctx cfg it) as [[[[c1 it1] ch1] evs1]|] eqn:Ei;
      [|done].
    apply simplify_iteration_spec in Ei as (E1 & E2 & Hg & Hs).
    apply IH in H as (E1' & E2' & evs & -> & Hg' & Hs').
    rewrite E1, E2 in *. split_and!; [congruence|congruence|].
    exists (evs1 ++ evs). split; [by rewrite app_assoc|]. split.
    + intros r x [?|?]%elem_of_app; eauto.
    + intros Hsink. destruct (Hs Hsink) as [Hs1 Hev1].
      destruct (Hs' Hs1) as [Hs2 Hev2]. split; [done|].
      intros r x [?|?]%elem_of_app; eauto.
  - destruct changed.
    + apply IH in H as (? & ? & evs & ? & ? & ?). split_and!; [done..|].
      by exists evs.
    + simplify_eq. split_and!; [done..|]. exists [].
      split; [by rewrite app_nil_r|].
      split; [by intros ?? ?%elem_of_nil|].
      intros ?. split; [done|]. by intros ?? ?%elem_of_nil.
Qed.

(** C3, as the code has it: the guard of line 22 covers the prune and the
    canonicalisation of the back-edges only, so R1 and R2 are applied to no
    block that is the entry or the dead block; the squash and the shortcuts
    are tried on every block, and when the dead block is a sink no rule at
    all is applied to it.  This holds of every run of the loop body, and so
    of the rules applied by a whole run of [simplify]. *)
Theorem simplify_rule_subjects ctx cfg :
  (∀ it cfg' it' changed evs,
     simplify_iteration ctx cfg it = Some (cfg', it', changed, evs) →
     ∀ r bb, (r, bb) ∈ evs →
       ((r = R1 ∨ r = R2) → bb ≠ entry cfg ∧ bb ≠ deadBlock cfg) ∧
       (dead_is_sink cfg → bb ≠ deadBlock cfg)) ∧
  (∀ fuel cfg' trace,
     simplify fuel ctx cfg = Ret (cfg', trace) →
     ∀ r bb, (r, bb) ∈ trace →
       ((r = R1 ∨ r = R2) → bb ≠ entry cfg ∧ bb ≠ deadBlock cfg) ∧
       (dead_is_sink cfg → bb ≠ deadBlock cfg)).
Proof.
  split.
  - intros it cfg' it' changed evs H r bb Hin.
    apply simplify_iteration_spec in H as (_ & _ & Hg & Hs).
    split; [by apply (Hg r bb)|]. intros Hsink.
    destruct (Hs Hsink) as [_ Hev]. by apply (Hev r bb).
  - unfold simplify. intros fuel cfg' trace H r bb Hin.
    apply simplify_loop_spec in H as (_ & _ & evs & -> & Hg & Hs).
    split; [by apply (Hg r bb)|]. intros Hsink.
    destruct (Hs Hsink) as [_ Hev]. by apply (Hev r bb).
Qed.

Lemma simplify_rule_subjects_witness :
  dead_is_sink straight_cfg ∧
  ∃ cfg' trace,
    simplify 10 sample_ctx straight_cfg = Ret (cfg', trace) ∧
    trace = [(R3a, 0); (R1, 2)] ∧
    ∀ r bb, (r, bb) ∈ trace →
      ((r = R1 ∨ r = R2) →
       bb ≠ entry straight_cfg ∧ bb ≠ deadBlock straight_cfg) ∧
      bb ≠ deadBlock straight_cfg.
Proof.
  assert (dead_is_sink straight_cfg) as Hsink.
  { repeat constructor; (discriminate || reflexivity). }
  split; [exact Hsink|].
  eexists _, _. split; [vm_compute; reflexivity|]. split; [reflexivity|].
  intros r bb Hin.
  destruct (simplify_rule_subjects sample_ctx straight_cfg) as [_ Hrun].
  destruct (Hrun 10 _ _ eq_refl r bb Hin) as [H1 H2].
  split; [exact H1 | exact (H2 Hsink)].
Defined.

(** C3, refuted as stated: on [straight_cfg] the squash R3a is applied with
    the entry block as its subject, which merges the entry with its
    unconditional successor. *)
Lemma simplify_squashes_entry :
  ∃ cfg' trace,
    simplify 10 sample_ctx straight_cfg = Ret (cfg', trace) ∧
    (R3a, entry straight_cfg) ∈ trace ∧
    deref (basicBlocks cfg') (entry straight_cfg)
    = Some (block 0 [mkBinding (var 5) (IntLit 1)] (var 0) 1 1 []).
Proof.
  eexists _, _. split; [vm_compute; reflexivity|].
  split; [|vm_compute; reflexivity].
  apply list_elem_of_In. vm_compute. auto.
Qed.

(** ** [simplify]: a graph on which the loop does not end *)

Lemma spin_iteration :
  simplify_iteration sample_ctx spin_cfg 0 = Some (spin_cfg, 0, true, [(R3b, 0)]).
Proof. vm_compute. reflexivity. Qed.

Lemma simplify_loop_spins fuel : ∀ changed trace,
  simplify_loop fuel sample_ctx spin_cfg 0 changed trace = Timeout.
Proof.
  induction fuel as [|fuel IH]; intros changed trace; [done|].
  cbn [simplify_loop].
  change (0 <? length (basicBlocks spin_cfg)) with true. cbv iota.
  rewrite spin_iteration. apply IH.
Qed.

(** C5, at the failing input: [spin_cfg] passes [sanityCheck], yet the body of
    the [for] loop, run on [entry], applies R3b and leaves the very same graph
    with the iterator on [entry] again; whatever the fuel, [simplify] does not
    return. *)
Theorem simplify_diverges :
  sanityCheck spin_cfg = true ∧
  simplify_iteration sample_ctx spin_cfg 0
  = Some (spin_cfg, 0, true, [(R3b, entry spin_cfg)]) ∧
  ∀ fuel, simplify fuel sample_ctx spin_cfg = Timeout.
Proof.
  split; [vm_compute; reflexivity|]. split; [apply spin_iteration|].
  intros fuel. apply simplify_loop_spins.
Qed.

(** ** [simplify] and [sanityCheck] *)

(** C4, at the failing input: [header_cfg] passes [sanityCheck]; the body of
    the [for] loop leaves it as it is on blocks 0 and 1, and on block 2 it
    applies R2 and then the then-shortcut R4, after which block 2 still has
    block 4 as its [elseb] but is no longer among the [backEdges] of block 4:
    the [sanityCheck] of line 81 fails. *)
Theorem simplify_breaks_sanityCheck :
  sanityCheck header_cfg = true ∧
  simplify_iteration sample_ctx header_cfg 0 = Some (header_cfg, 1, false, []) ∧
  simplify_iteration sample_ctx header_cfg 1 = Some (header_cfg, 2, false, []) ∧
  ∃ cfg' b2 b4,
    simplify_iteration sample_ctx header_cfg 2
    = Some (cfg', 2, true, [(R2, 2); (R4, 2)]) ∧
    deref (basicBlocks cfg') 2 = Some b2 ∧ elseb (bexit b2) = 4 ∧
    deref (basicBlocks cfg') 4 = Some b4 ∧ (2 ∉ backEdges b4) ∧
    sanityCheck cfg' = false.
Proof.
  split; [vm_compute; reflexivity|].
  split; [vm_compute; reflexivity|].
  split; [vm_compute; reflexivity|].
  eexists _, _, _. split; [vm_compute; reflexivity|].
  split; [vm_compute; reflexivity|]. split; [reflexivity|].
  split; [vm_compute; reflexivity|].
  split; [|vm_compute; reflexivity].
  cbn. by intros [=]%list_elem_of_singleton.
Qed.

(** ** The scratch vectors of [dealias] and [fillInBlockArguments] *)

(** C1, at the failing input: [simplify] turns [orphan_cfg], whose ids are
    0 to 4, into [pruned_cfg] by pruning block 2.  Four blocks are left, so
    [outAliases], [upper_bounds1] and the other scratch vectors get four
    slots, and the slot of the block with id 4 lies outside them: both passes
    index out of bounds.  On [orphan_cfg] itself, where the ids are dense,
    both passes run. *)
Theorem scratch_vectors_overflow :
  (∃ trace, simplify 20 sample_ctx orphan_cfg = Ret (pruned_cfg, trace)) ∧
  sanityCheck pruned_cfg = true ∧
  id <$> basicBlocks pruned_cfg = [0; 1; 3; 4] ∧
  4 ∈ backwardsTopoSort pruned_cfg ∧
  4 ∈ forwardsTopoSort pruned_cfg ∧
  replicate (length (basicBlocks pruned_cfg)) (∅ : Aliases) !! 4 = None ∧
  dealias sample_ctx pruned_cfg = None ∧
  (∀ fuel, fillInBlockArguments fuel orphan_RnW pruned_cfg = None) ∧
  is_Some (dealias sample_ctx orphan_cfg) ∧
  is_Some (fillInBlockArguments 5 orphan_RnW orphan_cfg).
Proof.
  split; [eexists; vm_compute; reflexivity|].
  split; [vm_compute; reflexivity|].
  split; [reflexivity|].
  split; [apply list_elem_of_In; cbn; tauto|].
  split; [apply list_elem_of_In; cbn; tauto|].
  split; [reflexivity|].
  split; [vm_compute; reflexivity|].
  split.
  - intros [|fuel]; vm_compute; reflexivity.
  - split; eexists; vm_compute; reflexivity.
Qed.

(** ** [removeDeadAssigns] after [fillInBlockArguments] *)

Lemma preprocess_read_keeps R pair x :
  (is_Some (reads R !! x) → is_Some (reads (preprocess_read R pair) !! x)) ∧
  (is_Some (writes R !! x) → is_Some (writes (preprocess_read R pair) !! x)).
Proof.
  unfold preprocess_read.
  split; intros Hs; repeat case_match; simpl; try done;
    (destruct (decide (pair.1 = x)) as [->|?];
     [rewrite lookup_insert_eq; eauto | by rewrite lookup_insert_ne]).
Qed.

Lemma preprocess_read_creates R pair :
  is_Some (writes (preprocess_read R pair) !! pair.1).
Proof.
  unfold preprocess_read.
  repeat case_match; simpl; rewrite lookup_insert_eq; eauto.
Qed.

Lemma preprocess_write_keeps bs st pair st' x :
  preprocess_write bs st pair = Some st' →
  is_Some (reads st.1.1 !! x) → is_Some (reads st'.1.1 !! x).
Proof.
  destruct st as [[R rbb] wbb]. unfold preprocess_write. intros H Hx.
  simplify_option_eq; simpl;
    (destruct (decide (pair.1 = x)) as [->|?];
     [rewrite lookup_insert_eq; eauto | by rewrite lookup_insert_ne]).
Qed.

Lemma preprocess_write_creates bs st pair st' :
  preprocess_write bs st pair = Some st' →
  is_Some (reads st'.1.1 !! pair.1).
Proof.
  destruct st as [[R rbb] wbb]. unfold preprocess_write. intros H.
  simplify_option_eq; simpl; rewrite lookup_insert_eq; eauto.
Qed.

(** After the preprocessing every variable that had an entry in [reads] or in
    [writes] has an entry in [reads]. *)
Lemma preprocess_reads_keys bs RnW RnW' rbb wbb x :
  preprocess bs RnW = Some (RnW', rbb, wbb) →
  is_Some (reads RnW !! x) ∨ is_Some (writes RnW !! x) →
  is_Some (reads RnW' !! x).
Proof.
  unfold preprocess. intros H Hx.
  set (RnW1 := foldl preprocess_read RnW (map_to_list (reads RnW))) in *.
  assert (is_Some (writes RnW1 !! x)) as [s Hs].
  { destruct Hx as [[s Hx]|Hx].
    - apply elem_of_map_to_list in Hx.
      apply (foldl_establishes (λ R, is_Some (writes R !! x)) _ _ (x, s));
        [done| |].
      + intros R. apply (preprocess_read_creates R (x, s)).
      + intros R y. apply preprocess_read_keeps.
    - apply (foldl_invariant (λ R, is_Some (writes R !! x))); [done|].
      intros R y _. apply preprocess_read_keeps. }
  apply elem_of_map_to_list in Hs.
  change (is_Some (reads (RnW', rbb, wbb).1.1 !! x)).
  eapply (foldM_establishes (λ st, is_Some (reads st.1.1 !! x)) _ _ (x, s));
    [done|done| |].
  - intros st st' Hst. by apply preprocess_write_creates in Hst.
  - intros st y st' Hq Hst. by eapply preprocess_write_keeps.
Qed.

Lemma survives_read_key ctx RnW bnd :
  is_Some (reads RnW !! bind bnd) → survives ctx RnW bnd = true.
Proof. unfold survives. intros [s ->]. by destruct isAliasForGlobal. Qed.

(** C9: [removeDeadAssigns] steps over every binding whose variable has an
    entry in [RnW.reads], be the set of reading blocks empty or not; and
    [fillInBlockArguments] leaves such an entry for every variable that had
    one in [reads] or in [writes], so after it no binding of such a variable
    is removed, whatever its instruction. *)
Theorem removeDeadAssigns_after_fillInBlockArguments
    fuel ctx RnW cfg RnW' cfg' x :
  fillInBlockArguments fuel RnW cfg = Some (RnW', cfg') →
  is_Some (reads RnW !! x) ∨ is_Some (writes RnW !! x) →
  is_Some (reads RnW' !! x) ∧
  (∀ R bnd, is_Some (reads R !! bind bnd) → survives ctx R bnd = true) ∧
  ∀ cfg2,
    Forall2 (λ b b', ∀ bnd, bind bnd = x → bnd ∈ exprs b → bnd ∈ exprs b')
            (basicBlocks cfg2)
            (basicBlocks (removeDeadAssigns ctx RnW' cfg2)).
Proof.
  unfold fillInBlockArguments. intros H Hx.
  destruct (preprocess (basicBlocks cfg) RnW) as [[[R1 rbb] wbb]|] eqn:Ep;
    simplify_eq/=.
  assert (RnW' = R1) as -> by (simplify_option_eq; done).
  pose proof (preprocess_reads_keys _ _ _ _ _ x Ep Hx) as Hkey.
  split; [done|]. split; [intros; by apply survives_read_key|].
  intros cfg2. simpl. apply Forall2_fmap_r, Forall_Forall2_diag, Forall_forall.
  intros b _ bnd Hb Hin. simpl.
  apply list_elem_of_In, filter_In. split; [by apply list_elem_of_In|].
  apply survives_read_key. by rewrite Hb.
Qed.

Lemma removeDeadAssigns_after_fillInBlockArguments_witness :
  ∃ RnW' cfg',
    fillInBlockArguments 5 orphan_RnW orphan_cfg = Some (RnW', cfg') ∧
    reads orphan_RnW !! var 9 = Some {[ 0 ]} ∧
    reads RnW' !! var 9 = Some ∅ ∧
    is_pure (BoolLit true) = true ∧
    Forall2 (λ b b', ∀ bnd, bind bnd = var 9 → bnd ∈ exprs b → bnd ∈ exprs b')
            (basicBlocks cfg')
            (basicBlocks (removeDeadAssigns sample_ctx RnW' cfg')).
Proof.
  eassert (fillInBlockArguments 5 orphan_RnW orphan_cfg = Some (_, _)) as E
    by (vm_compute; reflexivity).
  eexists _, _. split; [exact E|].
  split; [vm_compute; reflexivity|].
  split; [vm_compute; reflexivity|].
  split; [reflexivity|].
  assert (is_Some (reads orphan_RnW !! var 9) ∨
          is_Some (writes orphan_RnW !! var 9)) as Hx.
  { left. eexists. vm_compute. reflexivity. }
  destruct (removeDeadAssigns_after_fillInBlockArguments
              5 sample_ctx _ _ _ _ (var 9) E Hx) as (_ & _ & H).
  apply H.
Defined.

(** ** [computeMinMaxLoops] *)

Lemma minimum_min l m d : minimum l (Z.min m d) = Z.min d (minimum l m).
Proof. unfold minimum. induction l as [|a l IH]; cbn [foldr app]; lia. Qed.

Lemma minimum_le l t : (minimum l t ≤ t)%Z.
Proof. unfold minimum. induction l as [|a l IH]; cbn [foldr]; lia. Qed.

Lemma minimum_app l1 l2 t :
  minimum (l1 ++ l2) t = Z.min (minimum l1 t) (minimum l2 t).
Proof.
  pose proof (minimum_le l2 t). unfold minimum in *.
  induction l1 as [|a l1 IH]; cbn [foldr app]; lia.
Qed.

Lemma lower_to_loop bs l : ∀ m m',
  foldM (lower_to bs) m l = Some m' →
  m' = minimum (omap (λ bb, outerLoops <$> deref bs bb) l) m.
Proof.
  induction l as [|bb l IH]; intros m m' H; [by injection H as <-|].
  rewrite foldM_cons in H. apply bind_Some in H as (m1 & E & H).
  unfold lower_to in E. apply bind_Some in E as (b & Eb & [= <-]).
  apply IH in H as ->. cbn [omap list_omap]. rewrite Eb. cbn [fmap option_fmap option_map].
  change (minimum (?a :: ?l) ?t) with (Z.min a (minimum l t)).
  rewrite <- minimum_min. f_equal. case_bool_decide; lia.
Qed.

Lemma minmax_read_other bs l x : ∀ mins mins',
  foldM (minmax_read bs) mins l = Some mins' →
  x ∉ l.*1 → mins' !! x = mins !! x.
Proof.
  induction l as [|[y s] l IH]; intros mins mins' H Hx;
    [by injection H as <-|].
  rewrite foldM_cons in H. apply bind_Some in H as (m1 & E & H).
  apply not_elem_of_cons in Hx as [Hxy Hx].
  unfold minmax_read in E. apply bind_Some in E as (m & _ & [= <-]).
  rewrite (IH _ _ H Hx). by rewrite lookup_insert_ne.
Qed.

Lemma minmax_read_at bs l x s : ∀ mins mins',
  foldM (minmax_read bs) mins l = Some mins' →
  NoDup l.*1 → (x, s) ∈ l →
  mins' !! x = Some (minimum (depths bs s) (default INT_MAX (mins !! x))).
Proof.
  induction l as [|[y t] l IH]; intros mins mins' H Hnd Hx.
  { by apply elem_of_nil in Hx. }
  rewrite foldM_cons in H. apply bind_Some in H as (m1 & E & H).
  apply NoDup_cons in Hnd as [Hy Hnd].
  unfold minmax_read in E. apply bind_Some in E as (m & Em & [= <-]).
  simpl in *.
  apply elem_of_cons in Hx as [[= -> ->]|Hx].
  - rewrite (minmax_read_other _ _ _ _ _ H Hy), lookup_insert_eq.
    by apply lower_to_loop in Em as ->.
  - rewrite (IH _ _ H Hnd Hx). rewrite lookup_insert_ne; [done|].
    intros ->. apply Hy. apply list_elem_of_fmap. by exists (x, s).
Qed.

Lemma minmax_write_other bs l x : ∀ st st',
  foldM (minmax_write bs) st l = Some st' →
  x ∉ l.*1 → st'.1 !! x = st.1 !! x.
Proof.
  induction l as [|[y s] l IH]; intros st st' H Hx;
    [by injection H as <-|].
  rewrite foldM_cons in H. apply bind_Some in H as (st1 & E & H).
  apply not_elem_of_cons in Hx as [Hxy Hx].
  unfold minmax_write in E. apply bind_Some in E as (m & _ & E).
  apply bind_Some in E as (M & _ & [= <-]).
  rewrite (IH _ _ H Hx). simpl. by rewrite lookup_insert_ne.
Qed.

Lemma minmax_write_at bs l x s : ∀ st st',
  foldM (minmax_write bs) st l = Some st' →
  NoDup l.*1 → (x, s) ∈ l →
  st'.1 !! x = Some (minimum (depths bs s) (default INT_MAX (st.1 !! x))).
Proof.
  induction l as [|[y t] l IH]; intros st st' H Hnd Hx.
  { by apply elem_of_nil in Hx. }
  rewrite foldM_cons in H. apply bind_Some in H as (st1 & E & H).
  apply NoDup_cons in Hnd as [Hy Hnd].
  unfold minmax_write in E. apply bind_Some in E as (m & Em & E).
  apply bind_Some in E as (M & _ & [= <-]).
  simpl in *.
  apply elem_of_cons in Hx as [[= -> ->]|Hx].
  - rewrite (minmax_write_other _ _ _ _ _ H Hy). simpl.
    rewrite lookup_insert_eq. by apply lower_to_loop in Em as ->.
  - rewrite (IH _ _ H Hnd Hx). simpl. rewrite lookup_insert_ne; [done|].
    intros ->. apply Hy. apply list_elem_of_fmap. by exists (x, s).
Qed.

(** C2, as the code has it: for a variable with an entry in [reads] the final
    [minLoops] entry is the least loop depth among its reading blocks and its
    writing blocks (and [INT_MAX], or the entry [minLoops] had before the
    pass).  The [insert] of the write pass keeps the entry the read pass
    made, but the loop that follows lowers it to the depth of every shallower
    writing block. *)
Theorem computeMinMaxLoops_minLoops RnW cfg cfg' x rds :
  computeMinMaxLoops RnW cfg = Some cfg' →
  reads RnW !! x = Some rds →
  minLoops cfg' !! x
  = Some (minimum (depths (basicBlocks cfg) rds
                   ++ depths (basicBlocks cfg) (default ∅ (writes RnW !! x)))
                  (default INT_MAX (minLoops cfg !! x))).
Proof.
  unfold computeMinMaxLoops. intros H Hr.
  apply bind_Some in H as (mins & E1 & H).
  apply bind_Some in H as (st & E2 & [= <-]). cbn [minLoops].
  apply elem_of_map_to_list in Hr.
  pose proof (minmax_read_at _ _ _ _ _ _ E1 (NoDup_fst_map_to_list _) Hr) as H1.
  rewrite minimum_app.
  destruct (writes RnW !! x) as [wts|] eqn:Ew; simpl.
  - apply elem_of_map_to_list in Ew.
    rewrite (minmax_write_at _ _ _ _ _ _ E2 (NoDup_fst_map_to_list _) Ew).
    simpl. rewrite H1. simpl. f_equal.
    set (m0 := default INT_MAX (minLoops cfg !! x)).
    generalize (depths (basicBlocks cfg) rds) as l1.
    generalize (depths (basicBlocks cfg) wts) as l2. intros l2 l1.
    pose proof (minimum_le l1 m0).
    unfold minimum in *. induction l2 as [|a l2 IH]; cbn [foldr app]; lia.
  - rewrite (minmax_write_other _ _ _ _ _ E2); simpl.
    + rewrite H1. f_equal.
      pose proof (minimum_le (depths (basicBlocks cfg) rds)
                    (default INT_MAX (minLoops cfg !! x))).
      replace (depths (basicBlocks cfg) ∅) with (@nil Z)
        by (unfold depths; by rewrite elements_empty).
      change (minimum [] ?t) with t. lia.
    + intros [[y s] [Hy Hin]]%list_elem_of_fmap. simpl in Hy. subst y.
      apply elem_of_map_to_list in Hin. congruence.
Qed.

Lemma computeMinMaxLoops_minLoops_witness :
  ∃ cfg',
    computeMinMaxLoops depth_RnW depth_cfg = Some cfg' ∧
    minLoops cfg' !! var 5
    = Some (minimum (depths (basicBlocks depth_cfg) {[ 2 ]}
                     ++ depths (basicBlocks depth_cfg)
                          (default ∅ (writes depth_RnW !! var 5)))
                    (default INT_MAX (minLoops depth_cfg !! var 5))).
Proof.
  eassert (computeMinMaxLoops depth_RnW depth_cfg = Some _) as E
    by (vm_compute; reflexivity).
  eexists. split; [exact E|].
  apply (computeMinMaxLoops_minLoops depth_RnW depth_cfg _ (var 5) {[ 2 ]} E).
  vm_compute. reflexivity.
Defined.

(** C2, refuted as stated: in [depth_cfg] the variable [var 5] is read in
    block 2 only, at loop depth 2, and written in block 0 at depth 0; the
    write pass lowers its [minLoops] entry to 0, below the least depth of its
    reading blocks. *)
Lemma minLoops_lowered_by_write :
  ∃ cfg',
    computeMinMaxLoops depth_RnW depth_cfg = Some cfg' ∧
    reads depth_RnW !! var 5 = Some {[ 2 ]} ∧
    minimum (depths (basicBlocks depth_cfg) {[ 2 ]}) INT_MAX = 2%Z ∧
    minLoops cfg' !! var 5 = Some 0%Z ∧
    minLoops cfg' !! var 5
    ≠ Some (minimum (depths (basicBlocks depth_cfg) {[ 2 ]}) INT_MAX).
Proof.
  eexists. split; [vm_compute; reflexivity|].
  split; [vm_compute; reflexivity|].
  split; [vm_compute; reflexivity|].
  split; [vm_compute; reflexivity|].
  vm_compute. discriminate.
Qed.

(** ** [dealias]: what it leaves alone *)

Lemma dealiased_trans ctx u v w :
  dealiased ctx u v → dealiased ctx v w → dealiased ctx u w.
Proof.
  intros Huv Hvw. revert Huv. induction Hvw; intros; [done|].
  constructor; auto.
Qed.

Lemma dealiased_maybeDealias ctx v m : dealiased ctx v (maybeDealias ctx v m).
Proof. repeat constructor. Qed.

(** A variable that is no synthetic temporary is never replaced. *)
Lemma dealiased_source_variable ctx v v' :
  dealiased ctx v v' → isSyntheticTemporary v ctx = false → v' = v.
Proof.
  induction 1 as [|v v' m _ IH]; intros Hv; [done|].
  rewrite (IH Hv). unfold maybeDealias. by rewrite Hv.
Qed.

Lemma instr_frame_refl ctx i : instr_frame ctx i i.
Proof.
  destruct i; simpl; eauto using dealiased_refl.
  eexists _, _. split_and!; [done|constructor|].
  apply Forall_Forall2_diag, Forall_forall. intros; constructor.
Qed.

Lemma instr_frame_trans ctx i j k :
  instr_frame ctx i j → instr_frame ctx j k → instr_frame ctx i k.
Proof.
  destruct i; simpl; try (by intros -> ->).
  - intros (w1 & -> & H1) (w2 & -> & H2). eauto using dealiased_trans.
  - intros (r1 & a1 & -> & H1 & Ha1) (r2 & a2 & -> & H2 & Ha2).
    eexists _, _. split_and!; [done|by eapply dealiased_trans|].
    eapply Forall2_trans; [|done..]. apply dealiased_trans.
  - intros (w1 & -> & H1) (w2 & -> & H2). eauto using dealiased_trans.
Qed.

Lemma binding_frame_refl ctx e : binding_frame ctx e e.
Proof. split; [done|apply instr_frame_refl]. Qed.

Lemma binding_frame_trans ctx e1 e2 e3 :
  binding_frame ctx e1 e2 → binding_frame ctx e2 e3 → binding_frame ctx e1 e3.
Proof.
  intros [H1 H2] [H3 H4]. split; [congruence|by eapply instr_frame_trans].
Qed.

Lemma block_frame_refl ctx b : block_frame ctx b b.
Proof.
  repeat split; [constructor|].
  apply Forall_Forall2_diag, Forall_forall. intros; apply binding_frame_refl.
Qed.

Lemma block_frame_trans ctx b1 b2 b3 :
  block_frame ctx b1 b2 → block_frame ctx b2 b3 → block_frame ctx b1 b3.
Proof.
  intros (?&?&?&?&?&?&?&Hc&He) (?&?&?&?&?&?&?&Hc'&He').
  repeat split; try congruence; [by eapply dealiased_trans|].
  eapply Forall2_trans; [|done..]. apply binding_frame_trans.
Qed.

Lemma dealias_binding_frame ctx current e :
  binding_frame ctx e (dealias_binding ctx current e).1.
Proof.
  destruct e as [k i]. split; [done|]. destruct i; simpl; try done.
  - eexists. split; [done|]. repeat constructor.
  - eexists _, _. split_and!; [done|repeat constructor|].
    apply Forall2_fmap_r, Forall_Forall2_diag, Forall_forall.
    intros; repeat constructor.
  - eexists. split; [done|]. repeat constructor.
Qed.

Lemma dealias_exprs_frame ctx es : ∀ current,
  Forall2 (binding_frame ctx) es (dealias_exprs ctx current es).1.
Proof.
  induction es as [|e es IH]; intros current; cbn [dealias_exprs];
    [constructor|].
  pose proof (dealias_binding_frame ctx current e) as He.
  destruct (dealias_binding ctx current e) as [e' c1].
  specialize (IH c1). destruct (dealias_exprs ctx c1 es) as [es' c2].
  by constructor.
Qed.

Lemma dealias_cond_frame ctx current x :
  thenb (dealias_cond ctx current x) = thenb x ∧
  elseb (dealias_cond ctx current x) = elseb x ∧
  dealiased ctx (cond x) (cond (dealias_cond ctx current x)).
Proof.
  unfold dealias_cond. destruct (exists_ (cond x)); simpl;
    repeat split; repeat constructor.
Qed.

(** What one run of the loop body does to the store: nothing, or an update
    of the blocks that [bb] names with new bindings and a new condition. *)
Lemma dealias_block_inv ctx dead bs oa bb bs' oa' :
  dealias_block ctx dead (bs, oa) bb = Some (bs', oa') →
  (bb = dead ∧ bs' = bs ∧ oa' = oa) ∨
  ∃ b oa1 current,
    bb ≠ dead ∧ deref bs bb = Some b ∧
    dealias_seed bs oa (id b) (backEdges b) = Some oa1 ∧
    oa1 !! id b = Some current ∧
    bs' = update bb
            (λ x, set_bexit
                    (dealias_cond ctx (dealias_exprs ctx current (exprs b)).2
                                  (bexit x))
                    (set_exprs (dealias_exprs ctx current (exprs b)).1 x)) bs ∧
    oa' = <[id b := (dealias_exprs ctx current (exprs b)).2]> oa1.
Proof.
  unfold dealias_block. intros H. destruct (Nat.eqb_spec bb dead).
  { left. by simplify_eq. }
  right. simpl in H.
  apply bind_Some in H as (b & Eb & H).
  apply bind_Some in H as (oa1 & Es & H).
  apply bind_Some in H as (current & Ec & H).
  destruct (dealias_exprs ctx current (exprs b)) as [es cur'] eqn:Ee.
  injection H as <- <-. exists b, oa1, current. rewrite Ee. by split_and!.
Qed.

Lemma dealias_block_frame ctx dead st bb st' :
  dealias_block ctx dead st bb = Some st' →
  Forall2 (block_frame ctx) st.1 st'.1.
Proof.
  destruct st as [bs oa], st' as [bs' oa']. intros H.
  apply dealias_block_inv in H
    as [(_ & -> & _)|(b & oa1 & current & _ & Hb & _ & _ & -> & _)]; simpl.
  { apply Forall_Forall2_diag, Forall_forall. intros; apply block_frame_refl. }
  apply update_Forall2; [apply block_frame_refl|]. intros x Hx.
  assert (x = b) as -> by congruence.
  pose proof (dealias_cond_frame ctx (dealias_exprs ctx current (exprs b)).2
                (bexit b)) as (? & ? & ?).
  repeat split; simpl; try done. apply dealias_exprs_frame.
Qed.

Lemma dealias_run_frame ctx dead l : ∀ st st',
  foldM (dealias_block ctx dead) st l = Some st' →
  Forall2 (block_frame ctx) st.1 st'.1.
Proof.
  intros st st' H.
  eapply (foldM_invariant (λ s, Forall2 (block_frame ctx) st.1 s.1)); [done| |].
  - apply Forall_Forall2_diag, Forall_forall. intros; apply block_frame_refl.
  - intros s x s' _ Hs Hstep. apply dealias_block_frame in Hstep.
    eapply Forall2_trans; [|done..]. apply block_frame_trans.
Qed.

(** C10: [dealias] keeps the blocks and their order, and in every block the
    id, the back-edges, both exit targets, the flags, the loop depth, the
    arguments, and the number, order and bound variables of the bindings;
    every instruction keeps its kind, a [Send] its method name and its number
    of arguments, and an operand of [Ident], [Send] or [Return] or the exit
    condition is either the one it was or what [maybeDealias] lookups made of
    it (which for a variable that is no synthetic temporary is the variable
    itself).  The other fields of the graph are not touched. *)
Theorem dealias_frame ctx cfg cfg' :
  dealias ctx cfg = Some cfg' →
  cfg_frame ctx cfg cfg' ∧
  (∀ v v', dealiased ctx v v' →
           isSyntheticTemporary v ctx = false → v' = v).
Proof.
  unfold dealias, dealias_run. intros H.
  apply bind_Some in H as (st & Hrun & [= <-]).
  split; [|apply dealiased_source_variable].
  apply dealias_run_frame in Hrun. by repeat split.
Qed.

Lemma dealias_frame_witness :
  ∃ cfg', dealias sample_ctx chain_cfg = Some cfg' ∧
          cfg_frame sample_ctx chain_cfg cfg' ∧
          deref (basicBlocks cfg') 0
          = Some (block 0 [ mkBinding (var 100) (Ident (var 5));
                            mkBinding (var 101) (Ident (var 5));
                            mkBinding (var 102) (Ident (var 5));
                            mkBinding (var 103)
                              (Send (var 5) 9 [var 5; var 6]) ]
                          (var 103) 2 1 []).
Proof.
  eassert (dealias sample_ctx chain_cfg = Some _) as E
    by (vm_compute; reflexivity).
  eexists. split; [exact E|].
  split; [apply (dealias_frame sample_ctx chain_cfg _ E)|].
  vm_compute. reflexivity.
Defined.

(** ** [dealias]: a second run *)

Lemma foldM_ext {A B} (f g : A → B → option A) l :
  (∀ a x, f a x = g a x) → ∀ a, foldM f a l = foldM g a l.
Proof.
  intros Hfg. induction l as [|x l IH]; intros a; simpl; [done|].
  rewrite Hfg. destruct (g a x); simpl; auto.
Qed.

Lemma update_fixed p f bs b :
  deref bs p = Some b → f b = b → update p f bs = bs.
Proof.
  unfold deref. induction bs as [|x bs IH]; simpl; [done|].
  destruct (id x =? p); intros H Hf; [simplify_eq; by rewrite Hf|].
  f_equal. by apply IH.
Qed.

Lemma id_of_update p f bs q :
  (∀ b, id (f b) = id b) → id_of (update p f bs) q = id_of bs q.
Proof.
  intros Hid. unfold id_of. rewrite deref_update by done.
  case_decide as Hq; [|done]. subst q.
  destruct (deref bs p); simpl; [by rewrite Hid | done].
Qed.

Section lookups.
Variable ctx : Context.

Lemma maybeDealias_submap (m m' : Aliases) v :
  m' ⊆ m → maybeDealias ctx v m = v → maybeDealias ctx v m' = v.
Proof.
  unfold maybeDealias. intros Hsub Hv.
  destruct (isSyntheticTemporary v ctx); [|done].
  destruct (m' !! v) as [w|] eqn:E; [|done].
  eapply lookup_weaken in E; [|done]. by rewrite E in Hv.
Qed.

Lemma maybeDealias_idem (m : Aliases) v :
  resolved ctx m →
  maybeDealias ctx (maybeDealias ctx v m) m = maybeDealias ctx v m.
Proof.
  intros Hm. unfold maybeDealias at 2 3.
  destruct (isSyntheticTemporary v ctx) eqn:Es.
  - destruct (m !! v) as [w|] eqn:E; [by eapply Hm|].
    unfold maybeDealias. by rewrite Es, E.
  - unfold maybeDealias. by rewrite Es.
Qed.

Lemma resolved_submap (m m' : Aliases) :
  resolved ctx m → m' ⊆ m → resolved ctx m'.
Proof.
  intros Hm Hsub k v Hk. eapply maybeDealias_submap; [done|].
  eapply Hm, lookup_weaken; done.
Qed.

Lemma resolved_empty : resolved ctx ∅.
Proof. by intros k v ?%lookup_empty_Some. Qed.

Lemma invalidate_subseteq b (m : Aliases) : invalidate b m ⊆ m.
Proof. apply map_filter_subseteq. Qed.

Lemma meet_subseteq (m other : Aliases) : meet m other ⊆ m.
Proof. apply map_filter_subseteq. Qed.

Lemma invalidate_no_value b (m : Aliases) j : invalidate b m !! j ≠ Some b.
Proof.
  unfold invalidate. intros [_ H]%map_lookup_filter_Some. by apply H.
Qed.

(** Recording [k := w] keeps the map resolved when no entry leads to [k] and
    [w] is itself left alone by a lookup. *)
Lemma resolved_record (m : Aliases) k w :
  resolved ctx m → maybeDealias ctx w m = w → (∀ j, m !! j ≠ Some k) →
  resolved ctx (<[k := w]> m).
Proof.
  intros Hm Hw Hk j v Hj.
  assert (maybeDealias ctx v m = v ∧ (v = k → v = w)) as [Hv Hvk].
  { destruct (decide (j = k)) as [->|Hne].
    - rewrite lookup_insert_eq in Hj. by simplify_eq.
    - rewrite lookup_insert_ne in Hj by done.
      split; [by eapply Hm|]. intros ->. by apply Hk in Hj. }
  unfold maybeDealias in *.
  destruct (isSyntheticTemporary v ctx); [|done].
  destruct (decide (v = k)) as [Hvk'|Hvk'].
  - subst k. rewrite lookup_insert_eq. symmetry. by apply Hvk.
  - by rewrite lookup_insert_ne.
Qed.

(** Run on its own output with the same aliases, the body of the loop over
    the bindings changes nothing and records the same aliases. *)
Lemma dealias_binding_idem current e :
  resolved ctx current →
  dealias_binding ctx current (dealias_binding ctx current e).1
  = dealias_binding ctx current e
  ∧ resolved ctx (dealias_binding ctx current e).2.
Proof.
  intros Hm. destruct e as [k i].
  pose proof (invalidate_subseteq k current) as Hsub.
  pose proof (resolved_submap _ _ Hm Hsub) as Hm'.
  unfold dealias_binding. destruct i; simpl; try done.
  - assert (maybeDealias ctx (maybeDealias ctx what current)
              (invalidate k current) = maybeDealias ctx what current) as Hw.
    { eapply maybeDealias_submap; [done|]. by apply maybeDealias_idem. }
    rewrite !Hw, maybeDealias_idem, Hw by done. split; [done|].
    apply resolved_record; [done|done|apply invalidate_no_value].
  - rewrite maybeDealias_idem by done. split; [|done]. do 3 f_equal.
    change (map ?f ?l) with (f <$> l).
    rewrite <- list_fmap_compose. apply list_fmap_ext. intros _ v _. simpl.
    by apply maybeDealias_idem.
  - rewrite maybeDealias_idem by done. done.
Qed.

Lemma dealias_exprs_idem es : ∀ current,
  resolved ctx current →
  dealias_exprs ctx current (dealias_exprs ctx current es).1
  = dealias_exprs ctx current es
  ∧ resolved ctx (dealias_exprs ctx current es).2.
Proof.
  induction es as [|e es IH]; intros current Hm; cbn [dealias_exprs]; [done|].
  destruct (dealias_binding_idem current e Hm) as [He Hm1].
  destruct (dealias_binding ctx current e) as [e' c1] eqn:E1.
  destruct (IH c1 Hm1) as [Hes Hm2].
  destruct (dealias_exprs ctx c1 es) as [es' c2] eqn:E2.
  cbn [fst snd dealias_exprs] in *. by rewrite He, Hes.
Qed.

Lemma dealias_cond_idem current x :
  resolved ctx current →
  dealias_cond ctx current (dealias_cond ctx current x)
  = dealias_cond ctx current x.
Proof.
  intros Hm. unfold dealias_cond.
  destruct (exists_ (cond x)) eqn:E; simpl; [|by rewrite E].
  destruct (exists_ (maybeDealias ctx (cond x) current)); simpl; [|done].
  unfold set_cond. simpl. by rewrite maybeDealias_idem.
Qed.

Lemma dealias_seed_ext bs bs' oa i parents :
  (∀ p, id_of bs p = id_of bs' p) →
  dealias_seed bs oa i parents = dealias_seed bs' oa i parents.
Proof.
  intros Hid. unfold dealias_seed. destruct (oa !! i); simpl; [|done].
  assert (match parents with
          | [] => Some oa
          | p :: _ => j ← id_of bs p; a ← oa !! j; Some (<[i := a]> oa)
          end
          = match parents with
            | [] => Some oa
            | p :: _ => j ← id_of bs' p; a ← oa !! j; Some (<[i := a]> oa)
            end) as ->.
  { destruct parents; [done|]. by rewrite Hid. }
  destruct (match parents with [] => _ | _ => _ end); simpl; [|done].
  apply foldM_ext. intros a x. by rewrite Hid.
Qed.

Lemma dealias_seed_resolved bs oa i parents oa' :
  Forall (resolved ctx) oa →
  dealias_seed bs oa i parents = Some oa' → Forall (resolved ctx) oa'.
Proof.
  unfold dealias_seed. intros Hoa H.
  apply bind_Some in H as (_ & _ & H).
  apply bind_Some in H as (oa1 & E1 & H).
  assert (Forall (resolved ctx) oa1) as Hoa1.
  { destruct parents as [|p ?]; [by simplify_eq|].
    apply bind_Some in E1 as (j & _ & E1).
    apply bind_Some in E1 as (a & Ea & [= <-]).
    apply Forall_insert; [done|]. by eapply Forall_lookup_1. }
  eapply (foldM_invariant (Forall (resolved ctx))); [done..|].
  intros a x a' _ Ha Hstep.
  apply bind_Some in Hstep as (j & _ & Hstep).
  apply bind_Some in Hstep as (other & _ & Hstep).
  apply bind_Some in Hstep as (cur & Hcur & [= <-]).
  apply Forall_insert; [done|].
  eapply resolved_submap; [|apply meet_subseteq]. by eapply Forall_lookup_1.
Qed.

Lemma dealias_block_dead dead st : dealias_block ctx dead st dead = Some st.
Proof. unfold dealias_block. by rewrite Nat.eqb_refl. Qed.

Lemma dealias_run_untouched dead l bb : ∀ st st',
  foldM (dealias_block ctx dead) st l = Some st' →
  bb ∉ l → deref st'.1 bb = deref st.1 bb.
Proof.
  induction l as [|x l IH]; intros st st' H Hbb; [by injection H as <-|].
  rewrite foldM_cons in H. apply bind_Some in H as (st1 & E & H).
  apply not_elem_of_cons in Hbb as [Hne Hbb].
  rewrite (IH _ _ H Hbb). destruct st as [bs oa], st1 as [bs1 oa1].
  apply dealias_block_inv in E
    as [(_ & -> & _)|(b & ? & ? & _ & _ & _ & _ & -> & _)]; [done|].
  simpl. rewrite deref_update by done. by rewrite decide_False.
Qed.

Lemma dealias_run_ids dead l p : ∀ st st',
  foldM (dealias_block ctx dead) st l = Some st' →
  id_of st'.1 p = id_of st.1 p.
Proof.
  intros st st' H.
  eapply (foldM_invariant (λ s, id_of s.1 p = id_of st.1 p)); [done|done|].
  intros [bs oa] x [bs1 oa1] _ Hs E. rewrite <- Hs.
  apply dealias_block_inv in E
    as [(_ & -> & _)|(b & ? & ? & _ & _ & _ & _ & -> & _)]; [done|].
  simpl. by apply id_of_update.
Qed.

Lemma dealias_run_length dead l : ∀ st st',
  foldM (dealias_block ctx dead) st l = Some st' →
  length st'.1 = length st.1.
Proof.
  intros st st' H. apply dealias_run_frame in H.
  symmetry. by eapply Forall2_length.
Qed.

(** Started again on the blocks the loop ends with and on the aliases it
    began with, the loop runs as before and changes no block. *)
Lemma dealias_rerun dead l : NoDup l → ∀ bsA oaA bsF oaF,
  Forall (resolved ctx) oaA →
  foldM (dealias_block ctx dead) (bsA, oaA) l = Some (bsF, oaF) →
  foldM (dealias_block ctx dead) (bsF, oaA) l = Some (bsF, oaF).
Proof.
  induction 1 as [|bb l Hbb Hnd IH]; intros bsA oaA bsF oaF Hoa H.
  { by injection H as <- <-. }
  rewrite foldM_cons in H. apply bind_Some in H as ([bsA1 oaA1] & E & H).
  pose proof (dealias_run_untouched _ _ _ _ _ H Hbb) as Hunt.
  pose proof (λ p, dealias_run_ids _ _ p _ _ H) as Hids.
  simpl in Hunt, Hids.
  rewrite foldM_cons.
  apply dealias_block_inv in E
    as [(-> & -> & ->)|(b & oa1 & cur & Hne & Hb & Hseed & Hcur & -> & ->)].
  { rewrite dealias_block_dead. simpl. by eapply IH. }
  destruct (dealias_exprs ctx cur (exprs b)) as [es cur'] eqn:Ee.
  simpl in *.
  pose proof (dealias_seed_resolved _ _ _ _ _ Hoa Hseed) as Hoa1.
  pose proof (Forall_lookup_1 _ _ _ _ Hoa1 Hcur) as Hres.
  destruct (dealias_exprs_idem (exprs b) cur Hres) as [Hidem Hres'].
  rewrite Ee in Hidem, Hres'. simpl in *.
  rewrite deref_update, decide_True, Hb in Hunt by done. simpl in Hunt.
  assert (dealias_block ctx dead (bsF, oaA) bb
          = Some (bsF, <[id b := cur']> oa1)) as ->.
  { unfold dealias_block. destruct (Nat.eqb_spec bb dead); [done|].
    simpl. rewrite Hunt. simpl.
    rewrite (dealias_seed_ext bsF bsA).
    2:{ intros p. rewrite Hids. by apply id_of_update. }
    rewrite Hseed. simpl. rewrite Hcur. simpl. rewrite Hidem.
    do 2 f_equal. eapply update_fixed; [done|].
    unfold set_bexit, set_exprs. simpl. f_equal.
    by apply dealias_cond_idem. }
  simpl. eapply IH; [|done]. by apply Forall_insert.
Qed.

End lookups.

(** C8: when [backwardsTopoSort] lists no block twice, running [dealias] on
    the graph that [dealias] returned returns that graph again: no operand
    and no exit condition is replaced. *)
Theorem dealias_idempotent ctx cfg cfg' :
  NoDup (backwardsTopoSort cfg) →
  dealias ctx cfg = Some cfg' →
  dealias ctx cfg' = Some cfg'.
Proof.
  unfold dealias, dealias_run. intros Hnd H.
  apply bind_Some in H as ([bsF oaF] & Hrun & [= <-]).
  pose proof (dealias_run_length _ _ _ _ _ Hrun) as Hlen.
  simpl in *. rewrite Hlen.
  assert (Forall (resolved ctx) (replicate (length (basicBlocks cfg)) ∅))
    as Hres by apply Forall_replicate, resolved_empty.
  by rewrite (dealias_rerun ctx _ _ Hnd _ _ _ _ Hres Hrun).
Qed.

Lemma dealias_idempotent_witness :
  ∃ cfg', NoDup (backwardsTopoSort chain_cfg) ∧
          dealias sample_ctx chain_cfg = Some cfg' ∧
          cfg' ≠ chain_cfg ∧
          dealias sample_ctx cfg' = Some cfg'.
Proof.
  assert (NoDup (backwardsTopoSort chain_cfg)) as Hnd.
  { apply NoDup_ListNoDup. repeat constructor; cbn; lia. }
  eassert (dealias sample_ctx chain_cfg = Some _) as E
    by (vm_compute; reflexivity).
  eexists. split; [exact Hnd|]. split; [exact E|].
  split; [by vm_compute|].
  exact (dealias_idempotent sample_ctx chain_cfg _ Hnd E).
Defined.

(** ** [dealias]: when it is defined *)

Lemma id_of_bound bs p i n :
  Forall (λ b, id b < n) bs → id_of bs p = Some i → i < n.
Proof.
  intros Hn H. unfold id_of in H. apply bind_Some in H as (b & Hb & [= <-]).
  apply deref_Some in Hb as [Hin _]. rewrite Forall_forall in Hn. auto.
Qed.

Lemma dealias_seed_defined bs (oa : list Aliases) i parents :
  i < length oa →
  Forall (λ p, ∃ j, id_of bs p = Some j ∧ j < length oa) parents →
  ∃ oa', dealias_seed bs oa i parents = Some oa' ∧ length oa' = length oa.
Proof.
  intros Hi Hp. unfold dealias_seed.
  destruct (lookup_lt_is_Some_2 oa i Hi) as [cur0 Hcur0].
  rewrite Hcur0. simpl.
  assert (∃ oa1, match parents with
                 | [] => Some oa
                 | p :: _ => j ← id_of bs p; a ← oa !! j; Some (<[i := a]> oa)
                 end = Some oa1 ∧ length oa1 = length oa) as (oa1 & -> & Hl1).
  { destruct parents as [|p ps]; [by eexists|].
    apply Forall_cons in Hp as [(j & -> & Hj) _]. simpl.
    destruct (lookup_lt_is_Some_2 oa j Hj) as [a ->]. simpl.
    eexists. split; [done|]. by rewrite length_insert. }
  simpl. rewrite <- Hl1 in Hi, Hp. rewrite <- Hl1. clear Hl1 Hcur0.
  revert oa1 Hi Hp. induction parents as [|p ps IH]; intros oa1 Hi Hp.
  { by eexists. }
  apply Forall_cons in Hp as [(j & Ej & Hj) Hp].
  rewrite foldM_cons, Ej. simpl.
  destruct (lookup_lt_is_Some_2 oa1 j Hj) as [other ->]. simpl.
  destruct (lookup_lt_is_Some_2 oa1 i Hi) as [cur ->]. simpl.
  destruct (IH (<[i := meet cur other]> oa1)) as (oa' & -> & Hl).
  - by rewrite length_insert.
  - by rewrite length_insert.
  - exists oa'. split; [done|]. by rewrite Hl, length_insert.
Qed.

(** X21: [dealias] runs on every graph whose block ids index [outAliases]
    and whose [backwardsTopoSort] and back-edges name live blocks. *)
Lemma dealias_defined ctx cfg :
  dense_ids (basicBlocks cfg) → no_dangling cfg → is_Some (dealias ctx cfg).
Proof.
  intros Hd (_ & Hbwd & Hblocks). unfold dealias, dealias_run.
  set (bs0 := basicBlocks cfg) in *. set (n := length bs0).
  set (P := λ b : BasicBlock,
         id b < n ∧ Forall (λ p, is_Some (id_of bs0 p)) (backEdges b)).
  assert (∀ p, is_Some (deref bs0 p) → is_Some (id_of bs0 p)) as Hlive.
  { intros p [b Hb]. unfold id_of. rewrite Hb. by eexists. }
  assert (∀ l st,
            l ⊆ backwardsTopoSort cfg → length st.2 = n →
            Forall P st.1 → (∀ p, id_of st.1 p = id_of bs0 p) →
            is_Some (foldM (dealias_block ctx (deadBlock cfg)) st l)) as Hgen.
  { induction l as [|bb l IH]; intros [bs oa] Hl Hlen HP Hids; [by eexists|].
    cbn [fst snd] in *. rewrite foldM_cons.
    assert (∃ st1, dealias_block ctx (deadBlock cfg) (bs, oa) bb = Some st1
                   ∧ length st1.2 = n ∧ Forall P st1.1
                   ∧ ∀ p, id_of st1.1 p = id_of bs0 p)
      as (st1 & -> & Hlen1 & HP1 & Hids1).
    { unfold dealias_block. destruct (bb =? deadBlock cfg); [by eexists|].
      simpl. rewrite Forall_forall in Hbwd.
      destruct (Hlive bb) as [i Hi]; [apply Hbwd; set_solver|].
      rewrite <- Hids in Hi. unfold id_of in Hi.
      apply bind_Some in Hi as (b & Eb & _). rewrite Eb. simpl.
      destruct (deref_Some _ _ _ Eb) as [Hin _].
      pose proof HP as HP'. rewrite Forall_forall in HP'.
      destruct (HP' b Hin) as [Hidb Hedges].
      destruct (dealias_seed_defined bs oa (id b) (backEdges b))
        as (oa1 & -> & Hl1); [lia| |].
      { eapply Forall_impl; [done|]. intros p [j Hj]. simpl in *.
        exists j. rewrite Hids. split; [done|].
        rewrite <- Hids in Hj. rewrite Hlen.
        eapply id_of_bound; [|done].
        eapply Forall_impl; [exact HP|]. by intros ? [? _]. }
      simpl. destruct (lookup_lt_is_Some_2 oa1 (id b)) as [cur ->]; [lia|].
      simpl. destruct (dealias_exprs ctx cur (exprs b)) as [es cur'].
      eexists. split; [done|]. simpl. split_and!.
      - rewrite length_insert. lia.
      - apply update_Forall; [done|]. by intros x _ [? ?].
      - intros p. rewrite id_of_update by done. apply Hids. }
    simpl. apply IH; [set_solver|done..]. }
  destruct (Hgen (backwardsTopoSort cfg)
              (bs0, replicate (length bs0) (∅ : Aliases))) as [st Hst].
  - done.
  - apply length_replicate.
  - simpl. unfold dense_ids in Hd. rewrite Forall_forall in Hd, Hblocks.
    apply Forall_forall. intros b Hb. split; [by apply Hd|].
    destruct (Hblocks b Hb) as (_ & _ & He).
    eapply Forall_impl; [exact He|]. intros p ?. by apply Hlive.
  - done.
  - eapply is_Some_bind; [exact Hst|]. by eexists.
Qed.

(** ** The fixpoint loops of [fillInBlockArguments] *)

Lemma slot_insert_eq (v : list VarSet) i old x :
  v !! i = Some old → slot (<[i := x]> v) i = x.
Proof.
  intros H. unfold slot. rewrite list_lookup_insert_eq; [done|].
  by eapply lookup_lt_Some.
Qed.

Lemma slot_insert_ne (v : list VarSet) i j x :
  i ≠ j → slot (<[i := x]> v) j = slot v j.
Proof. intros H. unfold slot. by rewrite list_lookup_insert_ne. Qed.

Lemma slot_lookup (v : list VarSet) i s : v !! i = Some s → slot v i = s.
Proof. unfold slot. by intros ->. Qed.

Lemma slot_replicate n i : slot (replicate n ∅) i = ∅.
Proof.
  unfold slot. destruct (replicate n ∅ !! i) as [s|] eqn:E; [|done].
  by apply lookup_replicate in E as [-> _].
Qed.

Lemma total_insert (v : list VarSet) i old new :
  v !! i = Some old → total (<[i := new]> v) + size old = total v + size new.
Proof.
  unfold total. revert i. induction v as [|s v IH]; intros [|i] H;
    simplify_eq/=; [lia|].
  specialize (IH i H). lia.
Qed.

Lemma total_bound (v : list VarSet) U :
  Forall (λ s, s ⊆ U) v → total v ≤ length v * size U.
Proof.
  unfold total. induction 1 as [|s v Hs _ IH]; simpl; [lia|].
  apply subseteq_size in Hs. lia.
Qed.

Section fixpoint.
Variables (bs : list BasicBlock) (order : list BlockRef) (n : nat).
Variable F : list VarSet → BasicBlock → VarSet.
Variable step : list VarSet * bool → BlockRef → option (list VarSet * bool).
Variable U : VarSet.

Hypothesis F_mono : ∀ v v' b,
  (∀ i, slot v i ⊆ slot v' i) → F v b ⊆ F v' b.
Hypothesis F_bound : ∀ v b, Forall (λ s, s ⊆ U) v → F v b ⊆ U.
Hypothesis step_spec : ∀ v c bb v' c',
  step (v, c) bb = Some (v', c') →
  ∃ b old, deref bs bb = Some b ∧ v !! id b = Some old ∧
           v' = <[id b := old ∪ F v b]> v ∧
           c' = c || negb (size (old ∪ F v b) =? size old).
Hypothesis step_defined : ∀ v c bb,
  length v = n → bb ∈ order → is_Some (step (v, c) bb).

(** One run of the body: the vector grows in one slot, or nothing changes
    and the slot already held what [F] asks for. *)
Lemma step_cases v c bb v' c' :
  step (v, c) bb = Some (v', c') →
  length v' = length v ∧ (∀ i, slot v i ⊆ slot v' i) ∧
  (Forall (λ s, s ⊆ U) v → Forall (λ s, s ⊆ U) v') ∧
  (∀ T, closed_under bs order F T → bb ∈ order →
        (∀ i, slot v i ⊆ slot T i) → ∀ i, slot v' i ⊆ slot T i) ∧
  ((c' = true ∧ total v < total v') ∨
   (c' = c ∧ v' = v ∧ ∀ b, deref bs bb = Some b → F v b ⊆ slot v (id b))).
Proof.
  intros H. apply step_spec in H as (b & old & Hb & Hold & -> & ->).
  split; [by rewrite length_insert|].
  assert (∀ i, slot v i ⊆ slot (<[id b:=old ∪ F v b]> v) i) as Hgrow.
  { intros i. destruct (decide (id b = i)) as [<-|Hne].
    - rewrite (slot_insert_eq _ _ old), (slot_lookup _ _ _ Hold) by done.
      set_solver.
    - by rewrite slot_insert_ne. }
  split; [done|]. split_and!.
  - intros HU. apply Forall_insert; [done|].
    pose proof (Forall_lookup_1 _ _ _ _ HU Hold). simpl in *.
    pose proof (F_bound v b HU). set_solver.
  - intros T HT Hbb Hle i. destruct (decide (id b = i)) as [<-|Hne].
    + rewrite (slot_insert_eq _ _ old) by done.
      pose proof (Hle (id b)) as Hi. rewrite (slot_lookup _ _ _ Hold) in Hi.
      pose proof (F_mono v T b Hle). pose proof (HT bb b Hbb Hb). set_solver.
    + by rewrite slot_insert_ne.
  - destruct (Nat.eqb_spec (size (old ∪ F v b)) (size old)) as [Hsz|Hsz].
    + right. rewrite orb_false_r.
      assert (old ∪ F v b = old) as Heq.
      { symmetry. apply set_subseteq_size_eq; [set_solver|lia]. }
      rewrite Heq. split; [done|]. split; [by apply list_insert_id|].
      intros b' Hb'. assert (b' = b) as -> by congruence.
      rewrite (slot_lookup _ _ _ Hold). set_solver.
    + left. rewrite orb_true_r. split; [done|].
      pose proof (total_insert v (id b) old (old ∪ F v b) Hold).
      assert (size old ≤ size (old ∪ F v b)) by (apply subseteq_size; set_solver).
      lia.
Qed.

Lemma pass_defined l : ∀ st,
  l ⊆ order → length st.1 = n → is_Some (foldM step st l).
Proof.
  induction l as [|bb l IH]; intros [v c] Hl Hlen; [by eexists|].
  rewrite foldM_cons.
  destruct (step_defined v c bb Hlen) as [[v' c'] Hs]; [set_solver|].
  rewrite Hs. simpl. apply IH; [set_solver|].
  apply step_cases in Hs as (Hlen' & _). simpl in *. congruence.
Qed.

Lemma pass_sticky l : ∀ v v' c',
  foldM step (v, true) l = Some (v', c') → c' = true.
Proof.
  induction l as [|bb l IH]; intros v v' c' H; [by injection H as _ <-|].
  rewrite foldM_cons in H. apply bind_Some in H as ([v1 c1] & Hs & H).
  apply step_cases in Hs as (_ & _ & _ & _ & [[-> _]|[-> _]]); by eapply IH.
Qed.

(** A pass that leaves [changed] unset has changed nothing, and every slot
    it went through held what [F] asks for. *)
Lemma pass_quiet l : ∀ v v',
  foldM step (v, false) l = Some (v', false) →
  v' = v ∧ ∀ bb b, bb ∈ l → deref bs bb = Some b → F v b ⊆ slot v (id b).
Proof.
  induction l as [|bb l IH]; intros v v' H.
  { injection H as <-. split; [done|]. by intros ?? ?%elem_of_nil. }
  rewrite foldM_cons in H. apply bind_Some in H as ([v1 c1] & Hs & H).
  apply step_cases in Hs as (_ & _ & _ & _ & [[-> _]|(-> & -> & Hgood)]).
  { by apply pass_sticky in H. }
  apply IH in H as [-> Hl]. split; [done|].
  intros x b [->|Hx]%elem_of_cons Hb; eauto.
Qed.

Lemma pass_grows l : ∀ v c v' c',
  foldM step (v, c) l = Some (v', c') →
  l ⊆ order →
  length v' = length v ∧ (∀ i, slot v i ⊆ slot v' i) ∧
  (Forall (λ s, s ⊆ U) v → Forall (λ s, s ⊆ U) v') ∧
  (∀ T, closed_under bs order F T →
        (∀ i, slot v i ⊆ slot T i) → ∀ i, slot v' i ⊆ slot T i) ∧
  total v ≤ total v' ∧ (c = false → c' = true → total v < total v').
Proof.
  induction l as [|bb l IH]; intros v c v' c' H Hl.
  { injection H as <- <-. split_and!; try done. by intros ->. }
  rewrite foldM_cons in H. apply bind_Some in H as ([v1 c1] & Hs & H).
  apply step_cases in Hs as (Hlen & Hsub & HU & HT & Hc).
  apply IH in H as (Hlen' & Hsub' & HU' & HT' & Htot & Hc'); [|set_solver].
  split_and!.
  - congruence.
  - intros i. etrans; [apply Hsub|apply Hsub'].
  - auto.
  - intros T Hcl Hle. apply HT'; [done|]. apply HT; [done|set_solver|done].
  - destruct Hc as [[_ ?]|(_ & -> & _)]; lia.
  - intros -> ->. destruct Hc as [[_ ?]|(-> & -> & _)]; [lia|]. by apply Hc'.
Qed.

(** With enough fuel the loop ends, in a vector that is closed under [F] and
    below every closed vector that the initial vector is below. *)
Lemma fixpoint_loop_spec fuel : ∀ v,
  length v = n → Forall (λ s, s ⊆ U) v → n * size U < fuel + total v →
  ∃ v', fixpoint_loop fuel step order v = Some v' ∧
        length v' = n ∧ closed_under bs order F v' ∧
        ∀ T, closed_under bs order F T →
             (∀ i, slot v i ⊆ slot T i) → ∀ i, slot v' i ⊆ slot T i.
Proof.
  induction fuel as [|fuel IH]; intros v Hlen HU Hfuel.
  { pose proof (total_bound v U HU). simpl in *. rewrite Hlen in *. lia. }
  cbn [fixpoint_loop].
  destruct (pass_defined order (v, false)) as [[v1 c1] Hpass]; [done..|].
  rewrite Hpass. simpl.
  pose proof (pass_grows _ _ _ _ _ Hpass (reflexivity _))
    as (Hlen1 & Hsub & HU1 & HT & Htot & Hc).
  destruct c1.
  - destruct (IH v1) as (v' & Hloop & Hlen' & Hcl & Hleast);
      [congruence|auto|specialize (Hc eq_refl eq_refl); lia|].
    exists v'. split_and!; [done..|]. intros T HclT Hle. auto.
  - apply pass_quiet in Hpass as [-> Hgood].
    exists v. split_and!; [done..|]. auto.
Qed.

End fixpoint.

(** A vector that is closed and least among the closed vectors solves the
    equations. *)
Lemma least_closed_fixpoint bs order (F : list VarSet → BasicBlock → VarSet) v :
  (∀ v v' b, (∀ i, slot v i ⊆ slot v' i) → F v b ⊆ F v' b) →
  closed_under bs order F v →
  (∀ T, closed_under bs order F T → ∀ i, slot v i ⊆ slot T i) →
  least_fixpoint bs order F v.
Proof.
  intros F_mono Hcl Hleast. split; [|done]. intros bb b Hbb Hb.
  apply set_eq. intros x. split; [|by apply (Hcl bb b)].
  destruct (v !! id b) as [old|] eqn:Hold.
  2:{ unfold slot. rewrite Hold. simpl. set_solver. }
  set (T := <[id b := F v b]> v).
  assert (∀ i, slot T i ⊆ slot v i) as HTv.
  { intros i. unfold T. destruct (decide (id b = i)) as [<-|Hne].
    - rewrite (slot_insert_eq _ _ old) by done. by apply (Hcl bb b).
    - by rewrite slot_insert_ne. }
  assert (closed_under bs order F T) as HclT.
  { intros cc c Hcc Hc. etrans; [by apply F_mono|].
    unfold T. destruct (decide (id b = id c)) as [Heq|Hne].
    - assert (c = b) as ->.
      { apply deref_id in Hb as Hb', Hc as Hc'. congruence. }
      by rewrite (slot_insert_eq _ _ old).
    - rewrite slot_insert_ne by done. by apply (Hcl cc c). }
  intros Hx. pose proof (Hleast T HclT (id b)) as Hle.
  unfold T in Hle. rewrite (slot_insert_eq _ _ old) in Hle by done. auto.
Qed.

(** ** The bodies of the two fixpoint loops *)

Lemma insert_all_Some i s (v v' : list VarSet) :
  insert_all i s v = Some v' ↔ ∃ old, v !! i = Some old ∧ v' = <[i := old ∪ s]> v.
Proof.
  unfold insert_all. split.
  - intros H. apply bind_Some in H as (old & Hold & [= <-]). eauto.
  - intros (old & -> & ->). done.
Qed.

(** Lines 324-331 and 345-349: the bound of one neighbour [t] is added to
    the slot [ib], which already holds [cur]. *)
Lemma add_neighbour bs dead (v0 : list VarSet) ib old cur t ub' :
  v0 !! ib = Some old → old ⊆ cur →
  (if t =? dead then Some (<[ib := cur]> v0)
   else i ← id_of bs t; s ← <[ib := cur]> v0 !! i;
        insert_all ib s (<[ib := cur]> v0)) = Some ub' →
  ub' = <[ib := cur ∪ (if t =? dead then ∅ else slot v0 t)]> v0.
Proof.
  intros Hold Hsub H. pose proof (lookup_lt_Some _ _ _ Hold) as Hlt.
  destruct (t =? dead).
  { injection H as <-. by rewrite union_empty_r_L. }
  apply bind_Some in H as (i & Hi & H). apply id_of_Some in Hi as [-> _].
  apply bind_Some in H as (s & Hs & H).
  apply insert_all_Some in H as (cur1 & Hcur1 & ->).
  rewrite list_lookup_insert_eq in Hcur1 by done. injection Hcur1 as <-.
  rewrite list_insert_insert_eq. f_equal.
  destruct (decide (ib = t)) as [<-|Hne].
  - rewrite list_lookup_insert_eq in Hs by done. injection Hs as <-.
    rewrite (slot_lookup _ _ _ Hold). set_solver.
  - rewrite list_lookup_insert_ne in Hs by done.
    by rewrite (slot_lookup _ _ _ Hs).
Qed.

Lemma add_neighbour_defined bs dead (v0 : list VarSet) ib cur t :
  ib < length v0 → (∀ b, deref bs t = Some b → id b < length v0) →
  is_Some (deref bs t) →
  is_Some (if t =? dead then Some (<[ib := cur]> v0)
           else i ← id_of bs t; s ← <[ib := cur]> v0 !! i;
                insert_all ib s (<[ib := cur]> v0)).
Proof.
  intros Hib Hlt [b Hb]. destruct (t =? dead); [by eexists|].
  unfold id_of. rewrite Hb. simpl.
  destruct (lookup_lt_is_Some_2 (<[ib := cur]> v0) (id b)) as [s Hs].
  { rewrite length_insert. eauto. }
  rewrite Hs. simpl. unfold insert_all.
  rewrite list_lookup_insert_eq by done. by eexists.
Qed.

Lemma upper_bounds1_step_spec cfg reads_by_block v c bb v' c' :
  upper_bounds1_step cfg reads_by_block (v, c) bb = Some (v', c') →
  ∃ b old, deref (basicBlocks cfg) bb = Some b ∧ v !! id b = Some old ∧
           v' = <[id b := old ∪ reads_rhs cfg reads_by_block v b]> v ∧
           c' = c || negb (size (old ∪ reads_rhs cfg reads_by_block v b)
                           =? size old).
Proof.
  unfold upper_bounds1_step. cbn [fst snd]. intros H.
  apply bind_Some in H as (b & Hb & H).
  apply bind_Some in H as (old & Hold & H).
  apply bind_Some in H as (r & Hr & H).
  apply bind_Some in H as (ub1 & H1 & H).
  apply bind_Some in H as (ub2 & H2 & H).
  apply bind_Some in H as (ub3 & H3 & H).
  apply bind_Some in H as (new & Hnew & [= <- <-]).
  apply insert_all_Some in H1 as (old1 & Hold1 & ->).
  assert (old1 = old) as -> by congruence.
  apply (add_neighbour _ _ v (id b) old) in H2 as ->; [|done|set_solver].
  apply (add_neighbour _ _ v (id b) old) in H3 as ->; [|done|set_solver].
  rewrite list_lookup_insert_eq in Hnew by by eapply lookup_lt_Some.
  injection Hnew as <-.
  assert (old ∪ r
          ∪ (if thenb (bexit b) =? deadBlock cfg then ∅
             else slot v (thenb (bexit b)))
          ∪ (if elseb (bexit b) =? deadBlock cfg then ∅
             else slot v (elseb (bexit b)))
          = old ∪ reads_rhs cfg reads_by_block v b) as ->.
  { unfold reads_rhs. rewrite (slot_lookup _ _ _ Hr). set_solver. }
  by exists b, old.
Qed.

(** Lines 345-349: the loop over the back-edges. *)
Lemma add_backEdges bs dead (v0 : list VarSet) ib old edges : ∀ cur ub',
  v0 !! ib = Some old → old ⊆ cur →
  foldM (λ ub edge,
           if edge =? dead then Some ub
           else i ← id_of bs edge; e ← ub !! i; insert_all ib e ub)
        (<[ib := cur]> v0) edges = Some ub' →
  ub' = <[ib := cur ∪ ⋃ ((λ e, if e =? dead then ∅ else slot v0 e) <$> edges)]> v0.
Proof.
  induction edges as [|t edges IH]; intros cur ub' Hold Hsub H.
  { injection H as <-. simpl. by rewrite union_empty_r_L. }
  rewrite foldM_cons in H. apply bind_Some in H as (ub1 & H1 & H).
  apply (add_neighbour _ _ v0 ib old) in H1 as ->; [|done..].
  apply IH in H as ->; [|done|set_solver].
  f_equal. rewrite fmap_cons, union_list_cons. set_solver.
Qed.

Lemma upper_bounds2_step_spec cfg writes_by_block v c bb v' c' :
  upper_bounds2_step cfg writes_by_block (v, c) bb = Some (v', c') →
  ∃ b old, deref (basicBlocks cfg) bb = Some b ∧ v !! id b = Some old ∧
           v' = <[id b := old ∪ writes_rhs cfg writes_by_block v b]> v ∧
           c' = c || negb (size (old ∪ writes_rhs cfg writes_by_block v b)
                           =? size old).
Proof.
  unfold upper_bounds2_step. cbn [fst snd]. intros H.
  apply bind_Some in H as (b & Hb & H).
  apply bind_Some in H as (old & Hold & H).
  apply bind_Some in H as (w & Hw & H).
  apply bind_Some in H as (ub1 & H1 & H).
  apply bind_Some in H as (ub2 & H2 & H).
  apply bind_Some in H as (new & Hnew & [= <- <-]).
  apply insert_all_Some in H1 as (old1 & Hold1 & ->).
  assert (old1 = old) as -> by congruence.
  apply (add_backEdges _ _ v (id b) old) in H2 as ->; [|done|set_solver].
  rewrite list_lookup_insert_eq in Hnew by by eapply lookup_lt_Some.
  injection Hnew as <-.
  assert (old ∪ w
          ∪ ⋃ ((λ e, if e =? deadBlock cfg then ∅ else slot v e)
               <$> backEdges b)
          = old ∪ writes_rhs cfg writes_by_block v b) as ->.
  { unfold writes_rhs. rewrite (slot_lookup _ _ _ Hw). set_solver. }
  by exists b, old.
Qed.

Lemma reads_rhs_mono cfg rbb v v' b :
  (∀ i, slot v i ⊆ slot v' i) → reads_rhs cfg rbb v b ⊆ reads_rhs cfg rbb v' b.
Proof.
  intros H. unfold reads_rhs.
  pose proof (H (thenb (bexit b))). pose proof (H (elseb (bexit b))).
  repeat case_match; set_solver.
Qed.

Lemma writes_rhs_mono cfg wbb v v' b :
  (∀ i, slot v i ⊆ slot v' i) →
  writes_rhs cfg wbb v b ⊆ writes_rhs cfg wbb v' b.
Proof.
  intros H. unfold writes_rhs. apply union_mono_l.
  intros x (X & HX & Hx)%elem_of_union_list.
  apply list_elem_of_fmap in HX as (e & -> & He).
  apply elem_of_union_list. eexists. split.
  - apply list_elem_of_fmap. by exists e.
  - simpl. destruct (e =? deadBlock cfg); [done|]. by apply H.
Qed.

Lemma slot_bound (v : list VarSet) U i : Forall (λ s, s ⊆ U) v → slot v i ⊆ U.
Proof.
  intros H. unfold slot. destruct (v !! i) as [s|] eqn:E; simpl; [|set_solver].
  by apply (Forall_lookup_1 _ _ _ _ H E).
Qed.

Lemma reads_rhs_bound cfg rbb U v b :
  Forall (λ s, s ⊆ U) rbb → Forall (λ s, s ⊆ U) v → reads_rhs cfg rbb v b ⊆ U.
Proof.
  intros Hr Hv. unfold reads_rhs.
  pose proof (slot_bound rbb U (id b) Hr).
  pose proof (slot_bound v U (thenb (bexit b)) Hv).
  pose proof (slot_bound v U (elseb (bexit b)) Hv).
  repeat case_match; set_solver.
Qed.

Lemma writes_rhs_bound cfg wbb U v b :
  Forall (λ s, s ⊆ U) wbb → Forall (λ s, s ⊆ U) v → writes_rhs cfg wbb v b ⊆ U.
Proof.
  intros Hw Hv. unfold writes_rhs.
  pose proof (slot_bound wbb U (id b) Hw).
  apply union_subseteq. split; [done|].
  intros x (X & HX & Hx)%elem_of_union_list.
  apply list_elem_of_fmap in HX as (e & -> & He).
  destruct (e =? deadBlock cfg); [set_solver|].
  by apply (slot_bound v U e Hv).
Qed.

(** ** [fillInBlockArguments]: the loops run and end *)

Lemma fixpoint_loop_fuel step order fuel : ∀ v v' fuel',
  fixpoint_loop fuel step order v = Some v' → fuel ≤ fuel' →
  fixpoint_loop fuel' step order v = Some v'.
Proof.
  induction fuel as [|fuel IH]; intros v v' fuel' H Hle; [done|].
  destruct fuel' as [|fuel']; [lia|]. cbn [fixpoint_loop] in *.
  destruct (foldM step (v, false) order) as [[v1 c1]|]; [|done].
  simpl in *. destruct c1; [|done]. apply IH; [done|lia].
Qed.

Lemma dense_deref bs p b : dense_ids bs → deref bs p = Some b → id b < length bs.
Proof.
  intros Hd [Hin _]%deref_Some. unfold dense_ids in Hd.
  rewrite Forall_forall in Hd. by apply Hd.
Qed.

Lemma upper_bounds1_step_defined cfg rbb v c bb :
  dense_ids (basicBlocks cfg) → no_dangling cfg →
  length rbb = length (basicBlocks cfg) →
  length v = length (basicBlocks cfg) →
  bb ∈ forwardsTopoSort cfg →
  is_Some (upper_bounds1_step cfg rbb (v, c) bb).
Proof.
  intros Hd (Hf & _ & Hb) Hr Hv Hbb.
  rewrite Forall_forall in Hf. destruct (Hf bb Hbb) as [b Eb].
  pose proof (dense_deref _ _ _ Hd Eb) as Hlt.
  destruct (deref_Some _ _ _ Eb) as [Hin _].
  rewrite Forall_forall in Hb. destruct (Hb b Hin) as (Ht & He & _).
  destruct (lookup_lt_is_Some_2 v (id b)) as [old Hold]; [lia|].
  destruct (lookup_lt_is_Some_2 rbb (id b)) as [r Hrd]; [lia|].
  unfold upper_bounds1_step. cbn [fst snd].
  eapply is_Some_bind; [exact Eb|]. eapply is_Some_bind; [exact Hold|].
  eapply is_Some_bind; [exact Hrd|].
  eapply is_Some_bind; [apply insert_all_Some; eauto|].
  destruct (add_neighbour_defined (basicBlocks cfg) (deadBlock cfg) v (id b)
              (old ∪ r) (thenb (bexit b))) as [ub2 H2]; [lia| |done|].
  { intros ? ?%(dense_deref _ _ _ Hd). lia. }
  eapply is_Some_bind; [exact H2|].
  apply (add_neighbour _ _ v (id b) old) in H2 as ->; [|done|set_solver].
  destruct (add_neighbour_defined (basicBlocks cfg) (deadBlock cfg) v (id b)
              (old ∪ r ∪ (if thenb (bexit b) =? deadBlock cfg then ∅
                          else slot v (thenb (bexit b))))
              (elseb (bexit b))) as [ub3 H3]; [lia| |done|].
  { intros ? ?%(dense_deref _ _ _ Hd). lia. }
  eapply is_Some_bind; [exact H3|].
  apply (add_neighbour _ _ v (id b) old) in H3 as ->; [|done|set_solver].
  eapply is_Some_bind; [apply list_lookup_insert_eq; lia|]. by eexists.
Qed.

Lemma add_backEdges_defined bs dead (v0 : list VarSet) ib old edges : ∀ cur,
  v0 !! ib = Some old → old ⊆ cur →
  (∀ t b, deref bs t = Some b → id b < length v0) →
  Forall (λ t, is_Some (deref bs t)) edges →
  is_Some (foldM (λ ub edge,
                    if edge =? dead then Some ub
                    else i ← id_of bs edge; e ← ub !! i; insert_all ib e ub)
                 (<[ib := cur]> v0) edges).
Proof.
  induction edges as [|t edges IH]; intros cur Hold Hsub Hlt Hlive;
    [by eexists|].
  apply Forall_cons in Hlive as [Ht Hlive].
  rewrite foldM_cons.
  destruct (add_neighbour_defined bs dead v0 ib cur t) as [ub1 H1];
    [by eapply lookup_lt_Some|by apply Hlt|done|].
  eapply is_Some_bind; [exact H1|].
  apply (add_neighbour _ _ v0 ib old) in H1 as ->; [|done..].
  apply IH; [done|set_solver|done..].
Qed.

Lemma upper_bounds2_step_defined cfg wbb v c bb :
  dense_ids (basicBlocks cfg) → no_dangling cfg →
  length wbb = length (basicBlocks cfg) →
  length v = length (basicBlocks cfg) →
  bb ∈ backwardsTopoSort cfg →
  is_Some (upper_bounds2_step cfg wbb (v, c) bb).
Proof.
  intros Hd (_ & Hf & Hb) Hw Hv Hbb.
  rewrite Forall_forall in Hf. destruct (Hf bb Hbb) as [b Eb].
  pose proof (dense_deref _ _ _ Hd Eb) as Hlt.
  destruct (deref_Some _ _ _ Eb) as [Hin _].
  rewrite Forall_forall in Hb. destruct (Hb b Hin) as (_ & _ & Hedges).
  destruct (lookup_lt_is_Some_2 v (id b)) as [old Hold]; [lia|].
  destruct (lookup_lt_is_Some_2 wbb (id b)) as [w Hwr]; [lia|].
  unfold upper_bounds2_step. cbn [fst snd].
  eapply is_Some_bind; [exact Eb|]. eapply is_Some_bind; [exact Hold|].
  eapply is_Some_bind; [exact Hwr|].
  eapply is_Some_bind; [apply insert_all_Some; eauto|].
  destruct (add_backEdges_defined (basicBlocks cfg) (deadBlock cfg) v (id b)
              old (backEdges b) (old ∪ w)) as [ub2 H2];
    [done|set_solver| |done|].
  { intros ?? ?%(dense_deref _ _ _ Hd). lia. }
  eapply is_Some_bind; [exact H2|].
  apply (add_backEdges _ _ v (id b) old) in H2 as ->; [|done|set_solver].
  eapply is_Some_bind; [apply list_lookup_insert_eq; lia|]. by eexists.
Qed.

Lemma union_list_bound (v : list VarSet) : Forall (λ s, s ⊆ ⋃ v) v.
Proof.
  apply Forall_forall. intros s Hs x Hx. apply elem_of_union_list. eauto.
Qed.

(** The first loop ends and leaves the least fixpoint of the reads. *)
Lemma upper_bounds1_fixpoint cfg rbb :
  dense_ids (basicBlocks cfg) → no_dangling cfg →
  length rbb = length (basicBlocks cfg) →
  ∃ ub fuel0,
    length ub = length (basicBlocks cfg) ∧
    least_fixpoint (basicBlocks cfg) (forwardsTopoSort cfg)
                   (reads_rhs cfg rbb) ub ∧
    ∀ fuel, fuel0 ≤ fuel →
      fixpoint_loop fuel (upper_bounds1_step cfg rbb) (forwardsTopoSort cfg)
                    (replicate (length (basicBlocks cfg)) ∅) = Some ub.
Proof.
  intros Hd Hnd Hr.
  set (n := length (basicBlocks cfg)). set (fuel0 := S (n * size (⋃ rbb))).
  destruct (fixpoint_loop_spec (basicBlocks cfg) (forwardsTopoSort cfg) n
              (reads_rhs cfg rbb) (upper_bounds1_step cfg rbb) (⋃ rbb)
              (reads_rhs_mono cfg rbb)) with (fuel := fuel0) (v := replicate n (∅ : VarSet))
    as (ub & Hloop & Hlen & Hcl & Hleast).
  - intros v b. apply reads_rhs_bound, union_list_bound.
  - apply upper_bounds1_step_spec.
  - intros v c bb. by apply upper_bounds1_step_defined.
  - apply length_replicate.
  - apply Forall_replicate. set_solver.
  - unfold fuel0. lia.
  - exists ub, fuel0. split; [done|]. split.
    + apply least_closed_fixpoint; [apply reads_rhs_mono|done|].
      intros T HT. apply Hleast; [done|].
      intros i. rewrite slot_replicate. set_solver.
    + intros fuel Hfuel. by eapply fixpoint_loop_fuel.
Qed.

(** The second loop ends and leaves the least fixpoint of the writes. *)
Lemma upper_bounds2_fixpoint cfg wbb :
  dense_ids (basicBlocks cfg) → no_dangling cfg →
  length wbb = length (basicBlocks cfg) →
  ∃ ub fuel0,
    length ub = length (basicBlocks cfg) ∧
    least_fixpoint (basicBlocks cfg) (backwardsTopoSort cfg)
                   (writes_rhs cfg wbb) ub ∧
    ∀ fuel, fuel0 ≤ fuel →
      fixpoint_loop fuel (upper_bounds2_step cfg wbb) (backwardsTopoSort cfg)
                    (replicate (length (basicBlocks cfg)) ∅) = Some ub.
Proof.
  intros Hd Hnd Hw.
  set (n := length (basicBlocks cfg)). set (fuel0 := S (n * size (⋃ wbb))).
  destruct (fixpoint_loop_spec (basicBlocks cfg) (backwardsTopoSort cfg) n
              (writes_rhs cfg wbb) (upper_bounds2_step cfg wbb) (⋃ wbb)
              (writes_rhs_mono cfg wbb)) with (fuel := fuel0) (v := replicate n (∅ : VarSet))
    as (ub & Hloop & Hlen & Hcl & Hleast).
  - intros v b. apply writes_rhs_bound, union_list_bound.
  - apply upper_bounds2_step_spec.
  - intros v c bb. by apply upper_bounds2_step_defined.
  - apply length_replicate.
  - apply Forall_replicate. set_solver.
  - unfold fuel0. lia.
  - exists ub, fuel0. split; [done|]. split.
    + apply least_closed_fixpoint; [apply writes_rhs_mono|done|].
      intros T HT. apply Hleast; [done|].
      intros i. rewrite slot_replicate. set_solver.
    + intros fuel Hfuel. by eapply fixpoint_loop_fuel.
Qed.

(** ** [fillInBlockArguments]: the preprocessing of the tables *)

(** Lines 307-312: the variable [k] is entered in the slot of every block
    of [els]. *)
Lemma enter_spec bs k els : ∀ (v v' : list VarSet),
  foldM (λ v bb, i ← id_of bs bb; insert_all i {[k]} v) v els = Some v' →
  length v' = length v ∧
  ∀ x i, x ∈ slot v' i ↔ x ∈ slot v i ∨ (x = k ∧ i ∈ els).
Proof.
  induction els as [|bb els IH]; intros v v' H.
  { injection H as <-. split; [done|]. intros x i. set_solver. }
  rewrite foldM_cons in H. apply bind_Some in H as (v1 & H1 & H).
  apply bind_Some in H1 as (j & Hj & H1). apply id_of_Some in Hj as [-> _].
  apply insert_all_Some in H1 as (old & Hold & ->).
  apply IH in H as [Hlen Hiff]. rewrite length_insert in Hlen.
  split; [done|]. intros x i. rewrite Hiff.
  destruct (decide (bb = i)) as [<-|Hne].
  - rewrite (slot_insert_eq _ _ old), (slot_lookup _ _ _ Hold) by done.
    set_solver.
  - rewrite slot_insert_ne by done. set_solver.
Qed.

Lemma enter_defined bs k els : ∀ (v : list VarSet),
  dense_ids bs → length v = length bs →
  Forall (λ p, is_Some (deref bs p)) els →
  is_Some (foldM (λ v bb, i ← id_of bs bb; insert_all i {[k]} v) v els).
Proof.
  induction els as [|bb els IH]; intros v Hd Hlen Hlive; [by eexists|].
  apply Forall_cons in Hlive as [[b Hb] Hlive].
  rewrite foldM_cons.
  pose proof (dense_deref _ _ _ Hd Hb) as Hlt.
  destruct (lookup_lt_is_Some_2 v (id b)) as [old Hold]; [lia|].
  eapply is_Some_bind.
  { unfold id_of. rewrite Hb. simpl. apply insert_all_Some. eauto. }
  apply IH; [done| |done]. by rewrite length_insert.
Qed.

Lemma preprocess_read_live bs R pair :
  RnW_live bs R → RnW_live bs (preprocess_read R pair).
Proof.
  intros HR x s p Hx Hp. unfold preprocess_read in Hx.
  assert (∀ t, p ∈ default (∅ : gset BlockRef) (writes R !! pair.1) →
               writes R !! pair.1 = Some t → is_Some (deref bs p)) as Hw.
  { intros t Hin Ht. rewrite Ht in Hin. eapply HR; eauto. }
  destruct (writes R !! pair.1) as [t|] eqn:Et; simpl in *;
    repeat case_match; simpl in Hx;
    destruct (decide (pair.1 = x)) as [<-|Hne];
    rewrite ?lookup_insert_eq, ?lookup_insert_ne in Hx by done;
    destruct Hx as [Hx|Hx]; simplify_eq; try set_solver;
    try (eapply HR; eauto; fail); eauto.
Qed.

Lemma preprocess_write_spec bs R rbb wbb pair R' rbb' wbb' :
  preprocess_write bs (R, rbb, wbb) pair = Some (R', rbb', wbb') →
  let k := pair.1 in
  let rds := default ∅ (reads R !! k) in
  let wts := if bool_decide (rds = ∅) then ∅ else default ∅ (writes R !! k) in
  R' = mkRnW (<[k := rds]> (reads R)) (<[k := wts]> (writes R)) ∧
  length rbb' = length rbb ∧ length wbb' = length wbb ∧
  (∀ x i, x ∈ slot rbb' i ↔ x ∈ slot rbb i ∨ (x = k ∧ i ∈ rds)) ∧
  (∀ x i, x ∈ slot wbb' i ↔ x ∈ slot wbb i ∨ (x = k ∧ i ∈ wts)).
Proof.
  unfold preprocess_write. intros H.
  apply bind_Some in H as (r1 & Hr & H). apply bind_Some in H as (w1 & Hw & H).
  injection H as <- <- <-.
  apply enter_spec in Hr as [Hlr Hr]. apply enter_spec in Hw as [Hlw Hw].
  split_and!; [done..| |].
  - intros x i. rewrite Hr. by rewrite elem_of_elements.
  - intros x i. rewrite Hw. by rewrite elem_of_elements.
Qed.

Lemma preprocess_write_live bs R rbb wbb pair R' rbb' wbb' :
  preprocess_write bs (R, rbb, wbb) pair = Some (R', rbb', wbb') →
  RnW_live bs R → RnW_live bs R'.
Proof.
  intros H HR. apply preprocess_write_spec in H as (-> & _).
  intros x s p Hx Hp. simpl in Hx.
  destruct (decide (pair.1 = x)) as [<-|Hne];
    rewrite ?lookup_insert_eq, ?lookup_insert_ne in Hx by done;
    [|by eapply HR].
  destruct Hx as [[= <-]|[= <-]].
  - destruct (reads R !! pair.1) eqn:E; simpl in Hp; [|set_solver].
    eapply HR; eauto.
  - case_bool_decide; [set_solver|].
    destruct (writes R !! pair.1) eqn:E; simpl in Hp; [|set_solver].
    eapply HR; eauto.
Qed.

Lemma preprocess_write_defined bs R rbb wbb pair :
  dense_ids bs → RnW_live bs R →
  length rbb = length bs → length wbb = length bs →
  is_Some (preprocess_write bs (R, rbb, wbb) pair).
Proof.
  intros Hd HR Hlr Hlw. unfold preprocess_write.
  destruct (enter_defined bs pair.1
              (elements (default ∅ (reads R !! pair.1))) rbb) as [r1 Hr];
    [done..| |].
  { apply Forall_forall. intros p Hp%elem_of_elements.
    destruct (reads R !! pair.1) eqn:E; simpl in Hp; [|set_solver].
    eapply HR; eauto. }
  eapply is_Some_bind; [exact Hr|].
  destruct (enter_defined bs pair.1
              (elements (if bool_decide (default ∅ (reads R !! pair.1) = ∅)
                         then ∅ else default ∅ (writes R !! pair.1))) wbb)
    as [w1 Hw]; [done..| |].
  { apply Forall_forall. intros p Hp%elem_of_elements.
    case_bool_decide; [set_solver|].
    destruct (writes R !! pair.1) eqn:E; simpl in Hp; [|set_solver].
    eapply HR; eauto. }
  eapply is_Some_bind; [exact Hw|]. by eexists.
Qed.

Lemma preprocess_writes_defined bs l : ∀ R rbb wbb,
  dense_ids bs → RnW_live bs R →
  length rbb = length bs → length wbb = length bs →
  ∃ R' rbb' wbb',
    foldM (preprocess_write bs) (R, rbb, wbb) l = Some (R', rbb', wbb') ∧
    length rbb' = length bs ∧ length wbb' = length bs.
Proof.
  induction l as [|pair l IH]; intros R rbb wbb Hd HR Hlr Hlw.
  { by exists R, rbb, wbb. }
  destruct (preprocess_write_defined bs R rbb wbb pair)
    as [[[R1 r1] w1] H1]; [done..|].
  rewrite foldM_cons, H1. simpl.
  pose proof (preprocess_write_live _ _ _ _ _ _ _ _ H1 HR) as HR1.
  apply preprocess_write_spec in H1 as (_ & Hl1 & Hl2 & _).
  apply IH; [done..|congruence|congruence].
Qed.

(** The preprocessing runs when the tables name live blocks only, and
    leaves one slot per block. *)
Lemma preprocess_defined bs RnW :
  dense_ids bs → RnW_live bs RnW →
  ∃ RnW' rbb wbb,
    preprocess bs RnW = Some (RnW', rbb, wbb) ∧
    length rbb = length bs ∧ length wbb = length bs.
Proof.
  intros Hd HR. unfold preprocess.
  apply preprocess_writes_defined; [done| |apply length_replicate..].
  apply (foldl_invariant (RnW_live bs)); [done|].
  intros R pair _. apply preprocess_read_live.
Qed.

(** The loop over the writes, for a variable it does not come across. *)
Lemma preprocess_writes_other bs l x : ∀ R rbb wbb R' rbb' wbb',
  foldM (preprocess_write bs) (R, rbb, wbb) l = Some (R', rbb', wbb') →
  x ∉ l.*1 →
  reads R' !! x = reads R !! x ∧ writes R' !! x = writes R !! x ∧
  (∀ i, x ∈ slot rbb' i ↔ x ∈ slot rbb i) ∧
  (∀ i, x ∈ slot wbb' i ↔ x ∈ slot wbb i).
Proof.
  induction l as [|pair l IH]; intros R rbb wbb R' rbb' wbb' H Hx.
  { by injection H as <- <- <-. }
  rewrite foldM_cons in H. apply bind_Some in H as ([[R1 r1] w1] & H1 & H).
  apply not_elem_of_cons in Hx as [Hne Hx].
  apply IH in H as (-> & -> & Hr & Hw); [|done].
  apply preprocess_write_spec in H1 as (-> & _ & _ & Hr1 & Hw1). simpl.
  rewrite !lookup_insert_ne by done. split_and!; [done..| |].
  - intros i. rewrite Hr, Hr1. naive_solver.
  - intros i. rewrite Hw, Hw1. naive_solver.
Qed.

(** The loop over the writes, for a variable it comes across: the slots
    that hold the variable afterwards are those of its blocks in the tables
    the loop leaves. *)
Lemma preprocess_writes_at bs l x s0 : ∀ R rbb wbb R' rbb' wbb',
  foldM (preprocess_write bs) (R, rbb, wbb) l = Some (R', rbb', wbb') →
  NoDup l.*1 → (x, s0) ∈ l →
  (∀ i, x ∉ slot rbb i) → (∀ i, x ∉ slot wbb i) →
  ∃ rds wts,
    reads R' !! x = Some rds ∧ writes R' !! x = Some wts ∧
    (∀ i, x ∈ slot rbb' i ↔ i ∈ rds) ∧ (∀ i, x ∈ slot wbb' i ↔ i ∈ wts).
Proof.
  induction l as [|pair l IH]; intros R rbb wbb R' rbb' wbb' H Hnd Hx Hr0 Hw0.
  { by apply elem_of_nil in Hx. }
  rewrite foldM_cons in H. apply bind_Some in H as ([[R1 r1] w1] & H1 & H).
  apply NoDup_cons in Hnd as [Hhd Hnd].
  apply preprocess_write_spec in H1 as (-> & _ & _ & Hr1 & Hw1).
  apply elem_of_cons in Hx as [<-|Hx].
  - destruct (preprocess_writes_other _ _ x _ _ _ _ _ _ H Hhd)
      as (-> & -> & Hr & Hw).
    simpl in *. rewrite !lookup_insert_eq. eexists _, _.
    split_and!; [done..| |].
    + intros i. rewrite Hr, Hr1. naive_solver.
    + intros i. rewrite Hw, Hw1. naive_solver.
  - assert (pair.1 ≠ x) as Hne.
    { intros <-. apply Hhd. apply list_elem_of_fmap. by exists (pair.1, s0). }
    eapply IH; [done..| |].
    + intros i. rewrite Hr1. naive_solver.
    + intros i. rewrite Hw1. naive_solver.
Qed.

Lemma preprocess_read_reads_keys R pair x :
  is_Some (reads R !! pair.1) →
  (is_Some (reads (preprocess_read R pair) !! x) ↔ is_Some (reads R !! x)).
Proof.
  intros Hk. unfold preprocess_read.
  repeat case_match; simpl; try done;
    (destruct (decide (pair.1 = x)) as [<-|Hne];
     [rewrite lookup_insert_eq; split; eauto
     |by rewrite lookup_insert_ne]).
Qed.

(** After the loop over the reads every variable with an entry in [reads]
    has one in [writes]. *)
Lemma preprocess_reads_covered RnW x :
  is_Some (reads (foldl preprocess_read RnW (map_to_list (reads RnW))) !! x) →
  is_Some (writes (foldl preprocess_read RnW (map_to_list (reads RnW))) !! x).
Proof.
  intros Hx.
  assert (is_Some (reads RnW !! x)) as [s Hs].
  { revert Hx.
    assert (∀ l R, Forall (λ p, is_Some (reads R !! p.1)) l →
              is_Some (reads (foldl preprocess_read R l) !! x) →
              is_Some (reads R !! x)) as Hgen.
    { induction l as [|pair l IH]; intros R Hl; simpl; [done|].
      apply Forall_cons in Hl as [Hp Hl]. intros H. apply IH in H.
      - by apply preprocess_read_reads_keys in H.
      - eapply Forall_impl; [done|]. intros p Hq. simpl in *.
        by apply preprocess_read_keeps. }
    apply Hgen. apply Forall_forall. intros [k t] Hin.
    apply elem_of_map_to_list in Hin. simpl. eauto. }
  apply elem_of_map_to_list in Hs.
  apply (foldl_establishes (λ R, is_Some (writes R !! x)) _ _ (x, s)); [done| |].
  - intros R. apply (preprocess_read_creates R (x, s)).
  - intros R y. apply preprocess_read_keeps.
Qed.

(** [reads_by_block] and [writes_by_block] are the preprocessed tables,
    turned around. *)
Lemma preprocess_by_block bs RnW RnW' rbb wbb :
  preprocess bs RnW = Some (RnW', rbb, wbb) →
  ∀ x i,
    (x ∈ slot rbb i ↔ ∃ s, reads RnW' !! x = Some s ∧ i ∈ s) ∧
    (x ∈ slot wbb i ↔ ∃ s, writes RnW' !! x = Some s ∧ i ∈ s).
Proof.
  unfold preprocess. intros H x i.
  set (R1 := foldl preprocess_read RnW (map_to_list (reads RnW))) in *.
  destruct (writes R1 !! x) as [s0|] eqn:Ew.
  - apply elem_of_map_to_list in Ew.
    eapply preprocess_writes_at in H
      as (rds & wts & -> & -> & Hr & Hw);
      [|apply NoDup_fst_map_to_list|done|..].
    + rewrite Hr, Hw. naive_solver.
    + intros j. rewrite slot_replicate. set_solver.
    + intros j. rewrite slot_replicate. set_solver.
  - assert (reads R1 !! x = None) as Er.
    { destruct (reads R1 !! x) eqn:E; [|done].
      destruct (preprocess_reads_covered RnW x) as [? Hc]; [by eexists|].
      unfold R1 in Ew. congruence. }
    assert (x ∉ (map_to_list (writes R1)).*1) as Hnot.
    { intros [[y t] [Hy Hin]]%list_elem_of_fmap. simpl in Hy. subst y.
      apply elem_of_map_to_list in Hin. congruence. }
    destruct (preprocess_writes_other _ _ x _ _ _ _ _ _ H Hnot)
      as (-> & -> & Hr & Hw).
    rewrite Hr, Hw, Er, Ew, !slot_replicate. set_solver.
Qed.

(** ** [fillInBlockArguments]: the arguments *)

#[global] Instance name_le_total : Total name_le.
Proof. intros a b. unfold name_le. lia. Qed.

#[global] Instance name_le_transitive : Transitive name_le.
Proof. intros a b c. unfold name_le. lia. Qed.

Lemma elem_of_List_filter {A} (f : A → bool) l x :
  x ∈ List.filter f l ↔ x ∈ l ∧ f x = true.
Proof. rewrite !list_elem_of_In. apply filter_In. Qed.

Lemma NoDup_List_filter {A} (f : A → bool) l :
  NoDup l → NoDup (List.filter f l).
Proof. rewrite !NoDup_ListNoDup. apply List.NoDup_filter. Qed.

(** Lines 355-367, for a block that has no arguments yet. *)
Lemma combine_spec ub1 ub2 b b' :
  combine ub1 ub2 b = Some b' → args b = [] →
  b' = set_args (args b') b ∧
  StronglySorted name_le (args b') ∧ NoDup (args b') ∧
  ∀ x, x ∈ args b' ↔ x ∈ slot ub1 (id b) ∧ x ∈ slot ub2 (id b).
Proof.
  unfold combine. intros H Hargs.
  apply bind_Some in H as (set2 & H2 & H).
  apply bind_Some in H as (set1 & H1 & [= <-]).
  rewrite Hargs, app_nil_l. cbn [args set_args].
  split; [done|]. split; [apply StronglySorted_merge_sort; apply _|].
  pose proof (merge_sort_Permutation name_le
    (List.filter (λ el, bool_decide (el ∈ set2)) (elements set1))) as Hperm.
  split.
  - rewrite Hperm. apply NoDup_List_filter, NoDup_elements.
  - intros x. rewrite Hperm, elem_of_List_filter, elem_of_elements.
    rewrite bool_decide_eq_true.
    by rewrite (slot_lookup _ _ _ H1), (slot_lookup _ _ _ H2).
Qed.

Lemma combine_defined ub1 ub2 bs :
  dense_ids bs → length ub1 = length bs → length ub2 = length bs →
  ∃ bs', mapM (combine ub1 ub2) bs = Some bs'.
Proof.
  intros Hd H1 H2. unfold dense_ids in Hd.
  assert (Forall (λ b, is_Some (combine ub1 ub2 b)) bs) as Hall.
  { apply Forall_forall. intros b Hb. unfold combine.
    rewrite Forall_forall in Hd. specialize (Hd b Hb).
    destruct (lookup_lt_is_Some_2 ub2 (id b)) as [s2 E2]; [lia|].
    destruct (lookup_lt_is_Some_2 ub1 (id b)) as [s1 E1]; [lia|].
    eapply is_Some_bind; [exact E2|]. eapply is_Some_bind; [exact E1|].
    by eexists. }
  apply mapM_is_Some in Hall as [bs' Hbs']. eauto.
Qed.

(** The tables name live blocks only, stated so that it can be decided. *)
Lemma RnW_live_intro bs RnW :
  map_Forall (λ _ s, set_Forall (λ p, is_Some (deref bs p)) s) (reads RnW) →
  map_Forall (λ _ s, set_Forall (λ p, is_Some (deref bs p)) s) (writes RnW) →
  RnW_live bs RnW.
Proof. intros Hr Hw x s p [Hx|Hx] Hp; [eapply Hr|eapply Hw]; eauto. Qed.

(** C6: when the block ids index the scratch vectors, no reference dangles
    and no block has arguments yet, [fillInBlockArguments] runs to its end
    (any fuel from some bound on) and leaves in every block, as [args], the
    variables that lie both in the block's slot of the least fixpoint of the
    reads over [forwardsTopoSort] and in its slot of the least fixpoint of
    the writes over [backwardsTopoSort]; both fixpoints are taken on the
    preprocessed tables and leave the dead block out; the arguments are in
    ascending order of name id and none occurs twice.  Nothing else of a
    block changes. *)
Theorem fillInBlockArguments_args RnW cfg :
  dense_ids (basicBlocks cfg) → no_dangling cfg →
  RnW_live (basicBlocks cfg) RnW →
  Forall (λ b, args b = []) (basicBlocks cfg) →
  ∃ RnW' reads_by_block writes_by_block UB1 UB2 fuel0,
    preprocess (basicBlocks cfg) RnW
    = Some (RnW', reads_by_block, writes_by_block) ∧
    (∀ x i,
       (x ∈ slot reads_by_block i ↔ ∃ s, reads RnW' !! x = Some s ∧ i ∈ s) ∧
       (x ∈ slot writes_by_block i ↔ ∃ s, writes RnW' !! x = Some s ∧ i ∈ s)) ∧
    least_fixpoint (basicBlocks cfg) (forwardsTopoSort cfg)
                   (reads_rhs cfg reads_by_block) UB1 ∧
    least_fixpoint (basicBlocks cfg) (backwardsTopoSort cfg)
                   (writes_rhs cfg writes_by_block) UB2 ∧
    ∀ fuel, fuel0 ≤ fuel →
      ∃ cfg',
        fillInBlockArguments fuel RnW cfg = Some (RnW', cfg') ∧
        Forall2 (λ b b',
                   b' = set_args (args b') b ∧
                   StronglySorted name_le (args b') ∧ NoDup (args b') ∧
                   ∀ x, x ∈ args b' ↔
                        x ∈ slot UB1 (id b) ∧ x ∈ slot UB2 (id b))
                (basicBlocks cfg) (basicBlocks cfg').
Proof.
  intros Hd Hnd HR Hargs.
  destruct (preprocess_defined _ _ Hd HR) as (RnW' & rbb & wbb & Hpre & Hlr & Hlw).
  destruct (upper_bounds1_fixpoint cfg rbb Hd Hnd Hlr)
    as (ub1 & f1 & Hl1 & Hfix1 & Hrun1).
  destruct (upper_bounds2_fixpoint cfg wbb Hd Hnd Hlw)
    as (ub2 & f2 & Hl2 & Hfix2 & Hrun2).
  destruct (combine_defined ub1 ub2 _ Hd Hl1 Hl2) as [bs' Hbs'].
  exists RnW', rbb, wbb, ub1, ub2, (f1 `max` f2).
  split; [done|]. split; [by eapply preprocess_by_block|].
  split; [done|]. split; [done|].
  intros fuel Hfuel. exists (set_basicBlocks bs' cfg). split.
  - unfold fillInBlockArguments. rewrite Hpre. simpl.
    rewrite Hrun1 by lia. simpl. rewrite Hrun2 by lia. simpl.
    by rewrite Hbs'.
  - simpl. apply mapM_Some_1 in Hbs'.
    assert (Forall2 (λ b b', combine ub1 ub2 b = Some b' ∧ args b = [])
              (basicBlocks cfg) bs') as Hall.
    { clear -Hbs' Hargs. induction Hbs'; [constructor|].
      apply Forall_cons in Hargs as [? ?]. constructor; auto. }
    eapply Forall2_impl; [exact Hall|].
    intros b b' [Hc Ha]. by apply combine_spec.
Qed.

(** The diamond: [var 5], written in [entry] and read after the join, is an
    argument of every block on the way; [var 7], written in block 2, is one
    of blocks 2 and 4. *)
Example fillInBlockArguments_diamond :
  (λ r, (λ b, (id b, args b)) <$> basicBlocks r.2)
    <$> fillInBlockArguments 3 diamond_RnW diamond_cfg
  = Some [ (0, [var 5]); (1, []); (2, [var 5; var 7]); (3, [var 5]);
           (4, [var 5; var 7]) ].
Proof. vm_compute. reflexivity. Qed.

Lemma fillInBlockArguments_args_witness :
  ∃ RnW' reads_by_block writes_by_block UB1 UB2 fuel0,
    preprocess (basicBlocks diamond_cfg) diamond_RnW
    = Some (RnW', reads_by_block, writes_by_block) ∧
    (∀ x i,
       (x ∈ slot reads_by_block i ↔ ∃ s, reads RnW' !! x = Some s ∧ i ∈ s) ∧
       (x ∈ slot writes_by_block i ↔ ∃ s, writes RnW' !! x = Some s ∧ i ∈ s)) ∧
    least_fixpoint (basicBlocks diamond_cfg) (forwardsTopoSort diamond_cfg)
                   (reads_rhs diamond_cfg reads_by_block) UB1 ∧
    least_fixpoint (basicBlocks diamond_cfg) (backwardsTopoSort diamond_cfg)
                   (writes_rhs diamond_cfg writes_by_block) UB2 ∧
    ∀ fuel, fuel0 ≤ fuel →
      ∃ cfg',
        fillInBlockArguments fuel diamond_RnW diamond_cfg = Some (RnW', cfg') ∧
        Forall2 (λ b b',
                   b' = set_args (args b') b ∧
                   StronglySorted name_le (args b') ∧ NoDup (args b') ∧
                   ∀ x, x ∈ args b' ↔
                        x ∈ slot UB1 (id b) ∧ x ∈ slot UB2 (id b))
                (basicBlocks diamond_cfg) (basicBlocks cfg').
Proof.
  assert (dense_ids (basicBlocks diamond_cfg)) as Hd.
  { repeat constructor; cbn; lia. }
  assert (no_dangling diamond_cfg) as Hnd.
  { repeat split; repeat constructor; by eexists. }
  assert (RnW_live (basicBlocks diamond_cfg) diamond_RnW) as HR.
  { apply RnW_live_intro; apply (bool_decide_unpack _); vm_compute; exact I. }
  assert (Forall (λ b, args b = []) (basicBlocks diamond_cfg)) as Ha.
  { repeat constructor. }
  exact (fillInBlockArguments_args diamond_RnW diamond_cfg Hd Hnd HR Ha).
Defined.

(** ** [topoSortBwd] *)

Lemma visited_mark b :
  visited BACKWARD_TOPO_SORT_VISITED
    (set_flags (Z.lor (flags b) BACKWARD_TOPO_SORT_VISITED) b) = true.
Proof.
  unfold visited, set_flags, BACKWARD_TOPO_SORT_VISITED. simpl.
  apply negb_true_iff, Z.eqb_neq. intros H.
  apply (f_equal (λ z, Z.testbit z 1)) in H.
  rewrite Z.land_spec, Z.lor_spec in H. simpl in H.
  by rewrite orb_true_r in H.
Qed.











(** The first [while] visits a prefix of the predecessors, in order. *)
Lemma visit_outer_split visit depth edges : ∀ st st' rest,
  visit_outer visit depth edges st = Some (st', rest) →
  ∃ lo, edges = lo ++ rest ∧ foldM visit st lo = Some st'.
Proof.
  induction edges as [|p edges IH]; intros st st' rest H.
  { injection H as <- <-. by exists []. }
  cbn [visit_outer] in H. apply bind_Some in H as (pb & Epb & H).
  case_bool_decide.
  - apply bind_Some in H as (st1 & H1 & H).
    apply IH in H as (lo & -> & Hlo). exists (p :: lo).
    split; [done|]. by rewrite foldM_cons, H1.
  - injection H as <- <-. by exists [].
Qed.








(** ** [topoSortBwd]: it returns *)

Lemma same_shape_refl bs : same_shape bs bs.
Proof. apply Forall_Forall2_diag, Forall_forall. by intros. Qed.

Lemma same_shape_trans bs1 bs2 bs3 :
  same_shape bs1 bs2 → same_shape bs2 bs3 → same_shape bs1 bs3.
Proof.
  intros H1 H2. eapply Forall2_trans; [|done..].
  intros x y z (?&?&?) (?&?&?). split_and!; congruence.
Qed.

Lemma same_shape_deref bs bs' q :
  same_shape bs bs' →
  match deref bs q, deref bs' q with
  | Some b, Some b' => backEdges b' = backEdges b ∧ outerLoops b' = outerLoops b
  | None, None => True
  | _, _ => False
  end.
Proof.
  unfold deref. induction 1 as [|x y bs bs' (Hid & ? & ?) _ IH]; simpl; [done|].
  rewrite Hid. by destruct (id x =? q).
Qed.

Lemma same_shape_live bs bs' q :
  same_shape bs bs' → is_Some (deref bs q) → is_Some (deref bs' q).
Proof.
  intros H [b Hb]. pose proof (same_shape_deref _ _ q H) as Hq.
  rewrite Hb in Hq. destruct (deref bs' q); [by eexists|done].
Qed.

Lemma same_shape_closed bs bs' :
  same_shape bs bs' → closed_edges bs → closed_edges bs'.
Proof.
  intros H Hc q b' Hb'. pose proof (same_shape_deref _ _ q H) as Hq.
  rewrite Hb' in Hq. destruct (deref bs q) as [b|] eqn:Hb; [|done].
  destruct Hq as [-> _]. eapply Forall_impl; [by eapply Hc|].
  intros e. by apply same_shape_live.
Qed.

Lemma mark_same_shape h bs :
  same_shape bs
    (update h (λ b, set_flags (Z.lor (flags b) BACKWARD_TOPO_SORT_VISITED) b) bs).
Proof. apply update_Forall2; by intros. Qed.

Lemma mark_count h bs b :
  deref bs h = Some b → visited BACKWARD_TOPO_SORT_VISITED b = false →
  S (count_unvisited
       (update h (λ b, set_flags (Z.lor (flags b) BACKWARD_TOPO_SORT_VISITED) b)
               bs))
  = count_unvisited bs.
Proof.
  unfold deref, count_unvisited.
  induction bs as [|x bs IH]; intros Hb Hv; simpl in *; [done|].
  destruct (id x =? h).
  - simplify_eq. simpl. rewrite visited_mark, Hv. done.
  - simpl. destruct (visited BACKWARD_TOPO_SORT_VISITED x); simpl;
      by rewrite IH.
Qed.

Lemma visit_all_total m visit l :
  total_visit m visit → ∀ st,
  closed_edges st.1.1 → Forall (λ p, is_Some (deref st.1.1 p)) l →
  count_unvisited st.1.1 < m →
  st.2 + count_unvisited st.1.1 ≤ length st.1.2 →
  ∃ st', foldM visit st l = Some st' ∧ same_shape st.1.1 st'.1.1 ∧
         st.2 ≤ st'.2 ∧
         st'.2 + count_unvisited st'.1.1 = st.2 + count_unvisited st.1.1 ∧
         length st'.1.2 = length st.1.2.
Proof.
  intros Hv. induction l as [|p l IH]; intros st Hc Hl Hm Hroom.
  { exists st. split_and!; [done|apply same_shape_refl|done..]. }
  apply Forall_cons in Hl as [Hp Hl].
  destruct (Hv st p Hc Hp Hm Hroom) as (st1 & H1 & Hs1 & Hle1 & Hn1 & Hl1).
  destruct (IH st1) as (st' & H' & Hs' & Hle' & Hn' & Hl').
  - by eapply same_shape_closed.
  - eapply Forall_impl; [done|]. intros e. by apply same_shape_live.
  - lia.
  - lia.
  - exists st'. rewrite foldM_cons, H1. simpl.
    split_and!; [done|by eapply same_shape_trans|lia|lia|congruence].
Qed.

Lemma visit_outer_total m visit depth l :
  total_visit m visit → ∀ st,
  closed_edges st.1.1 → Forall (λ p, is_Some (deref st.1.1 p)) l →
  count_unvisited st.1.1 < m →
  st.2 + count_unvisited st.1.1 ≤ length st.1.2 →
  ∃ st' rest,
    visit_outer visit depth l st = Some (st', rest) ∧
    (∃ lo, l = lo ++ rest) ∧ same_shape st.1.1 st'.1.1 ∧
    st.2 ≤ st'.2 ∧
    st'.2 + count_unvisited st'.1.1 = st.2 + count_unvisited st.1.1 ∧
    length st'.1.2 = length st.1.2.
Proof.
  intros Hv. induction l as [|p l IH]; intros st Hc Hl Hm Hroom.
  { exists st, []. split_and!; [done|by exists []|apply same_shape_refl|done..]. }
  apply Forall_cons in Hl as [[pb Hpb] Hl].
  cbn [visit_outer]. rewrite Hpb. simpl. case_bool_decide.
  2:{ exists st, (p :: l).
      split_and!; [done|by exists []|apply same_shape_refl|done..]. }
  destruct (Hv st p Hc) as (st1 & H1 & Hs1 & Hle1 & Hn1 & Hl1);
    [by eexists|done..|].
  rewrite H1. simpl.
  destruct (IH st1) as (st' & rest & H' & [lo Hlo] & Hs' & Hle' & Hn' & Hl').
  - by eapply same_shape_closed.
  - eapply Forall_impl; [done|]. intros e. by apply same_shape_live.
  - lia.
  - lia.
  - exists st', rest.
    split_and!; [done| |by eapply same_shape_trans|lia|lia|congruence].
    exists (p :: lo). by rewrite Hlo.
Qed.

(** With more fuel than there are unvisited blocks, and room in the vector
    for them, the sort returns. *)
Lemma topoSortBwd_total fuel : total_visit fuel (topoSortBwd fuel).
Proof.
  induction fuel as [|fuel IH]; intros st h Hc [b Hb] Hm Hroom; [lia|].
  cbn [topoSortBwd]. rewrite Hb. simpl.
  destruct (visited BACKWARD_TOPO_SORT_VISITED b) eqn:Hvis.
  { exists st. split_and!; [done|apply same_shape_refl|done..]. }
  destruct st as [[bs target] nf]. simpl in *.
  pose proof (mark_count h bs b Hb Hvis) as Hcount.
  pose proof (mark_same_shape h bs) as Hshape.
  set (bs1 := update h _ bs) in *.
  pose proof (Hc h b Hb) as Hedges.
  destruct (visit_outer_total fuel (topoSortBwd fuel) (outerLoops b)
              (backEdges b) IH (bs1, target, nf))
    as (st1 & rest & -> & [lo Hlo] & Hs1 & Hle1 & Hn1 & Hl1); simpl.
  - by eapply same_shape_closed.
  - eapply Forall_impl; [done|]. intros e. by apply same_shape_live.
  - lia.
  - lia.
  - simpl in *.
    assert (Forall (λ p, is_Some (deref st1.1.1 p)) rest) as Hrest.
    { rewrite Hlo in Hedges. apply Forall_app in Hedges as [_ Hr].
      eapply Forall_impl; [done|]. intros e He.
      eapply same_shape_live; [done|]. by eapply same_shape_live. }
    assert (closed_edges st1.1.1) as Hc1.
    { eapply same_shape_closed; [done|]. by eapply same_shape_closed. }
    destruct (length rest <? length (backEdges b)).
    + destruct st1 as [[bsa ta] nfa]. simpl in *.
      assert ((nfa <? length ta) = true) as Hlt by (apply Nat.ltb_lt; lia).
      rewrite Hlt. simpl.
      destruct (visit_all_total fuel (topoSortBwd fuel) rest IH
                  (bsa, <[nfa := h]> ta, S nfa))
        as (st' & -> & Hs' & Hle' & Hn' & Hl'); simpl; [done..|lia| |].
      { rewrite length_insert. lia. }
      exists st'. simpl in *. rewrite length_insert in Hl'.
      split_and!; [done| |lia|lia|congruence].
      eapply same_shape_trans; [done|]. by eapply same_shape_trans.
    + destruct (visit_all_total fuel (topoSortBwd fuel) rest IH st1)
        as (st2 & -> & Hs2 & Hle2 & Hn2 & Hl2); [done..|lia|lia|].
      simpl. destruct st2 as [[bsb tb] nfb]. simpl in *.
      assert ((nfb <? length tb) = true) as Hlt by (apply Nat.ltb_lt; lia).
      unfold emit. rewrite Hlt. eexists. split; [done|]. simpl.
      rewrite length_insert.
      split_and!; [|lia|lia|congruence].
      eapply same_shape_trans; [done|]. by eapply same_shape_trans.
Qed.
(** ** [removeDeadAssigns]: what stays *)

Lemma List_filter_sublist {A} (f : A → bool) l : List.filter f l `sublist_of` l.
Proof.
  induction l as [|a l IH]; simpl; [done|].
  destruct (f a); by constructor.
Qed.

Lemma List_filter_idemp {A} (f : A → bool) l :
  List.filter f (List.filter f l) = List.filter f l.
Proof.
  induction l as [|a l IH]; simpl; [done|].
  destruct (f a) eqn:E; simpl; rewrite ?E; congruence.
Qed.

Lemma List_filter_weaken {A} (f g : A → bool) l :
  (∀ a, g a = true → f a = true) →
  List.filter g (List.filter f l) = List.filter g l.
Proof.
  intros Hfg. induction l as [|a l IH]; simpl; [done|].
  destruct (f a) eqn:Ef; simpl.
  - destruct (g a); congruence.
  - destruct (g a) eqn:Eg; [|done]. apply Hfg in Eg. congruence.
Qed.

(** X1: [removeDeadAssigns] only erases bindings: every block keeps its id,
    exit, back-edges, loop depth, arguments and flags, what is left of
    [exprs] stands in the order it had, and the bindings of a [Send], of a
    [Return] or of a moved-from instruction are all still there, as are the
    bindings of aliases of globals. *)
Theorem removeDeadAssigns_keeps_effects ctx RnW cfg :
  Forall2 (λ b b',
      b' = set_exprs (exprs b') b ∧
      exprs b' `sublist_of` exprs b ∧
      List.filter (λ e, negb (is_pure (value e))) (exprs b')
      = List.filter (λ e, negb (is_pure (value e))) (exprs b) ∧
      List.filter (λ e, isAliasForGlobal (bind e) ctx) (exprs b')
      = List.filter (λ e, isAliasForGlobal (bind e) ctx) (exprs b))
    (basicBlocks cfg) (basicBlocks (removeDeadAssigns ctx RnW cfg)).
Proof.
  simpl. apply Forall2_fmap_r, Forall_Forall2_diag, Forall_forall.
  intros b _. simpl. split_and!.
  - by destruct b.
  - apply List_filter_sublist.
  - apply List_filter_weaken. intros e. unfold survives.
    destruct (isAliasForGlobal _ _); [done|].
    destruct (reads RnW !! bind e); [done|]. done.
  - apply List_filter_weaken. intros e. unfold survives. by intros ->.
Qed.

(** X2: a second run of [removeDeadAssigns] with the same table finds
    nothing more to erase. *)
Theorem removeDeadAssigns_idempotent ctx RnW cfg :
  removeDeadAssigns ctx RnW (removeDeadAssigns ctx RnW cfg)
  = removeDeadAssigns ctx RnW cfg.
Proof.
  unfold removeDeadAssigns, set_basicBlocks. simpl. f_equal.
  rewrite map_map. apply map_ext. intros b. unfold set_exprs. simpl.
  by rewrite List_filter_idemp.
Qed.
(** ** [markLoopHeaders] *)

Lemma deref_fmap (g : BasicBlock → BasicBlock) bs p :
  (∀ b, id (g b) = id b) → deref (g <$> bs) p = g <$> deref bs p.
Proof.
  intros Hg. unfold deref. induction bs as [|b bs IH]; simpl; [done|].
  rewrite Hg. by destruct (id b =? p).
Qed.

Lemma mark_header_fold bs edges : ∀ b0 b',
  foldM (λ b parent,
           p ← deref bs parent;
           Some (if bool_decide (outerLoops p < outerLoops b)%Z
                 then set_flags (Z.lor (flags b) LOOP_HEADER) b
                 else b)) b0 edges = Some b' →
  b' = set_flags
         (if existsb (λ p, match deref bs p with
                           | Some pb => bool_decide (outerLoops pb < outerLoops b0)%Z
                           | None => false
                           end) edges
          then Z.lor (flags b0) LOOP_HEADER else flags b0) b0.
Proof.
  induction edges as [|e edges IH]; intros b0 b' H.
  { simpl in H. simplify_eq. by destruct b'. }
  rewrite foldM_cons in H. apply bind_Some in H as (b1 & E1 & H).
  apply bind_Some in E1 as (pb & Epb & [= <-]).
  apply IH in H. cbn [existsb]. rewrite Epb.
  destruct (bool_decide (outerLoops pb < outerLoops b0)%Z); simpl in *.
  - rewrite H. unfold set_flags. simpl. f_equal.
    match goal with |- context [existsb ?f edges] => destruct (existsb f edges) end;
      [|done].
    by rewrite <- Z.lor_assoc, Z.lor_diag.
  - done.
Qed.

Lemma mark_header_fold_defined bs edges : ∀ b0,
  is_Some (foldM (λ b parent,
           p ← deref bs parent;
           Some (if bool_decide (outerLoops p < outerLoops b)%Z
                 then set_flags (Z.lor (flags b) LOOP_HEADER) b
                 else b)) b0 edges)
  ↔ Forall (λ p, is_Some (deref bs p)) edges.
Proof.
  induction edges as [|e edges IH]; intros b0.
  { simpl. split; [constructor|by eexists]. }
  rewrite foldM_cons. split.
  - intros [b' H]. apply bind_Some in H as (b1 & E1 & H).
    apply bind_Some in E1 as (pb & Epb & _).
    constructor; [by eexists|]. apply (IH b1). by eexists.
  - intros [[pb Epb] Hrest]%Forall_cons. rewrite Epb. simpl. by apply IH.
Qed.

Lemma markLoopHeaders_eq cfg :
  live_backEdges (basicBlocks cfg) →
  markLoopHeaders cfg
  = Some (set_basicBlocks
            (with_header_flag (basicBlocks cfg) <$> basicBlocks cfg) cfg).
Proof.
  intros Hlive. unfold markLoopHeaders.
  set (bs := basicBlocks cfg) in *.
  match goal with |- context [mapM ?f bs] =>
    assert (mapM f bs = Some (with_header_flag bs <$> bs)) as ->; [|done]
  end.
  apply mapM_Some. apply Forall2_fmap_r, Forall_Forall2_diag.
  unfold live_backEdges in Hlive.
  eapply Forall_impl; [exact Hlive|]. intros b Hb. simpl in Hb.
  apply (mark_header_fold_defined bs _ b) in Hb as [b' Hb'].
  rewrite Hb'. f_equal. by apply mark_header_fold in Hb'.
Qed.

Lemma markLoopHeaders_live cfg :
  is_Some (markLoopHeaders cfg) → live_backEdges (basicBlocks cfg).
Proof.
  intros [cfg' H]. unfold markLoopHeaders in H.
  apply bind_Some in H as (bs' & H & _). apply mapM_Some in H.
  unfold live_backEdges. apply Forall_forall. intros b Hb.
  apply list_elem_of_lookup in Hb as [i Hi].
  destruct (Forall2_lookup_l _ _ _ _ _ H Hi) as (b' & _ & Hb').
  apply (mark_header_fold_defined _ _ b). by eexists.
Qed.

Lemma has_outer_parent_fmap g bs b :
  (∀ x, id (g x) = id x) → (∀ x, outerLoops (g x) = outerLoops x) →
  (∀ x, backEdges (g x) = backEdges x) →
  has_outer_parent (g <$> bs) (g b) = has_outer_parent bs b.
Proof.
  intros Hid Hol Hbe. unfold has_outer_parent. rewrite Hbe, Hol.
  induction (backEdges b) as [|p l IH]; simpl; [done|].
  rewrite IH, deref_fmap by done. destruct (deref bs p); simpl; [|done].
  by rewrite Hol.
Qed.

(** X3: [markLoopHeaders] is undefined exactly when some back-edge dangles.
    When it is defined, it sets the [LOOP_HEADER] bit in the flags of every
    block that has a predecessor at a strictly lower loop depth and changes
    nothing else: the other blocks, the other bits and every other field
    stay as they were. *)
Theorem markLoopHeaders_flags cfg :
  (is_Some (markLoopHeaders cfg) ↔ live_backEdges (basicBlocks cfg)) ∧
  ∀ cfg', markLoopHeaders cfg = Some cfg' →
    cfg' = set_basicBlocks (basicBlocks cfg') cfg ∧
    Forall2 (λ b b',
        b' = set_flags (flags b') b ∧
        flags b' = if has_outer_parent (basicBlocks cfg) b
                   then Z.lor (flags b) LOOP_HEADER else flags b)
      (basicBlocks cfg) (basicBlocks cfg').
Proof.
  split.
  - split; [apply markLoopHeaders_live|].
    intros H. rewrite markLoopHeaders_eq by done. by eexists.
  - intros cfg' H.
    assert (live_backEdges (basicBlocks cfg)) as Hlive
      by (apply markLoopHeaders_live; by eexists).
    rewrite markLoopHeaders_eq in H by done. simplify_eq. split; [done|].
    simpl. apply Forall2_fmap_r, Forall_Forall2_diag, Forall_forall.
    intros b _. by split.
Qed.

(** X4: running [markLoopHeaders] again on its own result changes nothing. *)
Theorem markLoopHeaders_idempotent cfg cfg' :
  markLoopHeaders cfg = Some cfg' → markLoopHeaders cfg' = Some cfg'.
Proof.
  intros H.
  assert (live_backEdges (basicBlocks cfg)) as Hlive
    by (apply markLoopHeaders_live; by eexists).
  rewrite markLoopHeaders_eq in H by done. simplify_eq.
  set (bs := basicBlocks cfg) in *. set (g := with_header_flag bs).
  assert (∀ x, id (g x) = id x) as Hid by done.
  rewrite markLoopHeaders_eq.
  2:{ simpl. unfold live_backEdges. rewrite Forall_fmap.
      eapply Forall_impl; [exact Hlive|]. intros b Hb. simpl in *.
      eapply Forall_impl; [exact Hb|]. intros p [pb Hp]. simpl in *.
      rewrite deref_fmap, Hp by done. by eexists. }
  simpl. unfold set_basicBlocks. simpl. f_equal. f_equal.
  rewrite <- list_fmap_compose. apply list_fmap_ext. intros _ b _. simpl.
  unfold with_header_flag at 1.
  fold g. rewrite (has_outer_parent_fmap g bs b) by done.
  unfold g, with_header_flag, set_flags. simpl.
  destruct (has_outer_parent bs b); [|done].
  by rewrite <- Z.lor_assoc, Z.lor_diag.
Qed.

Lemma markLoopHeaders_idempotent_witness :
  ∃ cfg', markLoopHeaders two_loops_cfg = Some cfg' ∧ cfg' ≠ two_loops_cfg ∧
          markLoopHeaders cfg' = Some cfg'.
Proof.
  eassert (markLoopHeaders two_loops_cfg = Some _) as E by (vm_compute; reflexivity).
  eexists. split; [exact E|]. split; [discriminate|].
  exact (markLoopHeaders_idempotent _ _ E).
Defined.
(** ** [computeMinMaxLoops]: the write pass and the edge cases *)

Lemma foldM_elem {A B} (f : A → B → option A) l x : ∀ a a',
  foldM f a l = Some a' → x ∈ l → ∃ a1 a2, f a1 x = Some a2.
Proof.
  induction l as [|y l IH]; intros a a' H Hx; [by apply elem_of_nil in Hx|].
  rewrite foldM_cons in H. apply bind_Some in H as (a1 & E & H).
  apply elem_of_cons in Hx as [->|Hx]; [by eauto|by eapply IH].
Qed.

Lemma foldM_defined {A B} (f : A → B → option A) l : ∀ a,
  (∀ a x, x ∈ l → is_Some (f a x)) → is_Some (foldM f a l).
Proof.
  induction l as [|y l IH]; intros a Hf; [by eexists|].
  rewrite foldM_cons. destruct (Hf a y) as [a1 E]; [by left|].
  rewrite E. simpl. apply IH. intros a2 x Hx. apply Hf. by right.
Qed.

Lemma maximum_max l m d : maximum l (Z.max m d) = Z.max d (maximum l m).
Proof. unfold maximum. induction l as [|a l IH]; cbn [foldr app]; lia. Qed.

Lemma maximum_ge l t a : a ∈ l → (a ≤ maximum l t)%Z.
Proof.
  unfold maximum. induction l as [|c l IH]; intros Ha;
    [by apply elem_of_nil in Ha|].
  cbn [foldr]. apply elem_of_cons in Ha as [->|Ha]; [lia|]. apply IH in Ha. lia.
Qed.

Lemma minimum_elem l t a : a ∈ l → (minimum l t ≤ a)%Z.
Proof.
  unfold minimum. induction l as [|c l IH]; intros Ha;
    [by apply elem_of_nil in Ha|].
  cbn [foldr]. apply elem_of_cons in Ha as [->|Ha]; [lia|]. apply IH in Ha. lia.
Qed.

Lemma raise_to_loop bs l : ∀ m m',
  foldM (raise_to bs) m l = Some m' →
  m' = maximum (omap (λ bb, outerLoops <$> deref bs bb) l) m.
Proof.
  induction l as [|bb l IH]; intros m m' H; [by injection H as <-|].
  rewrite foldM_cons in H. apply bind_Some in H as (m1 & E & H).
  unfold raise_to in E. apply bind_Some in E as (b & Eb & [= <-]).
  apply IH in H as ->. cbn [omap list_omap]. rewrite Eb.
  cbn [fmap option_fmap option_map].
  change (maximum (?a :: ?l) ?t) with (Z.max a (maximum l t)).
  rewrite <- maximum_max. f_equal. case_bool_decide; lia.
Qed.

Lemma minmax_write_max_other bs l x : ∀ st st',
  foldM (minmax_write bs) st l = Some st' →
  x ∉ l.*1 → st'.2 !! x = st.2 !! x.
Proof.
  induction l as [|[y s] l IH]; intros st st' H Hx;
    [by injection H as <-|].
  rewrite foldM_cons in H. apply bind_Some in H as (st1 & E & H).
  apply not_elem_of_cons in Hx as [Hxy Hx].
  unfold minmax_write in E. apply bind_Some in E as (m & _ & E).
  apply bind_Some in E as (M & _ & [= <-]).
  rewrite (IH _ _ H Hx). simpl. by rewrite lookup_insert_ne.
Qed.

Lemma minmax_write_max_at bs l x s : ∀ st st',
  foldM (minmax_write bs) st l = Some st' →
  NoDup l.*1 → (x, s) ∈ l →
  st'.2 !! x = Some (maximum (depths bs s) (default 0%Z (st.2 !! x))) ∧
  ∀ p, p ∈ s → is_Some (deref bs p).
Proof.
  induction l as [|[y t] l IH]; intros st st' H Hnd Hx.
  { by apply elem_of_nil in Hx. }
  rewrite foldM_cons in H. apply bind_Some in H as (st1 & E & H).
  apply NoDup_cons in Hnd as [Hy Hnd].
  unfold minmax_write in E. apply bind_Some in E as (m & Em & E).
  apply bind_Some in E as (M & EM & [= <-]).
  simpl in *.
  apply elem_of_cons in Hx as [[= -> ->]|Hx].
  - rewrite (minmax_write_max_other _ _ _ _ _ H Hy). simpl.
    rewrite lookup_insert_eq. split; [by apply raise_to_loop in EM as ->|].
    intros p Hp. apply elem_of_elements in Hp.
    destruct (foldM_elem _ _ _ _ _ EM Hp) as (a1 & a2 & Ea).
    unfold raise_to in Ea. apply bind_Some in Ea as (b & Eb & _). by eexists.
  - destruct (IH _ _ H Hnd Hx) as [-> Hl]. split; [|done]. simpl.
    rewrite lookup_insert_ne; [done|].
    intros ->. apply Hy. apply list_elem_of_fmap. by exists (x, s).
Qed.

Lemma depths_elem bs (s : gset BlockRef) p b :
  p ∈ s → deref bs p = Some b → outerLoops b ∈ depths bs s.
Proof.
  intros Hp Hb. unfold depths. apply list_elem_of_omap. exists p.
  split; [by apply elem_of_elements|]. by rewrite Hb.
Qed.

(** X5: for a variable with an entry in [writes], [computeMinMaxLoops]
    leaves in [maxLoopWrite] the greatest loop depth among its writing
    blocks, and never less than 0 or than the entry that was there before;
    the entry of a variable without an entry in [writes] is not touched. *)
Theorem computeMinMaxLoops_maxLoopWrite RnW cfg cfg' x :
  computeMinMaxLoops RnW cfg = Some cfg' →
  maxLoopWrite cfg' !! x
  = match writes RnW !! x with
    | Some wts => Some (maximum (depths (basicBlocks cfg) wts)
                                (default 0%Z (maxLoopWrite cfg !! x)))
    | None => maxLoopWrite cfg !! x
    end.
Proof.
  unfold computeMinMaxLoops. intros H.
  apply bind_Some in H as (mins & E1 & H).
  apply bind_Some in H as (st & E2 & [= <-]). cbn [maxLoopWrite].
  destruct (writes RnW !! x) as [wts|] eqn:Ew.
  - apply elem_of_map_to_list in Ew.
    by destruct (minmax_write_max_at _ _ _ _ _ _ E2
                   (NoDup_fst_map_to_list _) Ew) as [-> _].
  - rewrite (minmax_write_max_other _ _ _ _ _ E2); [done|].
    intros ([y s] & -> & Hy%elem_of_map_to_list)%list_elem_of_fmap.
    simpl in *. congruence.
Qed.

Lemma computeMinMaxLoops_maxLoopWrite_witness :
  ∃ cfg',
    computeMinMaxLoops depth_RnW depth_cfg = Some cfg' ∧
    maxLoopWrite cfg' !! var 6 = Some 2%Z ∧
    maxLoopWrite cfg' !! var 9 = None.
Proof.
  eassert (computeMinMaxLoops depth_RnW depth_cfg = Some _) as E
    by (vm_compute; reflexivity).
  eexists. split; [exact E|].
  split; rewrite (computeMinMaxLoops_maxLoopWrite _ _ _ _ E);
    vm_compute; reflexivity.
Defined.

(** X6: the pass changes nothing but the two maps, and in [minLoops] only
    the entries of the variables that have an entry in [reads] or in
    [writes]; for a variable that is written but has no entry in [reads],
    the entry becomes the least loop depth among its writing blocks. *)
Theorem computeMinMaxLoops_unread RnW cfg cfg' x :
  computeMinMaxLoops RnW cfg = Some cfg' →
  reads RnW !! x = None →
  cfg' = mkCFG (basicBlocks cfg) (entry cfg) (deadBlock cfg)
               (forwardsTopoSort cfg) (backwardsTopoSort cfg)
               (minLoops cfg') (maxLoopWrite cfg') ∧
  minLoops cfg' !! x
  = match writes RnW !! x with
    | Some wts => Some (minimum (depths (basicBlocks cfg) wts)
                                (default INT_MAX (minLoops cfg !! x)))
    | None => minLoops cfg !! x
    end.
Proof.
  unfold computeMinMaxLoops. intros H Hr.
  apply bind_Some in H as (mins & E1 & H).
  apply bind_Some in H as (st & E2 & [= <-]). split; [done|]. cbn [minLoops].
  assert (mins !! x = minLoops cfg !! x) as Hm.
  { apply (minmax_read_other _ _ _ _ _ E1).
    intros ([y s] & -> & Hy%elem_of_map_to_list)%list_elem_of_fmap.
    simpl in *. congruence. }
  destruct (writes RnW !! x) as [wts|] eqn:Ew.
  - apply elem_of_map_to_list in Ew.
    rewrite (minmax_write_at _ _ _ _ _ _ E2 (NoDup_fst_map_to_list _) Ew).
    simpl. by rewrite Hm.
  - rewrite (minmax_write_other _ _ _ _ _ E2); [done|].
    intros ([y s] & -> & Hy%elem_of_map_to_list)%list_elem_of_fmap.
    simpl in *. congruence.
Qed.

Lemma computeMinMaxLoops_unread_witness :
  ∃ cfg',
    computeMinMaxLoops (mkRnW ∅ (writes depth_RnW)) depth_cfg = Some cfg' ∧
    minLoops cfg' !! var 5 = Some 0%Z ∧ minLoops cfg' !! var 6 = Some 2%Z ∧
    minLoops cfg' !! var 9 = None.
Proof.
  eassert (computeMinMaxLoops (mkRnW ∅ (writes depth_RnW)) depth_cfg = Some _)
    as E by (vm_compute; reflexivity).
  eexists. split; [exact E|].
  split_and!;
    rewrite (proj2 (computeMinMaxLoops_unread _ _ _ _ E eq_refl));
    vm_compute; reflexivity.
Defined.

(** X7: for every variable that some block writes, the two maps are
    consistent after the pass: its [minLoops] entry is at most its
    [maxLoopWrite] entry. *)
Theorem computeMinMaxLoops_min_le_max RnW cfg cfg' x wts p :
  computeMinMaxLoops RnW cfg = Some cfg' →
  writes RnW !! x = Some wts → p ∈ wts →
  ∃ mn mx, minLoops cfg' !! x = Some mn ∧ maxLoopWrite cfg' !! x = Some mx ∧
           (mn ≤ mx)%Z.
Proof.
  unfold computeMinMaxLoops. intros H Hw Hp.
  apply bind_Some in H as (mins & E1 & H).
  apply bind_Some in H as (st & E2 & [= <-]). cbn [minLoops maxLoopWrite].
  apply elem_of_map_to_list in Hw.
  destruct (minmax_write_max_at _ _ _ _ _ _ E2 (NoDup_fst_map_to_list _) Hw)
    as [-> Hlive].
  rewrite (minmax_write_at _ _ _ _ _ _ E2 (NoDup_fst_map_to_list _) Hw).
  eexists _, _. split; [done|]. split; [done|].
  destruct (Hlive p Hp) as [b Hb].
  pose proof (depths_elem _ _ _ _ Hp Hb) as Hd.
  etrans; [by apply minimum_elem|by apply maximum_ge].
Qed.

Lemma computeMinMaxLoops_min_le_max_witness :
  ∃ cfg' mn mx,
    computeMinMaxLoops depth_RnW depth_cfg = Some cfg' ∧
    minLoops cfg' !! var 5 = Some mn ∧ maxLoopWrite cfg' !! var 5 = Some mx ∧
    (mn ≤ mx)%Z.
Proof.
  eassert (computeMinMaxLoops depth_RnW depth_cfg = Some _) as E
    by (vm_compute; reflexivity).
  assert (writes depth_RnW !! var 5 = Some {[ 0 ]}) as Hw
    by (vm_compute; reflexivity).
  destruct (computeMinMaxLoops_min_le_max _ _ _ (var 5) {[ 0 ]} 0 E Hw)
    as (mn & mx & H1 & H2 & H3); [by apply elem_of_singleton|].
  eexists _, mn, mx. split; [exact E|]. by split_and!.
Defined.

(** X8: [computeMinMaxLoops] is undefined exactly when one of the two tables
    names a block that is not in the graph. *)
Theorem computeMinMaxLoops_defined RnW cfg :
  is_Some (computeMinMaxLoops RnW cfg) ↔ RnW_live (basicBlocks cfg) RnW.
Proof.
  unfold computeMinMaxLoops. split.
  - intros [cfg' H].
    apply bind_Some in H as (mins & E1 & H).
    apply bind_Some in H as (st & E2 & _).
    intros x s p [Hx|Hx] Hp; apply elem_of_map_to_list in Hx;
      apply elem_of_elements in Hp.
    + destruct (foldM_elem _ _ _ _ _ E1 Hx) as (a1 & a2 & Ea).
      unfold minmax_read in Ea. apply bind_Some in Ea as (m & Em & _).
      destruct (foldM_elem _ _ _ _ _ Em Hp) as (z1 & z2 & Ez).
      unfold lower_to in Ez. apply bind_Some in Ez as (b & Eb & _). by eexists.
    + destruct (foldM_elem _ _ _ _ _ E2 Hx) as (a1 & a2 & Ea).
      unfold minmax_write in Ea. apply bind_Some in Ea as (m & Em & _).
      destruct (foldM_elem _ _ _ _ _ Em Hp) as (z1 & z2 & Ez).
      unfold lower_to in Ez. apply bind_Some in Ez as (b & Eb & _). by eexists.
  - intros Hlive.
    assert (∀ s m, (∀ p, p ∈ s → is_Some (deref (basicBlocks cfg) p)) →
              is_Some (foldM (lower_to (basicBlocks cfg)) m (elements (s : gset BlockRef))))
      as Hlow.
    { intros s m Hs. apply foldM_defined. intros a p Hp%elem_of_elements.
      destruct (Hs p Hp) as [b Hb]. unfold lower_to. rewrite Hb. by eexists. }
    assert (∀ s m, (∀ p, p ∈ s → is_Some (deref (basicBlocks cfg) p)) →
              is_Some (foldM (raise_to (basicBlocks cfg)) m (elements (s : gset BlockRef))))
      as Hup.
    { intros s m Hs. apply foldM_defined. intros a p Hp%elem_of_elements.
      destruct (Hs p Hp) as [b Hb]. unfold raise_to. rewrite Hb. by eexists. }
    destruct (foldM_defined (minmax_read (basicBlocks cfg))
                (map_to_list (reads RnW)) (minLoops cfg)) as [mins E1].
    { intros a [x s] Hx%elem_of_map_to_list.
      unfold minmax_read. simpl.
      destruct (Hlow s (default INT_MAX (a !! x))) as [m ->]; [|by eexists].
      intros p Hp. by apply (Hlive x s p); [left|]. }
    rewrite E1. simpl.
    destruct (foldM_defined (minmax_write (basicBlocks cfg))
                (map_to_list (writes RnW)) (mins, maxLoopWrite cfg)) as [st E2].
    { intros a [x s] Hx%elem_of_map_to_list.
      unfold minmax_write. simpl.
      assert (∀ p, p ∈ s → is_Some (deref (basicBlocks cfg) p)) as Hs.
      { intros p Hp. by apply (Hlive x s p); [right|]. }
      destruct (Hlow s (default INT_MAX (a.1 !! x)) Hs) as [m ->].
      destruct (Hup s (default 0%Z (a.2 !! x)) Hs) as [M ->]. by eexists. }
    rewrite E2. by eexists.
Qed.
(** ** [fillInBlockArguments]: what the preprocessing leaves in the tables *)

Lemma single_block_spec (rds wts : gset BlockRef) :
  single_block rds wts = true ↔ ∃ r, rds = {[ r ]} ∧ wts = {[ r ]}.
Proof.
  unfold single_block. split.
  - destruct (elements rds) as [|r [|??]] eqn:Er; [done| |done].
    destruct (elements wts) as [|w [|??]] eqn:Ew; [done| |done].
    intros ->%Nat.eqb_eq. exists w.
    split; apply set_eq; intros y; rewrite <- elem_of_elements;
      unfold BlockRef in *; rewrite ?Er, ?Ew;
      by rewrite list_elem_of_singleton, elem_of_singleton.
  - intros (r & -> & ->). rewrite !elements_singleton. apply Nat.eqb_refl.
Qed.

Lemma preprocess_read_other R pair x :
  x ≠ pair.1 →
  reads (preprocess_read R pair) !! x = reads R !! x ∧
  writes (preprocess_read R pair) !! x = writes R !! x.
Proof.
  intros Hne. unfold preprocess_read.
  repeat case_match; simpl; by rewrite !lookup_insert_ne.
Qed.

Lemma preprocess_read_at R pair :
  let x := pair.1 in
  let rds := default ∅ (reads R !! x) in
  let wts := default ∅ (writes R !! x) in
  reads (preprocess_read R pair) !! x
  = (if single_block rds wts || bool_decide (wts = ∅) then Some ∅
     else reads R !! x) ∧
  writes (preprocess_read R pair) !! x
  = Some (if single_block rds wts then ∅ else wts).
Proof.
  intros x rds wts. unfold preprocess_read. fold x. fold rds. fold wts.
  change (match elements rds with
          | [r] => match elements wts with
                   | [w] => r =? w
                   | _ => false
                   end
          | _ => false
          end) with (single_block rds wts).
  destruct (single_block rds wts); simpl.
  { by rewrite !lookup_insert_eq. }
  case_bool_decide; simpl; by rewrite !lookup_insert_eq.
Qed.

(** The loop over the reads, variable by variable. *)
Lemma preprocess_reads_fold l x : ∀ R,
  NoDup l.*1 →
  let rds := default ∅ (reads R !! x) in
  let wts := default ∅ (writes R !! x) in
  let R' := foldl preprocess_read R l in
  (x ∉ l.*1 → reads R' !! x = reads R !! x ∧ writes R' !! x = writes R !! x) ∧
  (x ∈ l.*1 →
   reads R' !! x = (if single_block rds wts || bool_decide (wts = ∅)
                    then Some ∅ else reads R !! x) ∧
   writes R' !! x = Some (if single_block rds wts then ∅ else wts)).
Proof.
  induction l as [|pair l IH]; intros R Hnd; simpl.
  { split; [done|]. by intros ?%elem_of_nil. }
  apply NoDup_cons in Hnd as [Hhd Hnd].
  destruct (IH (preprocess_read R pair) Hnd) as [IHo IHa]. split.
  - intros [Hne Hx]%not_elem_of_cons.
    destruct (IHo Hx) as [-> ->]. by apply preprocess_read_other.
  - intros [->|Hx]%elem_of_cons.
    + destruct (IHo Hhd) as [-> ->]. apply preprocess_read_at.
    + assert (x ≠ pair.1) as Hne by (by intros ->).
      destruct (IHa Hx) as [-> ->].
      by destruct (preprocess_read_other R pair x Hne) as [-> ->].
Qed.

(** The loop over the writes, for a variable it comes across. *)
Lemma preprocess_writes_values bs l x s0 : ∀ R rbb wbb R' rbb' wbb',
  foldM (preprocess_write bs) (R, rbb, wbb) l = Some (R', rbb', wbb') →
  NoDup l.*1 → (x, s0) ∈ l →
  let rds := default ∅ (reads R !! x) in
  reads R' !! x = Some rds ∧
  writes R' !! x
  = Some (if bool_decide (rds = ∅) then ∅ else default ∅ (writes R !! x)).
Proof.
  induction l as [|pair l IH]; intros R rbb wbb R' rbb' wbb' H Hnd Hx.
  { by apply elem_of_nil in Hx. }
  rewrite foldM_cons in H. apply bind_Some in H as ([[R1 r1] w1] & H1 & H).
  apply NoDup_cons in Hnd as [Hhd Hnd].
  apply preprocess_write_spec in H1 as (-> & _).
  apply elem_of_cons in Hx as [<-|Hx].
  - destruct (preprocess_writes_other _ _ x _ _ _ _ _ _ H Hhd)
      as (-> & -> & _).
    simpl. by rewrite !lookup_insert_eq.
  - assert (pair.1 ≠ x) as Hne.
    { intros <-. apply Hhd. apply list_elem_of_fmap. by exists (pair.1, s0). }
    destruct (IH _ _ _ _ _ _ H Hnd Hx) as [-> ->]. simpl.
    by rewrite !lookup_insert_ne.
Qed.

Lemma preprocess_tables_values bs RnW RnW' rbb wbb x :
  preprocess bs RnW = Some (RnW', rbb, wbb) →
  (reads RnW' !! x, writes RnW' !! x)
  = if escapes RnW x then (reads RnW !! x, writes RnW !! x)
    else if bool_decide (is_Some (reads RnW !! x) ∨ is_Some (writes RnW !! x))
         then (Some ∅, Some ∅) else (None, None).
Proof.
  unfold preprocess. intros H.
  set (R1 := foldl preprocess_read RnW (map_to_list (reads RnW))) in *.
  destruct (preprocess_reads_fold (map_to_list (reads RnW)) x RnW
              (NoDup_fst_map_to_list _)) as [Ho Ha]. fold R1 in Ho, Ha.
  assert (x ∈ (map_to_list (reads RnW)).*1 ↔ is_Some (reads RnW !! x)) as Hkr.
  { rewrite list_elem_of_fmap. split.
    - intros ([y s] & -> & Hin%elem_of_map_to_list). by eexists.
    - intros [s Hs]. exists (x, s). by rewrite elem_of_map_to_list. }
  assert (∀ R : ReadsAndWrites,
            x ∈ (map_to_list (writes R)).*1 ↔ is_Some (writes R !! x)) as Hkw.
  { intros R. rewrite list_elem_of_fmap. split.
    - intros ([y s] & -> & Hin%elem_of_map_to_list). by eexists.
    - intros [s Hs]. exists (x, s). by rewrite elem_of_map_to_list. }
  unfold escapes.
  destruct (reads RnW !! x) as [rds|] eqn:Er.
  - destruct Ha as [Hr1 Hw1]; [apply Hkr; by eexists|]. simpl in *.
    assert ((x, if single_block rds (default ∅ (writes RnW !! x))
                then ∅ else default ∅ (writes RnW !! x))
            ∈ map_to_list (writes R1)) as Hin
      by (by apply elem_of_map_to_list).
    destruct (preprocess_writes_values _ _ _ _ _ _ _ _ _ _ H
                (NoDup_fst_map_to_list _) Hin) as [-> ->].
    rewrite Hr1, Hw1. simpl.
    destruct (single_block rds _) eqn:Es; simpl.
    { by rewrite bool_decide_eq_true_2. }
    destruct (writes RnW !! x) as [wts|] eqn:Ew; simpl in *.
    + destruct (bool_decide (wts = ∅)) eqn:Ewe; simpl.
      * rewrite bool_decide_eq_true_2 by done.
        by rewrite andb_false_r.
      * rewrite andb_true_r.
        destruct (bool_decide (rds = ∅)) eqn:Ere; simpl; [|done].
        apply bool_decide_eq_true in Ere. by rewrite Ere.
    + rewrite (bool_decide_eq_true_2 (∅ = ∅)) by done. simpl.
      rewrite bool_decide_eq_true_2 by done. by rewrite andb_false_r.
  - destruct Ho as [Hr1 Hw1]; [rewrite Hkr; by intros [??]|]. simpl.
    rewrite (bool_decide_eq_true_2 (∅ = ∅)) by done.
    rewrite andb_false_r. simpl.
    destruct (writes RnW !! x) as [wts|] eqn:Ew.
    + rewrite (bool_decide_eq_true_2 (_ ∨ _)) by (right; by eexists).
      assert ((x, wts) ∈ map_to_list (writes R1)) as Hin.
      { apply elem_of_map_to_list. by rewrite Hw1. }
      destruct (preprocess_writes_values _ _ _ _ _ _ _ _ _ _ H
                  (NoDup_fst_map_to_list _) Hin) as [-> ->].
      rewrite Hr1. simpl. by rewrite bool_decide_eq_true_2.
    + rewrite (bool_decide_eq_false_2 (_ ∨ _)) by (by intros [[??]|[??]]).
      destruct (preprocess_writes_other _ _ x _ _ _ _ _ _ H)
        as (-> & -> & _); [|by rewrite Hr1, Hw1].
      rewrite Hkw, Hw1. by intros [??].
Qed.

(** X9: the two loops at the head of [fillInBlockArguments] leave both sets
    of a variable as they were when some block reads it, some block writes
    it, and these are not one and the same single block; they leave both
    sets empty for every other variable that had an entry in one of the
    tables, and make no entry for a variable that had none. *)
Theorem preprocess_tables bs RnW RnW' rbb wbb x :
  preprocess bs RnW = Some (RnW', rbb, wbb) →
  (escapes RnW x = true ↔
   ∃ rds wts r w, reads RnW !! x = Some rds ∧ writes RnW !! x = Some wts ∧
                  r ∈ rds ∧ w ∈ wts ∧ ¬ (rds = {[ r ]} ∧ wts = {[ r ]})) ∧
  (escapes RnW x = true →
   reads RnW' !! x = reads RnW !! x ∧ writes RnW' !! x = writes RnW !! x) ∧
  (escapes RnW x = false →
   is_Some (reads RnW !! x) ∨ is_Some (writes RnW !! x) →
   reads RnW' !! x = Some ∅ ∧ writes RnW' !! x = Some ∅) ∧
  (reads RnW !! x = None → writes RnW !! x = None →
   reads RnW' !! x = None ∧ writes RnW' !! x = None).
Proof.
  intros H. apply (preprocess_tables_values _ _ _ _ _ x) in H.
  split_and!.
  - unfold escapes. rewrite !andb_true_iff, !negb_true_iff,
      !bool_decide_eq_false. split.
    + intros [[Hs Hr] Hw].
      destruct (reads RnW !! x) as [rds|]; [|done].
      destruct (writes RnW !! x) as [wts|]; [|done]. simpl in *.
      apply set_choose_L in Hr as [r Hr]. apply set_choose_L in Hw as [w Hw].
      exists rds, wts, r, w. split_and!; [done..|].
      intros [-> ->]. rewrite <- not_true_iff_false in Hs. apply Hs.
      apply single_block_spec. by exists r.
    + intros (rds & wts & r & w & -> & -> & Hr & Hw & Hne). simpl.
      split_and!; [|set_solver..].
      apply not_true_iff_false. intros (r' & -> & ->)%single_block_spec.
      apply Hne. assert (r = r') as -> by set_solver. done.
  - intros He. rewrite He in H. by simplify_eq.
  - intros He Hk. rewrite He, bool_decide_eq_true_2 in H by done.
    by simplify_eq.
  - intros Hr Hw. unfold escapes in H. rewrite Hr, Hw in H. simpl in H.
    rewrite ?(bool_decide_eq_true_2 (∅ = ∅)) in H by done.
    rewrite ?andb_false_r in H. simpl in H.
    rewrite ?bool_decide_eq_false_2 in H by (by intros [[??]|[??]]).
    by simplify_eq.
Qed.

Lemma preprocess_tables_witness :
  ∃ RnW' rbb wbb,
    preprocess (basicBlocks diamond_cfg) diamond_RnW = Some (RnW', rbb, wbb) ∧
    escapes diamond_RnW (var 5) = true ∧
    reads RnW' !! var 5 = Some {[ 4 ]} ∧ writes RnW' !! var 5 = Some {[ 0 ]} ∧
    escapes diamond_RnW (var 6) = false ∧
    reads RnW' !! var 6 = Some ∅ ∧ writes RnW' !! var 6 = Some ∅.
Proof.
  eassert (preprocess (basicBlocks diamond_cfg) diamond_RnW = Some (_, _, _))
    as E by (vm_compute; reflexivity).
  eexists _, _, _. split; [exact E|].
  destruct (preprocess_tables _ _ _ _ _ (var 5) E) as (_ & H5 & _).
  destruct (preprocess_tables _ _ _ _ _ (var 6) E) as (_ & _ & H6 & _).
  assert (escapes diamond_RnW (var 5) = true) as E5 by (vm_compute; reflexivity).
  assert (escapes diamond_RnW (var 6) = false) as E6 by (vm_compute; reflexivity).
  destruct (H5 E5) as [-> ->].
  destruct H6 as [-> ->]; [done|left; eexists; vm_compute; reflexivity|].
  split_and!; try done; vm_compute; reflexivity.
Defined.
(** ** [fillInBlockArguments]: only variables that escape become arguments *)

Lemma fixpoint_loop_within (U : VarSet) step order fuel : ∀ v v',
  (∀ v c bb v' c', step (v, c) bb = Some (v', c') →
                   Forall (λ s, s ⊆ U) v → Forall (λ s, s ⊆ U) v') →
  fixpoint_loop fuel step order v = Some v' →
  Forall (λ s, s ⊆ U) v → Forall (λ s, s ⊆ U) v'.
Proof.
  induction fuel as [|fuel IH]; intros v v' Hstep H Hv; [done|].
  cbn [fixpoint_loop] in H. apply bind_Some in H as ([v1 c1] & Hpass & H).
  assert (Forall (λ s, s ⊆ U) v1) as Hv1.
  { apply (foldM_invariant (λ st, Forall (λ s, s ⊆ U) st.1) _ _ _ _ Hpass);
      [done|].
    intros [a c] bb [a' c'] _ Ha Hs. simpl in *. by eapply Hstep. }
  simpl in H. destruct c1; [by eapply IH|by simplify_eq].
Qed.

Lemma upper_bounds1_within cfg rbb fuel ub :
  fixpoint_loop fuel (upper_bounds1_step cfg rbb) (forwardsTopoSort cfg)
                (replicate (length (basicBlocks cfg)) ∅) = Some ub →
  ∀ x i, x ∈ slot ub i → ∃ j, x ∈ slot rbb j.
Proof.
  intros H x i Hx.
  assert (Forall (λ s, s ⊆ ⋃ rbb) ub) as Hub.
  { eapply fixpoint_loop_within; [|exact H|].
    - intros v c bb v' c' Hs Hv.
      apply upper_bounds1_step_spec in Hs as (b & old & _ & Hold & -> & _).
      apply Forall_insert; [done|].
      apply union_least; [by eapply Forall_lookup_1 in Hv|].
      apply reads_rhs_bound; [apply union_list_bound|done].
    - apply Forall_replicate. set_solver. }
  assert (x ∈ ⋃ rbb) as Hin by (by eapply slot_bound).
  apply elem_of_union_list in Hin as (s & Hs & Hxs).
  apply list_elem_of_lookup in Hs as [j Hj]. exists j.
  by rewrite (slot_lookup _ _ _ Hj).
Qed.

(** X10: whatever block [fillInBlockArguments] gives a new argument, the
    variable is one that escapes its block in the tables the pass is given:
    some block reads it, some block writes it, and these are not one and
    the same single block.  A variable only read, only written, or local to
    one block is never made an argument. *)
Theorem fillInBlockArguments_args_escape fuel RnW cfg RnW' cfg' :
  fillInBlockArguments fuel RnW cfg = Some (RnW', cfg') →
  Forall2 (λ b b', ∀ x, x ∈ args b' → x ∈ args b ∨ escapes RnW x = true)
          (basicBlocks cfg) (basicBlocks cfg').
Proof.
  unfold fillInBlockArguments. intros H.
  apply bind_Some in H as ([[R1 rbb] wbb] & Ep & H).
  apply bind_Some in H as (ub1 & E1 & H).
  apply bind_Some in H as (ub2 & E2 & H).
  apply bind_Some in H as (bs & Ec & [= <- <-]). simpl.
  apply mapM_Some in Ec. eapply Forall2_impl; [exact Ec|].
  intros b b' Hc x Hx. simpl in *.
  unfold combine in Hc. apply bind_Some in Hc as (set2 & H2 & Hc).
  apply bind_Some in Hc as (set1 & Hs1 & [= <-]). cbn [args set_args] in Hx.
  rewrite merge_sort_Permutation in Hx.
  apply elem_of_app in Hx as [Hx|Hx]; [by left|right].
  apply elem_of_List_filter in Hx as [Hx _]. apply elem_of_elements in Hx.
  rewrite <- (slot_lookup _ _ _ Hs1) in Hx.
  destruct (upper_bounds1_within _ _ _ _ E1 x _ Hx) as [j Hj].
  destruct (preprocess_by_block _ _ _ _ _ Ep x j) as [Hr _].
  apply Hr in Hj as (s & Hs & Hjs).
  pose proof (preprocess_tables_values _ _ _ _ _ x Ep) as Hv.
  destruct (escapes RnW x); [done|].
  case_bool_decide; simplify_eq; set_solver.
Qed.

Lemma fillInBlockArguments_args_escape_witness :
  ∃ RnW' cfg',
    fillInBlockArguments 3 diamond_RnW diamond_cfg = Some (RnW', cfg') ∧
    (args <$> basicBlocks cfg')
    = [[var 5]; []; [var 5; var 7]; [var 5]; [var 5; var 7]] ∧
    escapes diamond_RnW (var 6) = false ∧ escapes diamond_RnW (var 8) = false ∧
    Forall2 (λ b b', ∀ x, x ∈ args b' →
                          x ∈ args b ∨ escapes diamond_RnW x = true)
            (basicBlocks diamond_cfg) (basicBlocks cfg').
Proof.
  eassert (fillInBlockArguments 3 diamond_RnW diamond_cfg = Some (_, _)) as E
    by (vm_compute; reflexivity).
  eexists _, _. split; [exact E|].
  split; [vm_compute; reflexivity|].
  split; [vm_compute; reflexivity|].
  split; [vm_compute; reflexivity|].
  exact (fillInBlockArguments_args_escape _ _ _ _ _ E).
Defined.
(** ** [dealias]: what it leaves alone, and the alias maps it builds *)

Lemma dealias_defined_witness :
  dense_ids (basicBlocks chain_cfg) ∧ no_dangling chain_cfg ∧
  is_Some (dealias sample_ctx chain_cfg).
Proof.
  assert (dense_ids (basicBlocks chain_cfg)) as Hd.
  { unfold dense_ids. repeat constructor; simpl; lia. }
  assert (no_dangling chain_cfg) as Hn.
  { unfold no_dangling. split_and!; repeat constructor;
      by (eexists; vm_compute; reflexivity). }
  split; [exact Hd|]. split; [exact Hn|].
  exact (dealias_defined sample_ctx chain_cfg Hd Hn).
Defined.

Lemma dealias_run_keeps ctx dead l q : ∀ st st',
  foldM (dealias_block ctx dead) st l = Some st' →
  q = dead ∨ q ∉ l → deref st'.1 q = deref st.1 q.
Proof.
  induction l as [|x l IH]; intros st st' H Hq; [by injection H as <-|].
  rewrite foldM_cons in H. apply bind_Some in H as (st1 & E & H).
  rewrite (IH _ _ H).
  2:{ destruct Hq as [->|Hq]; [by left|right].
      by apply not_elem_of_cons in Hq as [_ ?]. }
  destruct st as [bs oa], st1 as [bs1 oa1].
  apply dealias_block_inv in E
    as [(_ & -> & _)|(b & ? & ? & Hne & _ & _ & _ & -> & _)]; [done|].
  simpl. rewrite deref_update by done. rewrite decide_False; [done|].
  destruct Hq as [->|Hq]; [done|]. apply not_elem_of_cons in Hq as [? _]. done.
Qed.

(** X11: [dealias] never rewrites the dead block, nor any block that
    [backwardsTopoSort] does not list. *)
Theorem dealias_untouched ctx cfg cfg' q :
  dealias ctx cfg = Some cfg' →
  q = deadBlock cfg ∨ q ∉ backwardsTopoSort cfg →
  deref (basicBlocks cfg') q = deref (basicBlocks cfg) q.
Proof.
  unfold dealias, dealias_run. intros H Hq.
  apply bind_Some in H as (st & Hrun & [= <-]). simpl.
  by apply (dealias_run_keeps _ _ _ q _ _ Hrun).
Qed.

Lemma dealias_untouched_witness :
  ∃ cfg',
    dealias sample_ctx chain_cfg = Some cfg' ∧ cfg' ≠ chain_cfg ∧
    deref (basicBlocks cfg') 1 = deref (basicBlocks chain_cfg) 1.
Proof.
  eassert (dealias sample_ctx chain_cfg = Some _) as E
    by (vm_compute; reflexivity).
  eexists. split; [exact E|]. split; [by vm_compute|].
  apply (dealias_untouched sample_ctx chain_cfg _ 1 E). by left.
Defined.

Lemma dealias_block_resolved ctx dead st bb st' :
  dealias_block ctx dead st bb = Some st' →
  Forall (resolved ctx) st.2 → Forall (resolved ctx) st'.2.
Proof.
  destruct st as [bs oa], st' as [bs' oa']. intros H Hoa.
  apply dealias_block_inv in H
    as [(_ & _ & ->)|(b & oa1 & cur & _ & _ & Hseed & Hcur & _ & ->)];
    [done|]. simpl in *.
  pose proof (dealias_seed_resolved _ _ _ _ _ _ Hoa Hseed) as Hoa1.
  apply Forall_insert; [done|].
  apply dealias_exprs_idem. by eapply Forall_lookup_1.
Qed.

(** X12: in every alias map that [dealias] builds, the variable an alias
    stands for is not itself replaced by a lookup in that map: no chain of
    aliases is left, so one lookup reaches the end of it. *)
Theorem dealias_run_resolved ctx cfg st :
  dealias_run ctx cfg = Some st →
  Forall (λ m : Aliases,
            ∀ k v, m !! k = Some v → maybeDealias ctx v m = v) st.2.
Proof.
  unfold dealias_run. intros H.
  apply (foldM_invariant (λ s, Forall (resolved ctx) s.2) _ _ _ _ H).
  - simpl. apply Forall_replicate, resolved_empty.
  - intros a x a' _ Ha Hs. by eapply dealias_block_resolved.
Qed.

Lemma dealias_run_resolved_witness :
  ∃ st,
    dealias_run sample_ctx chain_cfg = Some st ∧
    Forall (λ m : Aliases,
              ∀ k v, m !! k = Some v → maybeDealias sample_ctx v m = v) st.2.
Proof.
  eassert (dealias_run sample_ctx chain_cfg = Some _) as E
    by (vm_compute; reflexivity).
  eexists. split; [exact E|].
  exact (dealias_run_resolved _ _ _ E).
Defined.
(** ** [dealias]: the uses of a copied temporary are replaced *)

Section copies.
Variable ctx : Context.
Variables t v : LocalVariable.
Hypothesis t_synthetic : isSyntheticTemporary t ctx = true.

Lemma maybeDealias_not_copy (m : Aliases) x :
  copy_of m t v → maybeDealias ctx x m ≠ t.
Proof.
  intros [Ht Hno]. unfold maybeDealias.
  destruct (isSyntheticTemporary x ctx) eqn:Ex.
  - destruct (m !! x) as [w|] eqn:Ew.
    + intros ->. by apply (Hno x).
    + intros ->. congruence.
  - intros ->. congruence.
Qed.

Lemma copy_of_invalidate (m : Aliases) b :
  copy_of m t v → b ≠ v → copy_of (invalidate b m) t v.
Proof.
  intros [Ht Hno] Hb. split.
  - unfold invalidate. apply map_lookup_filter_Some. split; [done|]. simpl.
    congruence.
  - intros k Hk. apply (Hno k).
    eapply lookup_weaken; [done|apply invalidate_subseteq].
Qed.

Lemma copy_of_record (m : Aliases) b w :
  copy_of m t v → b ≠ t → w ≠ t → copy_of (<[b := w]> m) t v.
Proof.
  intros [Ht Hno] Hb Hw. split.
  - by rewrite lookup_insert_ne.
  - intros k. destruct (decide (k = b)) as [->|Hne].
    + rewrite lookup_insert_eq. congruence.
    + rewrite lookup_insert_ne by done. apply Hno.
Qed.

Lemma dealias_binding_copy current e :
  copy_of current t v → bind e ≠ t → bind e ≠ v →
  copy_of (dealias_binding ctx current e).2 t v ∧
  t ∉ rewritten_operands (value (dealias_binding ctx current e).1).
Proof.
  intros Hc Hbt Hbv.
  pose proof (copy_of_invalidate _ _ Hc Hbv) as Hc1.
  unfold dealias_binding. destruct (value e) as [w|r f a|w| | | | | | | | | |];
    cbn [fst snd value rewritten_operands];
    try (split; [done|by intros ?%elem_of_nil]).
  - split.
    + apply copy_of_record; [done..|]. by apply maybeDealias_not_copy.
    + intros Hr%list_elem_of_singleton.
      symmetry in Hr. by eapply maybeDealias_not_copy.
  - split; [done|]. intros [Hr|Ha]%elem_of_cons.
    + symmetry in Hr. by eapply maybeDealias_not_copy.
    + apply list_elem_of_In, in_map_iff in Ha as (x & Hx & _).
      by eapply maybeDealias_not_copy.
  - split; [done|]. intros Hr%list_elem_of_singleton.
    symmetry in Hr. by eapply maybeDealias_not_copy.
Qed.

Lemma dealias_binding_bind current e :
  bind (dealias_binding ctx current e).1 = bind e.
Proof. done. Qed.

(** Once the copy is in the map, it stays and is applied for as long as
    neither variable is bound again. *)
Lemma dealias_exprs_after_copy es : ∀ current,
  copy_of current t v →
  (∀ j e', (dealias_exprs ctx current es).1 !! j = Some e' →
     (∀ m e, m ≤ j → (dealias_exprs ctx current es).1 !! m = Some e →
             bind e ≠ t ∧ bind e ≠ v) →
     t ∉ rewritten_operands (value e')) ∧
  ((∀ m e, (dealias_exprs ctx current es).1 !! m = Some e →
           bind e ≠ t ∧ bind e ≠ v) →
   copy_of (dealias_exprs ctx current es).2 t v).
Proof.
  induction es as [|e es IH]; intros current Hc; cbn [dealias_exprs].
  { split; [intros j e' Hj; done|done]. }
  destruct (dealias_binding ctx current e) as [e1 c1] eqn:E1.
  destruct (dealias_exprs ctx c1 es) as [es' c2] eqn:E2.
  cbn [fst snd].
  assert (bind e1 ≠ t ∧ bind e1 ≠ v →
          copy_of c1 t v ∧ t ∉ rewritten_operands (value e1)) as Hstep.
  { intros [Hn1 Hn2].
    pose proof (dealias_binding_copy current e Hc) as Hcopy.
    pose proof (dealias_binding_bind current e) as Hb.
    rewrite E1 in Hcopy, Hb. simpl in *. apply Hcopy; congruence. }
  split.
  - intros j e' Hj Hall.
    destruct (Hstep (Hall 0 e1 ltac:(lia) eq_refl)) as [Hc1 Hop].
    destruct j as [|j]; [by simplify_eq/=|]. simpl in Hj.
    destruct (IH c1 Hc1) as [IHj _]. rewrite E2 in IHj. simpl in IHj.
    apply (IHj j e' Hj). intros m e0 Hm He0. apply (Hall (S m) e0); [lia|done].
  - intros Hall.
    destruct (Hstep (Hall 0 e1 eq_refl)) as [Hc1 Hop].
    destruct (IH c1 Hc1) as [_ IHc]. rewrite E2 in IHc. simpl in IHc.
    apply IHc. intros m e0 He0. by apply (Hall (S m) e0).
Qed.

Lemma dealias_binding_makes_copy current e :
  (dealias_binding ctx current e).1 = mkBinding t (Ident v) → v ≠ t →
  copy_of (dealias_binding ctx current e).2 t v.
Proof.
  unfold dealias_binding.
  destruct (value e) as [w|r f a|w| | | | | | | | | |];
    cbn [fst snd]; intros [= Hb Hv] Hne.
  rewrite Hv, Hb. split.
  - by rewrite lookup_insert_eq.
  - intros k. destruct (decide (k = t)) as [->|Hk].
    + rewrite lookup_insert_eq. congruence.
    + rewrite lookup_insert_ne by done. apply invalidate_no_value.
Qed.

Lemma dealias_exprs_copies es : ∀ current i,
  (dealias_exprs ctx current es).1 !! i = Some (mkBinding t (Ident v)) →
  v ≠ t →
  (∀ j e', i < j → (dealias_exprs ctx current es).1 !! j = Some e' →
     (∀ m e, i < m ≤ j → (dealias_exprs ctx current es).1 !! m = Some e →
             bind e ≠ t ∧ bind e ≠ v) →
     t ∉ rewritten_operands (value e')) ∧
  ((∀ m e, i < m → (dealias_exprs ctx current es).1 !! m = Some e →
           bind e ≠ t ∧ bind e ≠ v) →
   copy_of (dealias_exprs ctx current es).2 t v).
Proof.
  induction es as [|e es IH]; intros current i; cbn [dealias_exprs]; [done|].
  pose proof (dealias_binding_makes_copy current e) as Hmk.
  destruct (dealias_binding ctx current e) as [e1 c1] eqn:E1.
  pose proof (dealias_exprs_after_copy es c1) as Hafter.
  specialize (IH c1).
  destruct (dealias_exprs ctx c1 es) as [es' c2] eqn:E2.
  cbn [fst snd] in *. intros Hi Hne.
  destruct i as [|i].
  - injection Hi as ->. destruct (Hafter (Hmk eq_refl Hne)) as [Hj Hend].
    split.
    + intros [|j] e' Hlt He' Hall; [lia|]. simpl in He'.
      apply (Hj j e' He'). intros m e0 Hm He0.
      apply (Hall (S m) e0); [lia|done].
    + intros Hall. apply Hend. intros m e0 He0.
      apply (Hall (S m) e0); [lia|done].
  - simpl in Hi. destruct (IH i Hi Hne) as [Hj Hend]. split.
    + intros [|j] e' Hlt He' Hall; [lia|]. simpl in He'.
      apply (Hj j e'); [lia|done|]. intros m e0 Hm He0.
      apply (Hall (S m) e0); [lia|done].
    + intros Hall. apply Hend. intros m e0 Hm He0.
      apply (Hall (S m) e0); [lia|done].
Qed.

End copies.

Lemma dealias_run_output ctx dead l bb : ∀ st st',
  foldM (dealias_block ctx dead) st l = Some st' →
  bb ∈ l → bb ≠ dead →
  ∃ b current,
    deref st'.1 bb
    = Some (set_bexit
              (dealias_cond ctx (dealias_exprs ctx current (exprs b)).2
                            (bexit b))
              (set_exprs (dealias_exprs ctx current (exprs b)).1 b)).
Proof.
  induction l as [|x l IH]; intros st st' H Hbb Hne;
    [by apply elem_of_nil in Hbb|].
  rewrite foldM_cons in H. apply bind_Some in H as (st1 & E & H).
  destruct (decide (bb ∈ l)) as [Hin|Hnotin]; [by eapply IH|].
  apply elem_of_cons in Hbb as [<-|?]; [|done].
  rewrite (dealias_run_keeps _ _ _ bb _ _ H) by (by right).
  destruct st as [bs oa], st1 as [bs1 oa1].
  apply dealias_block_inv in E
    as [(? & _)|(b & oa' & cur & _ & Hb & _ & _ & -> & _)]; [done|].
  exists b, cur. simpl. rewrite deref_update by done.
  by rewrite decide_True, Hb.
Qed.

(** X13: in a block that [dealias] has processed, a copy [t = v] into a
    synthetic temporary [t] is followed by no use of [t]: in every later
    binding of the block, up to the next one that binds [t] or [v], no
    operand that the pass looks up is [t]; and if neither is bound again in
    the block, the exit condition is not [t] either. *)
Theorem dealias_replaces_copies ctx cfg cfg' bb b' i t v :
  dealias ctx cfg = Some cfg' →
  bb ∈ backwardsTopoSort cfg → bb ≠ deadBlock cfg →
  deref (basicBlocks cfg') bb = Some b' →
  exprs b' !! i = Some (mkBinding t (Ident v)) →
  isSyntheticTemporary t ctx = true → v ≠ t →
  (∀ j e', i < j → exprs b' !! j = Some e' →
     (∀ m e, i < m ≤ j → exprs b' !! m = Some e → bind e ≠ t ∧ bind e ≠ v) →
     t ∉ rewritten_operands (value e')) ∧
  ((∀ m e, i < m → exprs b' !! m = Some e → bind e ≠ t ∧ bind e ≠ v) →
   exists_ t = true → cond (bexit b') ≠ t).
Proof.
  unfold dealias, dealias_run. intros H Hbb Hne Hb' Hi Hsyn Hvt.
  apply bind_Some in H as (st & Hrun & [= <-]). simpl in Hb'.
  destruct (dealias_run_output _ _ _ _ _ _ Hrun Hbb Hne) as (b & cur & Hout).
  rewrite Hout in Hb'. injection Hb' as <-. cbn [exprs set_bexit set_exprs] in *.
  destruct (dealias_exprs_copies ctx t v Hsyn (exprs b) cur i Hi Hvt)
    as [Hj Hend].
  split; [exact Hj|]. intros Hall Hex. specialize (Hend Hall).
  cbn [bexit]. unfold dealias_cond.
  destruct (exists_ (cond (bexit b))) eqn:Ec.
  - cbn [cond set_cond]. by eapply maybeDealias_not_copy.
  - intros Heq. simpl in Heq. rewrite Heq in Ec. congruence.
Qed.

Lemma dealias_replaces_copies_witness :
  ∃ cfg' b',
    dealias sample_ctx chain_cfg = Some cfg' ∧
    deref (basicBlocks cfg') 0 = Some b' ∧
    exprs b' !! 1 = Some (mkBinding (var 101) (Ident (var 5))) ∧
    exprs b' !! 3 = Some (mkBinding (var 103) (Send (var 5) 9 [var 5; var 6])) ∧
    var 101 ∉ rewritten_operands (Send (var 5) 9 [var 5; var 6]).
Proof.
  eassert (dealias sample_ctx chain_cfg = Some _) as E
    by (vm_compute; reflexivity).
  match type of E with _ = Some ?c =>
    eassert (deref (basicBlocks c) 0 = Some _) as Eb by (vm_compute; reflexivity)
  end.
  eexists _, _. split; [exact E|]. split; [exact Eb|].
  split; [reflexivity|]. split; [reflexivity|].
  refine (proj1 (dealias_replaces_copies sample_ctx chain_cfg _ 0 _ 1
            (var 101) (var 5) E _ _ Eb eq_refl eq_refl _) 3 _ _ eq_refl _).
  - by left.
  - done.
  - done.
  - lia.
  - clear E Eb. intros m e Hm He.
    assert (m = 2 ∨ m = 3) as [-> | ->] by lia;
      injection He as <-; split; discriminate.
Defined.
(** ** [dealias]: the aliases a block starts with *)

Lemma meet_lookup (current other : Aliases) k v :
  meet current other !! k = Some v ↔ current !! k = Some v ∧ other !! k = Some v.
Proof. unfold meet. by rewrite map_lookup_filter_Some. Qed.

Lemma dealias_seed_fold bs (oa : list Aliases) bb parents : ∀ oa1 oa' cur0,
  (∀ j, j ≠ bb → oa1 !! j = oa !! j) → oa1 !! bb = Some cur0 →
  bb ∉ parents →
  foldM (λ oa parent,
           i ← id_of bs parent;
           other ← oa !! i;
           current ← oa !! bb;
           Some (<[bb := meet current other]> oa)) oa1 parents = Some oa' →
  length oa' = length oa1 ∧ (∀ j, j ≠ bb → oa' !! j = oa !! j) ∧
  ∃ cur, oa' !! bb = Some cur ∧
    ∀ k v, cur !! k = Some v ↔
           cur0 !! k = Some v ∧
           ∀ p, p ∈ parents → ∃ other, oa !! p = Some other ∧ other !! k = Some v.
Proof.
  induction parents as [|p parents IH]; intros oa1 oa' cur0 Hoth Hbb Hnot H.
  { injection H as <-. split; [done|]. split; [done|]. exists cur0.
    split; [done|]. intros k v. split; [|by intros [??]].
    intros ?. split; [done|]. by intros ? ?%elem_of_nil. }
  apply not_elem_of_cons in Hnot as [Hne Hnot].
  rewrite foldM_cons in H. apply bind_Some in H as (oa2 & E & H).
  apply bind_Some in E as (i & Hi & E). apply id_of_Some in Hi as [-> _].
  apply bind_Some in E as (other & Hother & E).
  apply bind_Some in E as (current & Hcur & [= <-]).
  assert (current = cur0) as -> by congruence.
  rewrite Hoth in Hother by done.
  assert (bb < length oa1) as Hlt by (by eapply lookup_lt_Some).
  eapply IH in H as (Hlen & Hoth' & cur & Hc & Hiff); [| |by apply list_lookup_insert_eq|done].
  2:{ intros j Hj. rewrite list_lookup_insert_ne by done. by apply Hoth. }
  rewrite length_insert in Hlen. split; [done|]. split; [done|].
  exists cur. split; [done|]. intros k v. rewrite Hiff, meet_lookup. split.
  - intros [[H0 Ho] Hrest]. split; [done|].
    intros q [->|Hq]%elem_of_cons; [by exists other|by apply Hrest].
  - intros [H0 Hall]. split.
    + split; [done|]. destruct (Hall p) as (o & Ho & Hk); [by left|].
      assert (Some o = Some other) as [= ->]
        by (etrans; [symmetry; exact Ho|exact Hother]).
      done.
    + intros q Hq. apply Hall. by right.
Qed.

(** X14: at the head of a block that is not its own predecessor, the alias
    map [dealias] starts from holds exactly the aliases on which the maps
    left by all its predecessors agree (the map of a predecessor that has
    not been processed yet is empty, so nothing survives such a join); with
    no predecessor the map of the block is left as it is.  The maps of the
    other blocks are not touched. *)
Theorem dealias_seed_meet bs oa bb parents oa' :
  dealias_seed bs oa bb parents = Some oa' →
  bb ∉ parents →
  length oa' = length oa ∧ (∀ j, j ≠ bb → oa' !! j = oa !! j) ∧
  ∃ cur, oa' !! bb = Some cur ∧
    match parents with
    | [] => oa !! bb = Some cur
    | _ => ∀ k v, cur !! k = Some v ↔
             ∀ p, p ∈ parents →
                  ∃ other, oa !! p = Some other ∧ other !! k = Some v
    end.
Proof.
  unfold dealias_seed. intros H Hnot.
  apply bind_Some in H as (old & Hold & H).
  apply bind_Some in H as (oa1 & E1 & H).
  destruct parents as [|p0 rest].
  { injection E1 as <-. injection H as <-. split; [done|]. split; [done|].
    by exists old. }
  apply bind_Some in E1 as (i & Hi & E1). apply id_of_Some in Hi as [-> _].
  apply bind_Some in E1 as (a & Ha & [= <-]).
  assert (bb < length oa) as Hlt by (by eapply lookup_lt_Some).
  eapply (dealias_seed_fold bs oa bb (p0 :: rest) _ _ a) in H
    as (Hlen & Hoth & cur & Hc & Hiff);
    [| |by apply list_lookup_insert_eq|done].
  2:{ intros j Hj. by rewrite list_lookup_insert_ne. }
  rewrite length_insert in Hlen. split; [done|]. split; [done|].
  exists cur. split; [done|]. intros k v. rewrite Hiff. split; [by intros [??]|].
  intros Hall. split; [|done].
  destruct (Hall p0) as (o & Ho & Hk); [by left|].
  assert (Some o = Some a) as [= ->]
    by (etrans; [symmetry; exact Ho|exact Ha]).
  done.
Qed.

Lemma dealias_seed_meet_witness :
  ∃ oa' cur,
    dealias_seed (basicBlocks diamond_cfg)
      [ {[ var 100 := var 5 ]}; ∅;
        {[ var 100 := var 5; var 101 := var 6 ]};
        {[ var 100 := var 5; var 101 := var 7 ]}; ∅ ] 4 [2; 3] = Some oa' ∧
    oa' !! 4 = Some cur ∧
    cur !! var 100 = Some (var 5) ∧ cur !! var 101 = None.
Proof.
  eassert (dealias_seed (basicBlocks diamond_cfg)
             [ {[ var 100 := var 5 ]}; ∅;
               {[ var 100 := var 5; var 101 := var 6 ]};
               {[ var 100 := var 5; var 101 := var 7 ]}; ∅ ] 4 [2; 3]
           = Some _) as E
    by (vm_compute; reflexivity).
  destruct (dealias_seed_meet _ _ _ _ _ E) as (_ & _ & cur & Hc & Hiff).
  { intros [[=]|[[=]|[]%elem_of_nil]%elem_of_cons]%elem_of_cons. }
  eexists _, cur. split; [exact E|]. split; [exact Hc|]. split.
  - apply Hiff. intros p [->|[->|[]%elem_of_nil]%elem_of_cons]%elem_of_cons;
      eexists; split; reflexivity.
  - destruct (cur !! var 101) as [w|] eqn:Ew; [|done].
    pose proof (proj1 (Hiff (var 101) w) Ew) as Hall.
    clear Ew. rename Hall into Ew.
    destruct (Ew 2) as (o2 & [= <-] & H2); [by left|].
    destruct (Ew 3) as (o3 & [= <-] & H3); [by right; left|].
    vm_compute in H2, H3. congruence.
Defined.
(** ** The two sorts as marking traversals *)

Lemma marked_with_refl mask bs : marked_with mask bs bs.
Proof. apply Forall_Forall2_diag, Forall_forall. intros; by left. Qed.

Lemma marked_with_trans mask bs1 bs2 bs3 :
  marked_with mask bs1 bs2 → marked_with mask bs2 bs3 →
  marked_with mask bs1 bs3.
Proof.
  intros H1 H2. eapply Forall2_trans; [|done..].
  intros x y z [->| ->] [->| ->]; auto. right.
  unfold set_flags. simpl. by rewrite <- Z.lor_assoc, Z.lor_diag.
Qed.

Lemma marked_with_deref mask bs bs' q :
  marked_with mask bs bs' →
  match deref bs q, deref bs' q with
  | Some b, Some b' => b' = b ∨ b' = set_flags (Z.lor (flags b) mask) b
  | None, None => True
  | _, _ => False
  end.
Proof.
  unfold deref. induction 1 as [|x y bs bs' Hxy _ IH]; simpl; [done|].
  assert (id y = id x) as -> by (by destruct Hxy as [->| ->]).
  by destruct (id x =? q).
Qed.

Lemma marked_with_update mask h bs :
  marked_with mask bs (update h (λ b, set_flags (Z.lor (flags b) mask) b) bs).
Proof. apply update_Forall2; intros; [by left|by right]. Qed.

Lemma marked_live bs bs' q mask :
  marked_with mask bs bs' → is_Some (deref bs q) → is_Some (deref bs' q).
Proof.
  intros Hm [b Hb]. pose proof (marked_with_deref _ _ _ q Hm) as Hq.
  rewrite Hb in Hq. destruct (deref bs' q); [by eexists|done].
Qed.

Lemma emit_inv h st st' :
  emit h st = Some st' →
  st.2 < length st.1.2 ∧ st' = (st.1.1, <[st.2 := h]> st.1.2, S st.2).
Proof.
  destruct st as [[bs target] nf]. unfold emit.
  destruct (Nat.ltb_spec nf (length target)); [|done]. by intros [= <-].
Qed.

Section marking.
Variable mask : Z.
Variable next : BasicBlock → list BlockRef.
Hypothesis mask_marks : ∀ b,
  visited mask (set_flags (Z.lor (flags b) mask) b) = true.
Hypothesis next_flags : ∀ b f, next (set_flags f b) = next b.

Lemma unvisited_visited bs q :
  unvisited_by mask bs q → visited_by mask bs q → False.
Proof. intros (b & Hb & Hu) (b' & Hb' & Hv). congruence. Qed.

Lemma marked_visited bs bs' q :
  marked_with mask bs bs' → visited_by mask bs q → visited_by mask bs' q.
Proof.
  intros Hm (b & Hb & Hv). pose proof (marked_with_deref _ _ _ q Hm) as Hq.
  rewrite Hb in Hq. destruct (deref bs' q) as [b'|] eqn:Hb'; [|done].
  exists b'. split; [done|]. destruct Hq as [->| ->]; [done|].
  apply mask_marks.
Qed.

Lemma marked_unvisited bs bs' q :
  marked_with mask bs bs' → unvisited_by mask bs' q → unvisited_by mask bs q.
Proof.
  intros Hm (b' & Hb' & Hu). pose proof (marked_with_deref _ _ _ q Hm) as Hq.
  rewrite Hb' in Hq. destruct (deref bs q) as [b|] eqn:Hb; [|done].
  exists b. split; [done|]. destruct Hq as [->| ->]; [done|].
  by rewrite mask_marks in Hu.
Qed.

Lemma marked_next bs bs' q b b' :
  marked_with mask bs bs' → deref bs q = Some b → deref bs' q = Some b' →
  next b' = next b.
Proof.
  intros Hm Hb Hb'. pose proof (marked_with_deref _ _ _ q Hm) as Hq.
  rewrite Hb, Hb' in Hq. destruct Hq as [->| ->]; [done|apply next_flags].
Qed.

(** A live block is visited or it is not. *)
Lemma visit_status bs q :
  is_Some (deref bs q) → visited_by mask bs q ∨ unvisited_by mask bs q.
Proof.
  intros [b Hb]. destruct (visited mask b) eqn:Hv; [left|right]; by exists b.
Qed.

Lemma sorted_run_refl st : sorted_run mask next st st.
Proof.
  split_and!; [done..|apply marked_with_refl| | | |].
  - intros q Hu Hv. destruct (unvisited_visited _ _ Hu Hv).
  - intros j q ?. lia.
  - intros i j q ?. lia.
  - intros q b' (b & Hb & Hu) Hb' Hv. congruence.
Qed.

Lemma sorted_run_trans st1 st2 st3 :
  sorted_run mask next st1 st2 → sorted_run mask next st2 st3 →
  sorted_run mask next st1 st3.
Proof.
  intros (Hn1 & Hl1 & Hp1 & Hm1 & Hw1 & Ho1 & Hi1 & Hc1)
         (Hn2 & Hl2 & Hp2 & Hm2 & Hw2 & Ho2 & Hi2 & Hc2).
  split_and!.
  - lia.
  - congruence.
  - intros j Hj. rewrite Hp2 by lia. by apply Hp1.
  - by eapply marked_with_trans.
  - intros q Hu Hv.
    destruct (visit_status st2.1.1 q) as [Hv2|Hu2].
    { destruct Hu as (b & Hb & _). eapply marked_live; [done|by eexists]. }
    + destruct (Hw1 q Hu Hv2) as (j & Hj & Ej).
      exists j. split; [lia|]. by rewrite Hp2 by lia.
    + destruct (Hw2 q Hu2 Hv) as (j & Hj & Ej). exists j. split; [lia|done].
  - intros j q Hj Ej. destruct (decide (j < st2.2)) as [Hlt|Hge].
    + rewrite Hp2 in Ej by done. destruct (Ho1 j q) as [Hu Hv]; [lia|done|].
      split; [done|]. by eapply marked_visited.
    + destruct (Ho2 j q) as [Hu Hv]; [lia|done|].
      split; [|done]. by eapply marked_unvisited.
  - intros i j q Hi Hj Ei Ej.
    destruct (decide (i < st2.2)) as [Hilt|Hige];
      destruct (decide (j < st2.2)) as [Hjlt|Hjge].
    + rewrite Hp2 in Ei, Ej by done. apply (Hi1 i j q); [lia|lia|done..].
    + rewrite Hp2 in Ei by done.
      destruct (Ho1 i q) as [_ Hv]; [lia|done|].
      destruct (Ho2 j q) as [Hu _]; [lia|done|].
      destruct (unvisited_visited _ _ Hu Hv).
    + rewrite Hp2 in Ej by done.
      destruct (Ho1 j q) as [_ Hv]; [lia|done|].
      destruct (Ho2 i q) as [Hu _]; [lia|done|].
      destruct (unvisited_visited _ _ Hu Hv).
    + apply (Hi2 i j q); [lia|lia|done..].
  - intros q b3 Hu Hb3 Hv3.
    pose proof (marked_with_deref _ _ _ q Hm2) as Hq. rewrite Hb3 in Hq.
    destruct (deref st2.1.1 q) as [b2|] eqn:Hb2; [|done].
    destruct (visited mask b2) eqn:Hv2.
    + pose proof (Hc1 q b2 Hu Hb2 Hv2) as Hall.
      rewrite (marked_next _ _ _ _ _ Hm2 Hb2 Hb3).
      eapply Forall_impl; [exact Hall|]. intros e. by apply marked_visited.
    + apply (Hc2 q b3); [by exists b2|done..].
Qed.

(** A loop of calls, one after the other. *)
Lemma sorted_run_all visit l :
  (∀ st p st', visit st p = Some st' →
     sorted_run mask next st st' ∧ visited_by mask st'.1.1 p) →
  ∀ st st', foldM visit st l = Some st' →
    sorted_run mask next st st' ∧ Forall (visited_by mask st'.1.1) l.
Proof.
  intros Hv. induction l as [|p l IH]; intros st st' H.
  { injection H as <-. split; [apply sorted_run_refl|constructor]. }
  rewrite foldM_cons in H. apply bind_Some in H as (st1 & H1 & H).
  apply Hv in H1 as [Hs1 Hp]. apply IH in H as [Hs Hl].
  split; [by eapply sorted_run_trans|]. constructor; [|done].
  destruct Hs as (_ & _ & _ & Hm & _). by eapply marked_visited.
Qed.

(** The visit of a block [h]: it is marked, calls are made, [h] is written,
    more calls are made. *)
Lemma sorted_run_visit h b st sta stb stc :
  deref st.1.1 h = Some b → visited mask b = false →
  sorted_run mask next (mark mask h st) sta →
  emit h sta = Some stb →
  sorted_run mask next stb stc →
  Forall (visited_by mask stc.1.1) (next b) →
  sorted_run mask next st stc ∧ visited_by mask stc.1.1 h ∧
  st.2 ≤ sta.2 < stc.2 ∧ stc.1.2 !! sta.2 = Some h.
Proof.
  intros Eb Hvis (Hn1 & Hl1 & Hp1 & Hm1 & Hw1 & Ho1 & Hi1 & Hc1) He
         (Hn2 & Hl2 & Hp2 & Hm2 & Hw2 & Ho2 & Hi2 & Hc2) Hnext.
  apply emit_inv in He as [Hroom ->].
  destruct st as [[bs target] nf], sta as [[bsa ta] nfa],
    stc as [[bsc tc] nfc]. simpl in *.
  set (bsm := update h (λ b, set_flags (Z.lor (flags b) mask) b) bs) in *.
  assert (marked_with mask bs bsm) as Hmark by apply marked_with_update.
  assert (visited_by mask bsm h) as Hvh.
  { eexists. unfold bsm. rewrite deref_update, decide_True, Eb by done.
    split; [done|]. apply mask_marks. }
  assert (∀ q, q ≠ h → unvisited_by mask bs q → unvisited_by mask bsm q)
    as Hum.
  { intros q Hq (x & Hx & Hu). exists x. unfold bsm.
    rewrite deref_update by done. by rewrite decide_False. }
  assert (visited_by mask bsa h) as Hvha by (by eapply marked_visited).
  assert (visited_by mask bsc h) as Hvhc by (by eapply marked_visited).
  assert (tc !! nfa = Some h) as Hh.
  { rewrite Hp2 by lia. apply list_lookup_insert_eq. lia. }
  assert (∀ j, j < nfa → tc !! j = ta !! j) as Hlow.
  { intros j Hj. rewrite Hp2 by lia. apply list_lookup_insert_ne. lia. }
  split; [|split; [done|split; [lia|done]]].
  split_and!; simpl.
  - lia.
  - rewrite Hl2, length_insert. done.
  - intros j Hj. rewrite Hlow by lia. by apply Hp1.
  - eapply marked_with_trans; [done|]. by eapply marked_with_trans.
  - intros q Hu Hv. destruct (decide (q = h)) as [->|Hne].
    { exists nfa. split; [lia|done]. }
    destruct (visit_status bsa q) as [Hva|Hua].
    { destruct Hu as (x & Hx & _).
      eapply marked_live; [done|]. eapply marked_live; [done|by eexists]. }
    + destruct (Hw1 q) as (j & Hj & Ej); [by apply Hum|done|].
      exists j. split; [lia|]. by rewrite Hlow by lia.
    + destruct (Hw2 q Hua Hv) as (j & Hj & Ej). exists j. split; [lia|done].
  - intros j q Hj Ej.
    destruct (decide (j < nfa)) as [Hlt|Hge];
      [|destruct (decide (j = nfa)) as [->|Hne]].
    + rewrite Hlow in Ej by done.
      destruct (Ho1 j q) as [Hu Hv]; [lia|done|]. split.
      * by eapply marked_unvisited.
      * by eapply marked_visited.
    + rewrite Hh in Ej. injection Ej as <-. split; [by exists b|done].
    + destruct (Ho2 j q) as [Hu Hv]; [lia|done|]. split; [|done].
      eapply marked_unvisited; [done|]. by eapply marked_unvisited.
  - assert (∀ i j q, nf ≤ i < nfa → nfa ≤ j < nfc →
              tc !! i = Some q → tc !! j = Some q → False) as Hzones.
    { intros i j q Hi Hj Ei Ej. rewrite Hlow in Ei by lia.
      destruct (Ho1 i q) as [Hu Hv]; [lia|done|].
      destruct (decide (j = nfa)) as [->|Hne].
      - rewrite Hh in Ej. injection Ej as <-.
        destruct (unvisited_visited _ _ Hu Hvh).
      - destruct (Ho2 j q) as [Hu2 _]; [lia|done|].
        destruct (unvisited_visited _ _ Hu2 Hv). }
    assert (∀ j, S nfa ≤ j < nfc → tc !! j = Some h → False) as Hafter.
    { intros j Hj Ej. destruct (Ho2 j h) as [Hu2 _]; [lia|done|].
      destruct (unvisited_visited _ _ Hu2 Hvha). }
    intros i j q Hi Hj Ei Ej.
    destruct (decide (i < nfa)) as [Hilt|Hige];
      destruct (decide (j < nfa)) as [Hjlt|Hjge].
    + rewrite Hlow in Ei, Ej by done. apply (Hi1 i j q); [lia|lia|done..].
    + destruct (Hzones i j q); [lia|lia|done..].
    + destruct (Hzones j i q); [lia|lia|done..].
    + destruct (decide (i = nfa)) as [->|Hine];
        destruct (decide (j = nfa)) as [->|Hjne]; [done| | |].
      * rewrite Hh in Ei. injection Ei as <-. destruct (Hafter j); [lia|done].
      * rewrite Hh in Ej. injection Ej as <-. destruct (Hafter i); [lia|done].
      * apply (Hi2 i j q); [lia|lia|done..].
  - intros q b' Hu Hb' Hv. destruct (decide (q = h)) as [->|Hne].
    { assert (marked_with mask bs bsc) as Hall.
      { eapply marked_with_trans; [done|]. by eapply marked_with_trans. }
      by rewrite (marked_next _ _ _ _ _ Hall Eb Hb'). }
    pose proof (marked_with_deref _ _ _ q Hm2) as Hq. rewrite Hb' in Hq.
    destruct (deref bsa q) as [ba|] eqn:Hba; [|done].
    destruct (visited mask ba) eqn:Hva.
    + pose proof (Hc1 q ba (Hum q Hne Hu) Hba Hva) as Hall.
      rewrite (marked_next _ _ _ _ _ Hm2 Hba Hb').
      eapply Forall_impl; [exact Hall|]. intros e. by apply marked_visited.
    + apply (Hc2 q b'); [by exists ba|done..].
Qed.

(** From a graph in which nothing is marked, what is reached is visited. *)
Lemma sorted_run_reaches st st' p q :
  sorted_run mask next st st' → visited_by mask st'.1.1 p →
  Forall (λ b, visited mask b = false) st.1.1 →
  reaches next st.1.1 p q →
  written st'.1.2 st.2 st'.2 q.
Proof.
  intros (_ & _ & _ & Hm & Hw & _ & _ & Hc) Hv Hfresh Hreach.
  assert (∀ x, is_Some (deref st.1.1 x) → unvisited_by mask st.1.1 x) as Hall.
  { intros x [b Hb]. exists b. split; [done|].
    apply deref_Some in Hb as [Hin _].
    by eapply Forall_forall in Hfresh. }
  assert (∀ x, visited_by mask st'.1.1 x → unvisited_by mask st.1.1 x) as Hnew.
  { intros x (b' & Hb' & _). apply Hall.
    pose proof (marked_with_deref _ _ _ x Hm) as Hx. rewrite Hb' in Hx.
    destruct (deref st.1.1 x); [by eexists|done]. }
  assert (visited_by mask st'.1.1 q) as Hq.
  { induction Hreach as [p|p b e q Hb He _ IH]; [done|].
    apply IH. destruct Hv as (b' & Hb' & Hvb').
    pose proof (Hc p b' (Hall p ltac:(by eexists)) Hb' Hvb') as Hn.
    rewrite (marked_next _ _ _ _ _ Hm Hb Hb') in Hn.
    by eapply Forall_forall in Hn. }
  apply Hw; [by apply Hnew|done].
Qed.

Lemma mark_count_by h bs b :
  deref bs h = Some b → visited mask b = false →
  S (count_unvisited_by mask
       (update h (λ b, set_flags (Z.lor (flags b) mask) b) bs))
  = count_unvisited_by mask bs.
Proof.
  unfold deref, count_unvisited_by.
  induction bs as [|x bs IH]; intros Hb Hv; simpl in *; [done|].
  destruct (id x =? h).
  - simplify_eq. simpl. rewrite mask_marks, Hv. done.
  - simpl. destruct (visited mask x); simpl; by rewrite IH.
Qed.

Lemma marked_closed bs bs' :
  marked_with mask bs bs' → closed_under_next next bs →
  closed_under_next next bs'.
Proof.
  intros Hm Hc q b' Hb'. pose proof (marked_with_deref _ _ _ q Hm) as Hq.
  rewrite Hb' in Hq. destruct (deref bs q) as [b|] eqn:Hb; [|done].
  rewrite (marked_next _ _ _ _ _ Hm Hb Hb').
  eapply Forall_impl; [by eapply Hc|]. intros e.
  by apply (marked_live bs bs' e mask).
Qed.

End marking.

Lemma fwd_visited_mark b :
  visited FORWARD_TOPO_SORT_VISITED
    (set_flags (Z.lor (flags b) FORWARD_TOPO_SORT_VISITED) b) = true.
Proof.
  unfold visited, set_flags, FORWARD_TOPO_SORT_VISITED. simpl.
  apply negb_true_iff, Z.eqb_neq. intros H.
  apply (f_equal (λ z, Z.testbit z 0)) in H.
  rewrite Z.land_spec, Z.lor_spec in H. simpl in H.
  by rewrite orb_true_r in H.
Qed.

Lemma successors_flags b f : successors (set_flags f b) = successors b.
Proof. done. Qed.

Lemma backEdges_flags b f : backEdges (set_flags f b) = backEdges b.
Proof. done. Qed.
(** ** [topoSortFwd] *)

(** What a call of [topoSortFwd] that returns has done. *)
Lemma topoSortFwd_run fuel : ∀ st p st',
  topoSortFwd fuel st p = Some st' →
  sorted_run FORWARD_TOPO_SORT_VISITED successors st st' ∧
  visited_by FORWARD_TOPO_SORT_VISITED st'.1.1 p.
Proof.
  induction fuel as [|fuel IH]; intros st h st' H; [done|].
  cbn [topoSortFwd] in H. apply bind_Some in H as (b & Eb & H).
  destruct (visited FORWARD_TOPO_SORT_VISITED b) eqn:Hvis.
  { injection H as <-. split; [apply sorted_run_refl|]. by exists b. }
  apply bind_Some in H as (st1 & H1 & H).
  apply bind_Some in H as (st2 & H2 & He).
  apply IH in H1 as [Hs1 Hvt]. apply IH in H2 as [Hs2 Hve].
  pose proof (sorted_run_trans _ _ fwd_visited_mark successors_flags
                _ _ _ Hs1 Hs2) as Hs.
  destruct (sorted_run_visit _ _ fwd_visited_mark successors_flags
              h b st st2 st' st' Eb Hvis Hs He) as (Hrun & Hv & _).
  - apply sorted_run_refl.
  - apply emit_inv in He as [_ ->]. simpl.
    destruct Hs2 as (_ & _ & _ & Hm2 & _).
    repeat constructor; [|done].
    by eapply (marked_visited _ fwd_visited_mark).
  - done.
Qed.

(** X15: a call of [topoSortFwd] on a block [h] not yet visited writes [h]
    last, at the index before the one it returns, and so after both its
    successors as far as they had not been visited before; it leaves the
    vector below its starting index alone, changes nothing in the blocks
    but the visited bit, and writes the blocks it visits, and no others,
    once each. *)
Theorem topoSortFwd_postorder fuel st h b st' :
  topoSortFwd fuel st h = Some st' →
  deref st.1.1 h = Some b →
  visited FORWARD_TOPO_SORT_VISITED b = false →
  st.2 < st'.2 ∧ st'.1.2 !! (st'.2 - 1) = Some h ∧
  (∀ s, s ∈ successors b → s ≠ h →
        unvisited_by FORWARD_TOPO_SORT_VISITED st.1.1 s →
        written st'.1.2 st.2 (st'.2 - 1) s) ∧
  sorted_run FORWARD_TOPO_SORT_VISITED successors st st'.
Proof.
  intros H Eb Hvis.
  pose proof (topoSortFwd_run _ _ _ _ H) as [Hs Hv].
  assert (st.2 < st'.2 ∧ st'.1.2 !! (st'.2 - 1) = Some h) as [Hlt Hlast].
  { destruct fuel as [|fuel]; [done|].
    cbn [topoSortFwd] in H. rewrite Eb in H. simpl in H. rewrite Hvis in H.
    apply bind_Some in H as (st1 & H1 & H).
    apply bind_Some in H as (st2 & H2 & He).
    apply topoSortFwd_run in H1 as [(Hn1 & _) _].
    apply topoSortFwd_run in H2 as [(Hn2 & _) _].
    apply emit_inv in He as [Hroom ->].
    destruct st as [[bs target] nf], st2 as [[bs2 t2] nf2]. simpl in *.
    split; [lia|]. rewrite Nat.sub_0_r. by apply list_lookup_insert_eq. }
  split_and!; [done..| |done].
  intros s Hsucc Hne Hu.
  destruct Hs as (_ & _ & _ & _ & Hw & _ & _ & Hc).
  destruct Hv as (b' & Hb' & Hvb').
  assert (visited_by FORWARD_TOPO_SORT_VISITED st'.1.1 s) as Hvs.
  { pose proof (Hc h b' ltac:(by exists b) Hb' Hvb') as Hall.
    pose proof (topoSortFwd_run _ _ _ _ H) as [(_ & _ & _ & Hm & _) _].
    rewrite (marked_next _ _ successors_flags _ _ _ _ _ Hm Eb Hb') in Hall.
    by eapply Forall_forall in Hall. }
  destruct (Hw s Hu Hvs) as (j & Hj & Ej). exists j. split; [|done].
  assert (j ≠ st'.2 - 1) by (intros ->; congruence). lia.
Qed.

Lemma topoSortFwd_postorder_witness :
  ∃ st',
    topoSortFwd 10 (basicBlocks diamond_cfg, replicate 5 0, 0) 0 = Some st' ∧
    st'.1.2 = [1; 4; 2; 3; 0] ∧ st'.2 = 5 ∧
    written st'.1.2 0 4 2 ∧ written st'.1.2 0 4 3.
Proof.
  eassert (topoSortFwd 10 (basicBlocks diamond_cfg, replicate 5 0, 0) 0
           = Some _) as E by (vm_compute; reflexivity).
  eexists. split; [exact E|]. split; [reflexivity|]. split; [reflexivity|].
  destruct (topoSortFwd_postorder _ _ 0 _ _ E eq_refl eq_refl)
    as (_ & _ & Hsucc & _).
  split.
  - apply (Hsucc 2); [by left|done|]. eexists. split; reflexivity.
  - apply (Hsucc 3); [by right; left|done|]. eexists. split; reflexivity.
Defined.

(** X16: started on a graph in which no block is marked as visited,
    [topoSortFwd] writes every block that can be reached from its starting
    block along the exits. *)
Theorem topoSortFwd_reaches fuel st p st' q :
  topoSortFwd fuel st p = Some st' →
  Forall (λ b, visited FORWARD_TOPO_SORT_VISITED b = false) st.1.1 →
  reaches successors st.1.1 p q →
  written st'.1.2 st.2 st'.2 q.
Proof.
  intros H Hfresh Hreach. apply topoSortFwd_run in H as [Hs Hv].
  by eapply (sorted_run_reaches _ _ successors_flags).
Qed.

Lemma topoSortFwd_reaches_witness :
  ∃ st',
    topoSortFwd 10 (basicBlocks diamond_cfg, replicate 5 0, 0) 0 = Some st' ∧
    reaches successors (basicBlocks diamond_cfg) 0 4 ∧
    written st'.1.2 0 st'.2 4.
Proof.
  eassert (topoSortFwd 10 (basicBlocks diamond_cfg, replicate 5 0, 0) 0
           = Some _) as E by (vm_compute; reflexivity).
  assert (reaches successors (basicBlocks diamond_cfg) 0 4) as Hr.
  { eapply reaches_step; [reflexivity|by left|].
    eapply reaches_step; [reflexivity|by left|]. apply reaches_here. }
  eexists. split; [exact E|]. split; [exact Hr|].
  apply (topoSortFwd_reaches _ _ _ _ 4 E); [|exact Hr].
  repeat constructor.
Defined.

(** X17: [topoSortFwd] returns whenever the exits of the blocks lead to
    blocks of the graph, the recursion may go deeper than there are blocks
    not yet visited, and the vector has room for them; it then writes as
    many blocks as it has newly visited. *)
Theorem topoSortFwd_returns fuel : ∀ st p,
  closed_under_next successors st.1.1 → is_Some (deref st.1.1 p) →
  count_unvisited_by FORWARD_TOPO_SORT_VISITED st.1.1 < fuel →
  st.2 + count_unvisited_by FORWARD_TOPO_SORT_VISITED st.1.1
  ≤ length st.1.2 →
  ∃ st', topoSortFwd fuel st p = Some st' ∧
         st'.2 + count_unvisited_by FORWARD_TOPO_SORT_VISITED st'.1.1
         = st.2 + count_unvisited_by FORWARD_TOPO_SORT_VISITED st.1.1.
Proof.
  induction fuel as [|fuel IH]; intros st h Hc [b Hb] Hm Hroom; [lia|].
  cbn [topoSortFwd]. rewrite Hb. simpl.
  destruct (visited FORWARD_TOPO_SORT_VISITED b) eqn:Hvis; [by exists st|].
  destruct st as [[bs target] nf]. simpl in *.
  pose proof (mark_count_by _ fwd_visited_mark h bs b Hb Hvis) as Hcount.
  pose proof (marked_with_update FORWARD_TOPO_SORT_VISITED h bs) as Hmark.
  set (bsm := update h _ bs) in *.
  pose proof (Hc h b Hb) as Hsucc.
  apply Forall_cons in Hsucc as [Hlt Hsucc].
  apply Forall_cons in Hsucc as [Hle _].
  pose proof (marked_closed _ _ successors_flags _ _ Hmark Hc) as Hcm.
  destruct (IH (bsm, target, nf) (thenb (bexit b))) as (st1 & H1 & Hn1);
    [done|by eapply marked_live|simpl; lia|simpl; lia|].
  rewrite H1. simpl. simpl in Hn1.
  pose proof (topoSortFwd_run _ _ _ _ H1)
    as [(Hle1 & Hlen1 & _ & Hm1 & _) _]. simpl in *.
  destruct (IH st1 (elseb (bexit b))) as (st2 & H2 & Hn2).
  { by eapply (marked_closed _ _ successors_flags). }
  { eapply marked_live; [done|]. by eapply marked_live. }
  { lia. }
  { lia. }
  rewrite H2. simpl.
  pose proof (topoSortFwd_run _ _ _ _ H2) as [(Hle2 & Hlen2 & _) _].
  destruct st2 as [[bs2 t2] nf2]. simpl in *. unfold emit.
  assert ((nf2 <? length t2) = true) as -> by (apply Nat.ltb_lt; lia).
  eexists. split; [done|]. simpl. lia.
Qed.

Lemma topoSortFwd_returns_witness :
  ∃ st',
    topoSortFwd 6 (basicBlocks diamond_cfg, replicate 5 0, 0) 0 = Some st' ∧
    st'.2 + count_unvisited_by FORWARD_TOPO_SORT_VISITED st'.1.1 = 5.
Proof.
  apply (topoSortFwd_returns 6 (basicBlocks diamond_cfg, replicate 5 0, 0) 0).
  - intros q b Hb. apply deref_Some in Hb as [Hin _].
    repeat (apply elem_of_cons in Hin as [->|Hin]);
      [repeat constructor; eexists; reflexivity..|by apply elem_of_nil in Hin].
  - eexists. reflexivity.
  - vm_compute. lia.
  - vm_compute. lia.
Defined.
(** ** [topoSortBwd] as a marking traversal *)

(** What a call of [topoSortBwd] that returns has done. *)
Lemma topoSortBwd_run fuel : ∀ st p st',
  topoSortBwd fuel st p = Some st' →
  sorted_run BACKWARD_TOPO_SORT_VISITED backEdges st st' ∧
  visited_by BACKWARD_TOPO_SORT_VISITED st'.1.1 p.
Proof.
  induction fuel as [|fuel IH]; intros st h st' H; [done|].
  cbn [topoSortBwd] in H. apply bind_Some in H as (b & Eb & H).
  destruct (visited BACKWARD_TOPO_SORT_VISITED b) eqn:Hvis.
  { injection H as <-. split; [apply sorted_run_refl|]. by exists b. }
  apply bind_Some in H as ([st1 rest] & Hout & H).
  apply visit_outer_split in Hout as (lo & Hedges & Hlo).
  apply (sorted_run_all _ _ visited_mark backEdges_flags _ _ IH) in Hlo
    as [Hs1 Hvlo].
  destruct (length rest <? length (backEdges b)).
  - apply bind_Some in H as (st2 & He & H).
    apply (sorted_run_all _ _ visited_mark backEdges_flags _ _ IH) in H
      as [Hs2 Hvhi].
    destruct (sorted_run_visit _ _ visited_mark backEdges_flags
                h b st st1 st2 st' Eb Hvis Hs1 He Hs2) as (Hrun & Hv & _);
      [|done].
    rewrite Hedges. apply Forall_app. split; [|done].
    apply emit_inv in He as [_ ->]. destruct Hs2 as (_ & _ & _ & Hm & _).
    eapply Forall_impl; [exact Hvlo|]. intros e.
    by apply (marked_visited _ visited_mark).
  - apply bind_Some in H as (st2 & H & He).
    apply (sorted_run_all _ _ visited_mark backEdges_flags _ _ IH) in H
      as [Hs2 Hvhi].
    pose proof (sorted_run_trans _ _ visited_mark backEdges_flags
                  _ _ _ Hs1 Hs2) as Hs.
    destruct (sorted_run_visit _ _ visited_mark backEdges_flags
                h b st st2 st' st' Eb Hvis Hs He) as (Hrun & Hv & _);
      [apply sorted_run_refl| |done].
    rewrite Hedges. apply Forall_app.
    apply emit_inv in He as [_ ->]. simpl.
    destruct Hs2 as (_ & _ & _ & Hm & _). split; [|done].
    eapply Forall_impl; [exact Hvlo|]. intros e.
    by apply (marked_visited _ visited_mark).
Qed.

(** X18: a call of [topoSortBwd] that returns has set the visited bit in
    the blocks it has come to for the first time and changed nothing else
    in the graph; it has written exactly these blocks, once each, from its
    starting index on, and left the vector below that index alone; and
    every predecessor of a block it has newly visited is visited as
    well. *)
Theorem topoSortBwd_once fuel st p st' :
  topoSortBwd fuel st p = Some st' →
  sorted_run BACKWARD_TOPO_SORT_VISITED backEdges st st' ∧
  visited_by BACKWARD_TOPO_SORT_VISITED st'.1.1 p.
Proof. apply topoSortBwd_run. Qed.

Lemma topoSortBwd_once_witness :
  ∃ st',
    topoSortBwd 12 (basicBlocks two_loops_cfg, replicate 8 0, 0) 1 = Some st' ∧
    st'.1.2 = [0; 3; 4; 2; 5; 6; 7; 1] ∧
    sorted_run BACKWARD_TOPO_SORT_VISITED backEdges
               (basicBlocks two_loops_cfg, replicate 8 0, 0) st'.
Proof.
  eassert (topoSortBwd 12 (basicBlocks two_loops_cfg, replicate 8 0, 0) 1
           = Some _) as E by (vm_compute; reflexivity).
  eexists. split; [exact E|]. split; [reflexivity|].
  exact (proj1 (topoSortBwd_once _ _ _ _ E)).
Defined.

(** X19: started on a graph in which no block is marked as visited,
    [topoSortBwd] writes every block from which its starting block can be
    reached, these being the blocks found by following the back-edges. *)
Theorem topoSortBwd_reaches fuel st p st' q :
  topoSortBwd fuel st p = Some st' →
  Forall (λ b, visited BACKWARD_TOPO_SORT_VISITED b = false) st.1.1 →
  reaches backEdges st.1.1 p q →
  written st'.1.2 st.2 st'.2 q.
Proof.
  intros H Hfresh Hreach. apply topoSortBwd_run in H as [Hs Hv].
  by eapply (sorted_run_reaches _ _ backEdges_flags).
Qed.

Lemma topoSortBwd_reaches_witness :
  ∃ st',
    topoSortBwd 12 (basicBlocks two_loops_cfg, replicate 8 0, 0) 1 = Some st' ∧
    reaches backEdges (basicBlocks two_loops_cfg) 1 3 ∧
    written st'.1.2 0 st'.2 3.
Proof.
  eassert (topoSortBwd 12 (basicBlocks two_loops_cfg, replicate 8 0, 0) 1
           = Some _) as E by (vm_compute; reflexivity).
  assert (reaches backEdges (basicBlocks two_loops_cfg) 1 3) as Hr.
  { eapply reaches_step; [reflexivity|by left|].
    eapply reaches_step; [reflexivity|by left|].
    eapply reaches_step; [reflexivity|by right; left|]. apply reaches_here. }
  eexists. split; [exact E|]. split; [exact Hr|].
  apply (topoSortBwd_reaches _ _ _ _ 3 E); [|exact Hr].
  repeat constructor.
Defined.

(** X20: [topoSortBwd] returns whenever the back-edges of the blocks lead
    to blocks of the graph, the recursion may go deeper than there are
    blocks not yet visited, and the vector has room for them; it then
    writes as many blocks as it has newly visited. *)
Theorem topoSortBwd_returns fuel st p :
  closed_edges st.1.1 → is_Some (deref st.1.1 p) →
  count_unvisited st.1.1 < fuel →
  st.2 + count_unvisited st.1.1 ≤ length st.1.2 →
  ∃ st', topoSortBwd fuel st p = Some st' ∧
         st'.2 + count_unvisited st'.1.1 = st.2 + count_unvisited st.1.1 ∧
         length st'.1.2 = length st.1.2.
Proof.
  intros Hc Hp Hm Hroom.
  destruct (topoSortBwd_total fuel st p Hc Hp Hm Hroom)
    as (st' & H & _ & _ & Hn & Hl).
  by exists st'.
Qed.

Lemma topoSortBwd_returns_witness :
  ∃ st',
    topoSortBwd 9 (basicBlocks two_loops_cfg, replicate 8 0, 0) 1 = Some st' ∧
    st'.2 + count_unvisited st'.1.1 = 8 ∧ length st'.1.2 = 8.
Proof.
  apply (topoSortBwd_returns 9 (basicBlocks two_loops_cfg, replicate 8 0, 0) 1).
  - intros q b Hb. apply deref_Some in Hb as [Hin _].
    repeat (apply elem_of_cons in Hin as [->|Hin]);
      [repeat constructor; eexists; reflexivity..|by apply elem_of_nil in Hin].
  - eexists. reflexivity.
  - vm_compute. lia.
  - vm_compute. lia.
Defined.
